(** * Stopping criteria for text generation

    A shallow embedding of [src/transformers/generation/stopping_criteria.py]:
    the stop-string precomputation ([_stop_string_get_matching_positions],
    [_stop_string_create_embedding_vec]), the run-time matcher
    ([StopStringCriteria.__call__]) and the list of criteria
    ([StoppingCriteriaList.__call__]), followed by the properties that the
    specification states about them. *)

From Stdlib Require Import ZArith String Ascii Lia.
From stdpp Require Import base tactics numbers option list.

Local Open Scope Z_scope.

(** ** Python values *)

Module Py.

  (** The exceptions that the modelled code can raise. *)
Inductive exn : Set :=
  | IndexError
  | ValueError
  | KeyError
  | RuntimeError
  | NotImplementedError.

  (** A computation either returns a value or raises. *)
Inductive result (A : Type) : Type :=
  | Ok (a : A)
  | Raise (e : exn).
Global Arguments Ok {A} a.
Global Arguments Raise {A} e.

Global Instance result_ret : MRet result := fun A a => Ok a.
Global Instance result_bind : MBind result := fun A B f m =>
    match m with
    | Ok a => f a
    | Raise e => Raise e
    end.
Global Instance result_fmap : FMap result := fun A B f m =>
    match m with
    | Ok a => Ok (f a)
    | Raise e => Raise e
    end.

  (** A [str] is a sequence of Unicode code points. *)
Definition char : Set := N.
Definition pystr : Set := list char.

  (** ASCII literals, read as code points. *)
Definition str (s : string) : pystr := N_of_ascii <$> list_ascii_of_string s.

Definition len {A} (l : list A) : Z := Z.of_nat (length l).

  (** [range(a, b)] *)
Definition range (a b : Z) : list Z :=
    (fun k : nat => a + Z.of_nat k) <$> seq 0 (Z.to_nat (b - a)).

  (** [s.startswith(p)] *)
Fixpoint startswith (s p : pystr) : bool :=
    match p, s with
    | [], _ => true
    | c :: p', d :: s' => (c =? d)%N && startswith s' p'
    | _ :: _, [] => false
    end.

  (** [max(xs)] of a sequence of lengths: raises on the empty sequence. *)
Definition py_max (xs : list nat) : result nat :=
    match xs with
    | [] => Raise ValueError
    | _ :: _ => Ok (max_list xs)
    end.

  (** A [dict] keeps its keys in insertion order; assigning to a key that is
      present replaces the value where it stands. *)
Definition dict (K V : Type) : Type := list (K * V).

Fixpoint dict_set {K V} `{EqDecision K} (k : K) (v : V) (d : dict K V) : dict K V :=
    match d with
    | [] => [(k, v)]
    | (k', v') :: d' =>
        if decide (k = k') then (k, v) :: d' else (k', v') :: dict_set k v d'
    end.

Fixpoint dict_get {K V} `{EqDecision K} (k : K) (d : dict K V) : result V :=
    match d with
    | [] => Raise KeyError
    | (k', v') :: d' => if decide (k = k') then Ok v' else dict_get k d'
    end.

Definition keys {K V} (d : dict K V) : list K := fst <$> d.
Definition values {K V} (d : dict K V) : list V := snd <$> d.
Definition items {K V} (d : dict K V) : list (K * V) := d.

  (** [zip(a, b, c)] stops at the shortest argument. *)
Definition zip3 {A B C} (a : list A) (b : list B) (c : list C) : list (A * B * C) :=
    zip (zip a b) c.

End Py.
Import Py.

(** ** NumPy arrays and Torch tensors, as far as the module uses them

    The source stores the table and the target lengths as [int32].  Every
    entry is [-1], an offset into a stop string or the length of a token or
    of a stop string, and a running sum adds at most as many entries as the
    longest stop string has characters; the model keeps them as integers
    without a bound.  [MaxTimeCriteria], which compares readings of the
    clock, is not part of the model. *)

Module Np.

  (** Integer indexing of an axis of size [n]: negative indices count from
      the end, anything outside [-n, n) raises. *)
Definition index (n : nat) (i : Z) : result nat :=
    if decide (0 <= i < Z.of_nat n) then Ok (Z.to_nat i)
    else if decide (- Z.of_nat n <= i < 0) then Ok (Z.to_nat (i + Z.of_nat n))
    else Raise IndexError.

  (** [np.full((n, w), fill_value=v)] *)
Definition full (n w : nat) (v : Z) : list (list Z) := replicate n (replicate w v).

  (** [row[start : start + len(vals)] = vals] with [0 <= start]: the slice is
      clipped to the row; the values must have the length of the clipped
      slice, or be a single value, which is then broadcast over it. *)
Definition set_row_slice (start : nat) (vals : list Z) (row : list Z) : result (list Z) :=
    let stop := Nat.min (start + length vals) (length row) in
    let n := (stop - start)%nat in
    if decide (length vals = n) then Ok (list_inserts start vals row)
    else match vals with
         | [v] => Ok (list_inserts start (replicate n v) row)
         | _ => Raise ValueError
         end.

  (** [arr[i, start : start + len(vals)] = vals] *)
Definition set_slice (arr : list (list Z)) (i : Z) (start : nat) (vals : list Z)
    : result (list (list Z)) :=
    r ← index (length arr) i;
    row ← set_row_slice start vals (arr !!! r);
    Ok (<[r := row]> arr).

  (** [arr[i, j] = v] *)
Definition set_item (arr : list (list Z)) (i j : Z) (v : Z) : result (list (list Z)) :=
    r ← index (length arr) i;
    c ← index (length (arr !!! r)) j;
    Ok (<[r := <[c := v]> (arr !!! r)]> arr).

End Np.

(** ** The precomputation *)

(** [_cleanup_token], the local helper of [_stop_string_get_matching_positions].
    [token[0]] is a one-character string (and raises on the empty token); the
    second test compares it with the two-character string ["##"]. *)
Definition _cleanup_token (token : pystr) : result pystr :=
  match token with
  | [] => Raise IndexError
  | c :: _ =>
      let token0 : pystr := [c] in
      if bool_decide (token0 ∈ [[9601%N]; [288%N]]) then Ok (str " " ++ drop 1 token)
      else if bool_decide (token0 = str "##") then Ok (drop 2 token)
      else Ok token
  end.

(** One round of the loop [for i in range(1 - len(token), len(stop_string))]. *)
Definition match_step (reversed_filtered_token reversed_stop_string : pystr)
    (acc : list Z * list Z) (i : Z) : list Z * list Z :=
  let '(matching_positions, possible_end_lengths) := acc in
  let '(tok, i) :=
    if i <? 0 then (drop (Z.to_nat (- i)) reversed_filtered_token, 0)
    else (reversed_filtered_token, i) in
  let stop := take (length tok) (drop (Z.to_nat i) reversed_stop_string) in
  if startswith tok stop then
    if i =? 0 then (matching_positions, possible_end_lengths ++ [Z.min (len tok) (len stop)])
    else (matching_positions ++ [i], possible_end_lengths)
  else (matching_positions, possible_end_lengths).

(** The whole loop for one token and one stop string: the pair
    [(matching_positions, possible_end_lengths)]. *)
Definition token_matches (token reversed_filtered_token stop_string : pystr)
    : list Z * list Z :=
  foldl (match_step reversed_filtered_token (reverse stop_string)) ([], [])
        (range (1 - len token) (len stop_string)).

(** The loop over the vocabulary for one stop string: the two dictionaries
    [token_valid_positions[stop_string]] and [token_end_overlaps[stop_string]].
    They are created empty, filled through their alias and never touched by
    another round of the outer loop. *)
Definition stop_string_dicts (token_list reversed_filtered_token_list : list pystr)
    (tok_indices : list Z) (stop_string : pystr)
    : dict Z (list Z) * dict Z (list Z) :=
  foldl (fun '(valid_positions, end_overlaps) '(token, reversed_filtered_token, tok_idx) =>
           let '(matching_positions, possible_end_lengths) :=
             token_matches token reversed_filtered_token stop_string in
           (match matching_positions with
            | [] => valid_positions
            | _ :: _ => dict_set tok_idx matching_positions valid_positions
            end,
            match possible_end_lengths with
            | [] => end_overlaps
            | _ :: _ => dict_set tok_idx possible_end_lengths end_overlaps
            end))
        ([], [])
        (zip3 token_list reversed_filtered_token_list tok_indices).

Definition _stop_string_get_matching_positions
    (token_list : list pystr) (tok_indices : list Z) (stop_strings : list pystr)
    : result (dict pystr (dict Z (list Z)) * dict pystr (dict Z (list Z))) :=
  reversed_filtered_token_list ← mapM (fun token => reverse <$> _cleanup_token token) token_list;
  Ok (foldl (fun '(token_valid_positions, token_end_overlaps) stop_string =>
               let '(valid_positions, end_overlaps) :=
                 stop_string_dicts token_list reversed_filtered_token_list
                                   tok_indices stop_string in
               (dict_set stop_string valid_positions token_valid_positions,
                dict_set stop_string end_overlaps token_end_overlaps))
            ([], []) stop_strings).

(** ** Tensors *)

Module Torch.

Inductive device : Set :=
  | cpu
  | cuda (index : nat).

Global Instance device_eq_dec : EqDecision device.
Proof. solve_decision. Defined.

  (** A two-dimensional integer tensor of shape [(length rows, cols)]; the
      width is kept apart so that a tensor without rows still has one. *)
Record Tensor2 : Set := mkTensor2 {
    device2 : device;
    cols : nat;
    rows : list (list Z)
  }.

  (** A one-dimensional tensor. *)
Record Tensor1 (A : Type) : Type := mkTensor1 {
    device1 : device;
    elems : list A
  }.
Global Arguments mkTensor1 {A} _ _.
Global Arguments device1 {A} _.
Global Arguments elems {A} _.

Definition well_shaped (t : Tensor2) : Prop :=
    Forall (fun r => length r = cols t) (rows t).

  (** [t.to(device)] *)
Definition to2 (d : device) (t : Tensor2) : Tensor2 :=
    mkTensor2 d (cols t) (rows t).
Definition to1 {A : Type} (d : device) (t : Tensor1 A) : Tensor1 A :=
    mkTensor1 d (elems t).

  (** [torch.tensor(array)] of an array with [w] columns. *)
Definition tensor2 (w : nat) (array : list (list Z)) : Tensor2 := mkTensor2 cpu w array.

  (** [t[:, -k:]]: the last [k] columns, all of them when there are fewer;
      [-0] is [0], so [k = 0] keeps every column. *)
Definition last_cols (k : nat) (t : Tensor2) : Tensor2 :=
    match k with
    | O => t
    | S _ =>
        mkTensor2 (device2 t) (Nat.min k (cols t))
                  ((fun r => drop (length r - k) r) <$> rows t)
    end.

  (** [torch.flip(t, (1,))] *)
Definition flip1 (t : Tensor2) : Tensor2 :=
    mkTensor2 (device2 t) (cols t) (reverse <$> rows t).

  (** How a gather reports an index out of range: [IndexError] on the CPU;
      an accelerator reports it through a device-side assertion, a
      [RuntimeError]. *)
Definition out_of_range (d : device) : exn :=
    match d with
    | cpu => IndexError
    | cuda _ => RuntimeError
    end.

  (** [F.embedding(ids, weight)] for one row of ids, on the device [d] of
      both tensors: an id outside [0, len(weight)) raises. *)
Definition embedding (d : device) (ids : list Z) (weight : list (list Z))
      : result (list (list Z)) :=
    mapM (fun i : Z =>
            if decide (0 <= i < len weight) then Ok (weight !!! Z.to_nat i)
            else Raise (out_of_range d)) ids.

  (** [v.unflatten(-1, (n, -1))] on the last axis. *)
Fixpoint chunks (n size : nat) (v : list Z) : list (list Z) :=
    match n with
    | O => []
    | S n' => take size v :: chunks n' size (drop size v)
    end.
Definition unflatten (n : nat) (v : list Z) : list (list Z) :=
    chunks n (length v / n) v.

  (** [expand] along one axis: an axis of size 1 is repeated [n] times. *)
Definition expand1 {A} (n : nat) (l : list A) : list A :=
    match l with
    | [x] => replicate n x
    | _ => l
    end.

  (** Element-wise operations on tensors of shape [S x E]. *)
Definition map2 {A B} (f : A -> B) (m : list (list A)) : list (list B) :=
    (fun r : list A => f <$> r) <$> m.
Definition zip2 {A B C} (f : A -> B -> C) (m1 : list (list A)) (m2 : list (list B))
    : list (list C) :=
    zip_with (zip_with f) m1 m2.

  (** [x.cumsum(dim=1)] of a tensor [T x S x E], for one row of the batch. *)
Fixpoint cumsum_from (acc : list (list Z)) (x : list (list (list Z)))
    : list (list (list Z)) :=
    match x with
    | [] => []
    | m :: x' => let acc' := zip2 Z.add acc m in acc' :: cumsum_from acc' x'
    end.
Definition cumsum (x : list (list (list Z))) : list (list (list Z)) :=
    match x with
    | [] => []
    | m :: x' => m :: cumsum_from m x'
    end.

  (** The largest element of a non-empty list. *)
Definition max_of (l : list Z) : Z :=
    match l with
    | [] => 0
    | x :: l' => foldl Z.max x l'
    end.

  (** [torch.amax(x, dim=(1, -1))] of a tensor [T x S x E] for one row of the
      batch, [T] and [E] not zero: a vector of length [S]. *)
Definition amax_1_m1 (x : list (list (list Z))) : list Z :=
    match (fun m : list (list Z) => max_of <$> m) <$> x with
    | [] => []
    | v :: vs => foldl (zip_with Z.max) v vs
    end.

Definition Z_of_bool (b : bool) : Z := if b then 1 else 0.

End Torch.
Import Torch.

(** A loop whose body can raise. *)
Fixpoint foldM {A B} (f : A -> B -> result A) (a : A) (l : list B) : result A :=
  match l with
  | [] => Ok a
  | b :: l' => a' ← f a b; foldM f a' l'
  end.

(** [enumerate(l)] *)
Definition enumerate {A} (l : list A) : list (nat * A) := imap (fun i x => (i, x)) l.

(** [len(val) for positions in d.values() for val in positions.values()] *)
Definition value_lengths (d : dict pystr (dict Z (list Z))) : list nat :=
  concat ((fun positions : dict Z (list Z) => length <$> values positions) <$> values d).

(** One round of the loop [for i, stop_string in enumerate(stop_strings)] of
    [_stop_string_create_embedding_vec]: the three loops that write into
    [gather_vec]. *)
Definition fill_gather_vec
    (token_list : list pystr) (tok_indices : list Z) (stop_strings : list pystr)
    (token_valid_positions token_end_overlaps : dict pystr (dict Z (list Z)))
    (max_valid_positions max_valid_end_lens : nat)
    (gather_vec : list (list Z)) (round : nat * pystr) : result (list (list Z)) :=
  let '(i, stop_string) := round in
  positions ← dict_get stop_string token_valid_positions;
  end_lens ← dict_get stop_string token_end_overlaps;
  gather_vec ←
    foldM (fun gather_vec '(token_idx, valid_positions) =>
             Np.set_slice gather_vec token_idx (max_valid_positions * i) valid_positions)
          gather_vec (items positions);
  gather_vec ←
    foldM (fun gather_vec '(token_idx, possible_end_lens) =>
             Np.set_slice gather_vec token_idx
                          (max_valid_positions * length stop_strings + max_valid_end_lens * i)
                          possible_end_lens)
          gather_vec (items end_lens);
  foldM (fun gather_vec '(token, token_idx) =>
           Np.set_item gather_vec token_idx (-1) (len token))
        gather_vec (zip token_list tok_indices).

(** [_stop_string_create_embedding_vec]; the [lru_cache] in front of it only
    saves recomputation. The result is the packed table with
    [max_valid_positions] and [max_valid_end_lens]. *)
Definition _stop_string_create_embedding_vec
    (token_list : list pystr) (tok_indices : list Z) (stop_strings : list pystr)
    : result (Tensor2 * nat * nat) :=
  '(token_valid_positions, token_end_overlaps) ←
    _stop_string_get_matching_positions token_list tok_indices stop_strings;
  max_valid_positions ← py_max (value_lengths token_valid_positions);
  max_valid_end_lens ← py_max (value_lengths token_end_overlaps);
  let vec_size := (length stop_strings * (max_valid_positions + max_valid_end_lens) + 1)%nat in
  let gather_vec := Np.full (length token_list) vec_size (-1) in
  gather_vec ←
    foldM (fill_gather_vec token_list tok_indices stop_strings
                           token_valid_positions token_end_overlaps
                           max_valid_positions max_valid_end_lens)
          gather_vec (enumerate stop_strings);
  Ok (tensor2 vec_size gather_vec, max_valid_positions, max_valid_end_lens).

(** ** The criteria *)

(** The tokenizer, as far as this module uses it. *)
Record PreTrainedTokenizerBase : Type := mkTokenizer {
  get_vocab : dict pystr Z
}.

(** The argument [stop_strings : Union[str, List[str]]]. *)
Inductive stop_strings_arg : Set :=
| OneString (s : pystr)
| StringList (l : list pystr).

Module StopStringCriteria.

Record t : Type := mk {
    vocab : dict pystr Z;
    token_list : list pystr;
    tok_indices : list Z;
    stop_strings : list pystr;
    embedding_vec : Tensor2;
    max_valid_positions : nat;
    max_valid_end_lens : nat;
    maximum_token_len : nat;
    num_stop_strings : nat;
    target_lens : Tensor1 Z
  }.

Definition __init__ (tokenizer : PreTrainedTokenizerBase) (stop_strings : stop_strings_arg)
      : result t :=
    let stop_strings :=
      match stop_strings with
      | OneString s => [s]
      | StringList l => l
      end in
    let vocab := get_vocab tokenizer in
    let token_list := keys vocab in
    let tok_indices := values vocab in
    '(embedding_vec, max_valid_positions, max_valid_end_lens) ←
      _stop_string_create_embedding_vec token_list tok_indices stop_strings;
    maximum_token_len ← py_max (length <$> stop_strings);
    Ok (mk vocab token_list tok_indices stop_strings
           embedding_vec max_valid_positions max_valid_end_lens
           maximum_token_len (length stop_strings)
           (mkTensor1 cpu (len <$> stop_strings))).

  (** The statements of [__call__] after the gather, for one row of the
      batch: [embedded] has shape [T x vec_size], the tensors below have the
      shapes of the source without its leading batch axis. *)
Definition row_matches (self : t) (embedded : list (list Z)) : bool :=
    let max_valid_positions := max_valid_positions self in
    let n := num_stop_strings self in
    let valid_positions :=
      (fun v => unflatten n (take (max_valid_positions * n) v)) <$> drop 1 embedded in
    let end_lengths :=
      (fun v => unflatten n (drop (max_valid_positions * n) (take (length v - 1) v)))
        <$> take 1 embedded in
    let lengths := (fun v => [drop (length v - 1) v]) <$> drop 1 embedded in
    let end_width :=
      ((cols (embedding_vec self) - 1 - max_valid_positions * n) / n)%nat in
    let lengths :=
      (fun m : list (list Z) => expand1 n (expand1 end_width <$> m)) <$> lengths in
    let lengths_with_ends := end_lengths ++ lengths in
    let cumsum := Torch.cumsum lengths_with_ends in
    let initial_match := map2 (fun x => bool_decide (0 < x)) <$> end_lengths in
    let later_match :=
      zip_with (zip_with (fun (c v : list Z) => (fun x => existsb (Z.eqb x) v) <$> c))
               (take (length cumsum - 1) cumsum) valid_positions in
    let match_ := initial_match ++ later_match in
    let mask := Torch.cumsum (map2 (fun b => Z_of_bool (negb b)) <$> match_) in
    let mask := map2 (fun x => bool_decide (x = 0)) <$> mask in
    let string_matches :=
      zip_with (fun m target => bool_decide (target <= m))
               (amax_1_m1 (zip_with (zip2 (fun c b => c * Z_of_bool b)) cumsum mask))
               (elems (target_lens self)) in
    existsb id string_matches.

  (** [__call__] moves the table to the device of [input_ids], which changes
      [self], and returns one boolean per row; [scores] is of any type. The
      reduction [torch.amax] raises on an axis of size zero. *)
Definition __call__ {Scores : Type} (self : t) (input_ids : Tensor2) (scores : Scores)
      : result (Tensor1 bool) * t :=
    let self :=
      mk (vocab self) (token_list self) (tok_indices self) (stop_strings self)
         (to2 (device2 input_ids) (embedding_vec self))
         (max_valid_positions self) (max_valid_end_lens self)
         (maximum_token_len self) (num_stop_strings self)
         (to1 (device2 input_ids) (target_lens self)) in
    let input_ids := last_cols (maximum_token_len self) input_ids in
    let flipped_ids := flip1 input_ids in
    let end_width :=
      ((cols (embedding_vec self) - 1 - max_valid_positions self * num_stop_strings self)
       / num_stop_strings self)%nat in
    (embedded ← mapM (fun ids => embedding (device2 flipped_ids) ids (rows (embedding_vec self)))
                     (rows flipped_ids);
     if decide (cols flipped_ids = 0%nat \/ end_width = 0%nat) then Raise IndexError
     else Ok (mkTensor1 (device2 input_ids) (row_matches self <$> embedded)),
     self).

End StopStringCriteria.

(** The call signature shared by all criteria: a call returns one boolean per
    row or raises, and may change the object it is called on. [Scores] stands
    for the float tensor of prediction scores, whose content no definition
    below reads. *)
Class StoppingCriteria (Scores C : Type) : Type :=
  call : C -> Tensor2 -> Scores -> result (Tensor1 bool) * C.

(** [torch.full((input_ids.shape[0],), value, device=input_ids.device)] *)
Definition full_like_rows (input_ids : Tensor2) (value : bool) : Tensor1 bool :=
  mkTensor1 (device2 input_ids) (replicate (length (rows input_ids)) value).

Module MaxLengthCriteria.

Record t : Set := mk {
    max_length : Z;
    max_position_embeddings : option Z
  }.

  (** [max_position_embeddings] defaults to [None]. *)
Definition __init__ (max_length : Z) (max_position_embeddings : option Z) : t :=
    mk max_length max_position_embeddings.

  (** The reminder that [logger.warning_once] prints does not enter the
      result. *)
Definition __call__ {Scores : Type} (self : t) (input_ids : Tensor2) (scores : Scores)
      : result (Tensor1 bool) * t :=
    let cur_len := Z.of_nat (cols input_ids) in
    let is_done := bool_decide (max_length self <= cur_len) in
    (Ok (full_like_rows input_ids is_done), self).

End MaxLengthCriteria.

Module MaxNewTokensCriteria.

Record t : Set := mk {
    start_length : Z;
    max_new_tokens : Z;
    max_length : Z
  }.

Definition __init__ (start_length max_new_tokens : Z) : t :=
    mk start_length max_new_tokens (start_length + max_new_tokens).

Definition __call__ {Scores : Type} (self : t) (input_ids : Tensor2) (scores : Scores)
      : result (Tensor1 bool) * t :=
    let is_done := bool_decide (max_length self <= Z.of_nat (cols input_ids)) in
    (Ok (full_like_rows input_ids is_done), self).

End MaxNewTokensCriteria.

Global Instance MaxLengthCriteria_call {Scores} : StoppingCriteria Scores MaxLengthCriteria.t :=
  MaxLengthCriteria.__call__.
Global Instance MaxNewTokensCriteria_call {Scores}
  : StoppingCriteria Scores MaxNewTokensCriteria.t :=
  MaxNewTokensCriteria.__call__.
Global Instance StopStringCriteria_call {Scores} : StoppingCriteria Scores StopStringCriteria.t :=
  StopStringCriteria.__call__.

(** The abstract base class: calling it raises. *)
Inductive AbstractCriteria : Set := abstract_criteria.
Global Instance AbstractCriteria_call {Scores} : StoppingCriteria Scores AbstractCriteria :=
  fun self _ _ => (Raise NotImplementedError, self).

Module StoppingCriteriaList.

  (** An element of the list: an object of some class with the call
      signature. *)
Record member (Scores : Type) : Type := Member {
    member_class : Type;
    member_call : StoppingCriteria Scores member_class;
    member_self : member_class
  }.
Global Arguments Member {Scores} _ {_} _.
Global Arguments member_class {Scores} _.
Global Arguments member_call {Scores} _.
Global Arguments member_self {Scores} _.

Definition t (Scores : Type) : Type := list (member Scores).

  (** [criteria(input_ids, scores)] for a member, with the member as the
      call leaves it. *)
Definition call_member {Scores} (criteria : member Scores) (input_ids : Tensor2)
      (scores : Scores) : result (Tensor1 bool) * member Scores :=
    let '(r, self') :=
      @call _ _ (member_call criteria) (member_self criteria) input_ids scores in
    (r, @Member _ (member_class criteria) (member_call criteria) self').

  (** [a | b] on boolean vectors: both on one device; equal lengths, or one
      of them of length one, which is then broadcast. *)
Definition or_ (a b : Tensor1 bool) : result (Tensor1 bool) :=
    if decide (device1 a = device1 b) then
      if decide (length (elems a) = length (elems b)) then
        Ok (mkTensor1 (device1 a) (zip_with orb (elems a) (elems b)))
      else
        match elems a, elems b with
        | [x], ys => Ok (mkTensor1 (device1 a) (orb x <$> ys))
        | xs, [y] => Ok (mkTensor1 (device1 a) ((fun x => orb x y) <$> xs))
        | _, _ => Raise RuntimeError
        end
    else Raise RuntimeError.

  (** The loop [for criteria in self: is_done = is_done | criteria(...)]. *)
Fixpoint loop {Scores} (self : t Scores) (input_ids : Tensor2) (scores : Scores)
      (is_done : Tensor1 bool) : result (Tensor1 bool) * t Scores :=
    match self with
    | [] => (Ok is_done, [])
    | criteria :: rest =>
        let '(r, criteria') := call_member criteria input_ids scores in
        match r ≫= or_ is_done with
        | Ok is_done' =>
            let '(res, rest') := loop rest input_ids scores is_done' in
            (res, criteria' :: rest')
        | Raise e => (Raise e, criteria' :: rest)
        end
    end.

Definition __call__ {Scores} (self : t Scores) (input_ids : Tensor2) (scores : Scores)
      : result (Tensor1 bool) * t Scores :=
    let is_done := full_like_rows input_ids false in
    loop self input_ids scores is_done.

  (** An element of the list with what [isinstance] tells about it: an
      object of [MaxLengthCriteria], of [MaxNewTokensCriteria], or of a class
      that is neither. *)
Inductive element (Scores : Type) : Type :=
  | OfMaxLengthCriteria (criteria : MaxLengthCriteria.t)
  | OfMaxNewTokensCriteria (criteria : MaxNewTokensCriteria.t)
  | OfAnotherClass (criteria : member Scores).
Global Arguments OfMaxLengthCriteria {Scores} _.
Global Arguments OfMaxNewTokensCriteria {Scores} _.
Global Arguments OfAnotherClass {Scores} _.

Definition as_member {Scores} (criteria : element Scores) : member Scores :=
    match criteria with
    | OfMaxLengthCriteria c => Member MaxLengthCriteria.t c
    | OfMaxNewTokensCriteria c => Member MaxNewTokensCriteria.t c
    | OfAnotherClass m => m
    end.

  (** The property [max_length]: the attribute of the first element that is
      a [MaxLengthCriteria] or a [MaxNewTokensCriteria], [None] without one. *)
Fixpoint max_length {Scores} (self : list (element Scores)) : option Z :=
    match self with
    | [] => None
    | OfMaxLengthCriteria stopping_criterium :: _ =>
        Some (MaxLengthCriteria.max_length stopping_criterium)
    | OfMaxNewTokensCriteria stopping_criterium :: _ =>
        Some (MaxNewTokensCriteria.max_length stopping_criterium)
    | OfAnotherClass _ :: rest => max_length rest
    end.

End StoppingCriteriaList.

(** A warning issued through [warnings.warn]. *)
Inductive warning : Set :=
| UserWarning (message : string).

(** [validate_stopping_criteria]: the result is a copy of the list, with a
    [MaxLengthCriteria] appended when the list has no maximum length of its
    own; the argument is left as it is. The warnings issued are returned
    beside it. *)
Definition validate_stopping_criteria {Scores}
    (stopping_criteria : list (StoppingCriteriaList.element Scores)) (max_length : Z)
    : list (StoppingCriteriaList.element Scores) * list warning :=
  let stopping_max_length := StoppingCriteriaList.max_length stopping_criteria in
  let new_stopping_criteria := stopping_criteria in
  match stopping_max_length with
  | Some m =>
      if decide (m <> max_length) then
        (new_stopping_criteria,
         [UserWarning
            "You set different `max_length` for stopping criteria and `max_length` parameter"])
      else (new_stopping_criteria, [])
  | None =>
      (new_stopping_criteria
         ++ [StoppingCriteriaList.OfMaxLengthCriteria (MaxLengthCriteria.__init__ max_length None)],
       [])
  end.

(** ** What the specification says, in the terms of the code *)

(** The token of the vocabulary that carries an id. *)
Definition token_of (vocab : dict pystr Z) (id : Z) : option pystr :=
  fst <$> head (filter (fun p : pystr * Z => p.2 = id) vocab).

(** The text that the alignment uses for a token. *)
Definition normalized (token : pystr) : pystr :=
  match _cleanup_token token with
  | Ok t => t
  | Raise _ => token
  end.

(** The normalized texts of a row of token ids, oldest first; an id that the
    vocabulary does not have has no text. *)
Definition row_texts (vocab : dict pystr Z) (ids : list Z) : list pystr :=
  (fun id => from_option normalized [] (token_of vocab id)) <$> ids.

(** A vocabulary whose ids are distinct indices of a table with one row per
    token. *)
Definition dense_vocab (vocab : dict pystr Z) : Prop :=
  NoDup (values vocab) /\
  Forall (fun id => 0 <= id < len vocab) (values vocab).

(** The stop string is a substring of the concatenated text and that
    occurrence ends exactly at the end of the text. *)
Definition ends_at_sequence_end (stop_string : pystr) (texts : list pystr) : Prop :=
  stop_string `suffix_of` concat texts.

(** The stop string is a substring of the concatenated text and that
    occurrence ends inside the last token: after its [k]-th character,
    [1 <= k <= len(last)], with the rest of the last token hanging over. *)
Definition ends_in_last_token (stop_string : pystr) (texts : list pystr) : Prop :=
  exists older last k,
    texts = older ++ [last] /\
    (0 < k <= length last)%nat /\
    stop_string `suffix_of` (concat older ++ take k last).

(** The trailing [k] columns of a batch of histories. *)
Definition trailing_columns (k : nat) (t : Tensor2) : Tensor2 :=
  mkTensor2 (device2 t) (Nat.min k (cols t)) ((fun r => drop (length r - k) r) <$> rows t).

(** The normalization as the specification words it: a leading word-start
    marker becomes a space, a leading ["##"] is stripped, any other token is
    unchanged. *)
Definition spec_normalize (token : pystr) : pystr :=
  match token with
  | c :: rest =>
      if bool_decide (c = 9601%N \/ c = 288%N) then str " " ++ rest
      else if bool_decide (take 2 token = str "##") then drop 2 token
      else token
  | [] => []
  end.

(** One row of a batch, on the CPU. *)
Definition one_row (ids : list Z) : Tensor2 := mkTensor2 cpu (length ids) [ids].

(** A batch of [b] rows without columns. *)
Definition no_columns (d : device) (b : nat) : Tensor2 := mkTensor2 d 0 (replicate b []).


(** *** The vocabularies of the examples *)

(** The literal scenario of the specification, with its ids 1..10. *)
Definition literal_vocab : dict pystr Z :=
  [(str "st", 1); (str "op", 2); (str "stop", 3); (str "opera", 4); (str "sto", 5);
   (str "pper", 6); (str "las", 7); (str "topper", 8); (str "at", 9); (str "tion", 10)].

(** The same tokens with the ids 0..9. *)
Definition literal_vocab0 : dict pystr Z :=
  (fun p : pystr * Z => (p.1, p.2 - 1)) <$> literal_vocab.

Definition banana_vocab : dict pystr Z :=
  [(str "ba", 0); (str "bana", 1); (str "nana", 2)].

Definition small_vocab : dict pystr Z :=
  [(str "st", 0); (str "op", 1); (str "opera", 2)].

(** The result of evaluating one row with the criteria built from a
    vocabulary and stop strings; [None] when the construction or the call
    raises. *)
Definition evaluate (vocab : dict pystr Z) (stop_strings : list pystr) (ids : list Z)
    : option (list bool) :=
  match StopStringCriteria.__init__ (mkTokenizer vocab) (StringList stop_strings) with
  | Ok self =>
      match (StopStringCriteria.__call__ self (one_row ids) tt).1 with
      | Ok t => Some (elems t)
      | Raise _ => None
      end
  | Raise _ => None
  end.

(** ** Auxiliary notions for the proofs *)

(** A tensor of shape [S x E], as nested lists. *)
Definition shaped {A} (S E : nat) (m : list (list A)) : Prop :=
  length m = S /\ Forall (fun r => length r = E) m.

(** The entry [(s, e)] of every matrix of a tensor [T x S x E]. *)
Definition fiber {A} {IA : Inhabited A} (x : list (list (list A))) (s e : nat) : list A :=
  (fun m : list (list A) => (m !!! s) !!! e) <$> x.

(** The running sum of a sequence of numbers. *)
Fixpoint running_from (acc : Z) (l : list Z) : list Z :=
  match l with
  | [] => []
  | x :: l' => (acc + x) :: running_from (acc + x) l'
  end.
Definition running (l : list Z) : list Z :=
  match l with
  | [] => []
  | x :: l' => x :: running_from x l'
  end.

(** The backward scan along one branch, as a recursion: [c] characters of the
    stop string are matched so far, [rest] holds the valid positions and the
    length of each older token, newest first. *)
Fixpoint reaches (target c : Z) (rest : list (list Z * Z)) : bool :=
  bool_decide (target <= c) ||
  match rest with
  | [] => false
  | (valid, l) :: rest' => existsb (Z.eqb c) valid && reaches target (c + l) rest'
  end.

(** A row of the packed table, taken apart: the blocks of valid positions,
    the blocks of end lengths (one block per stop string each) and the token
    length. *)
Definition decodes (S P E : nat) (v : list Z) (rec : list (list Z) * list (list Z) * Z) : Prop :=
  v = concat rec.1.1 ++ concat rec.1.2 ++ [rec.2] /\
  shaped S P rec.1.1 /\ shaped S E rec.1.2.

(** What one older token contributes to the branch of stop string [s]. *)
Definition older_entry (s : nat) (rec : list (list Z) * list (list Z) * Z) : list Z * Z :=
  (rec.1.1 !!! s, rec.2).

(** The text of a token reversed, as the precomputation scans it. *)
Definition reversed_filtered (token : pystr) : pystr := reverse (normalized token).

(** The two lists that the precomputation finds for a stop string and a
    token. *)
Definition valid_positions_of (stop_string token : pystr) : list Z :=
  (token_matches token (reversed_filtered token) stop_string).1.
Definition end_overlaps_of (stop_string token : pystr) : list Z :=
  (token_matches token (reversed_filtered token) stop_string).2.

(** The dictionary from token ids to the non-empty lists among [f token]. *)
Definition entries_of (f : pystr -> list Z) (vocab : list (pystr * Z)) : dict Z (list Z) :=
  omap (fun p : pystr * Z =>
          match f p.1 with
          | [] => None
          | _ :: _ => Some (p.2, f p.1)
          end) vocab.

(** The outer dictionary: one entry per stop string, holding [h stop_string]. *)
Definition per_stop_string {V} (h : pystr -> V) (stop_strings : list pystr) : dict pystr V :=
  foldl (fun d stop_string => dict_set stop_string (h stop_string) d) [] stop_strings.

(** What one round of the filling loop does to the row of a token. *)
Definition fill_row (P E S : nat) (token : pystr) (row : list Z) (round : nat * pystr) : list Z :=
  let row := list_inserts (P * round.1) (valid_positions_of round.2 token) row in
  let row := list_inserts (P * S + E * round.1) (end_overlaps_of round.2 token) row in
  <[(length row - 1)%nat := len token]> row.

(** A list padded to width [w] with the fill value [-1]. *)
Definition pad (w : nat) (l : list Z) : list Z := l ++ replicate (w - length l) (-1).

(** The row of the packed table for a token. *)
Definition table_row (P E : nat) (stop_strings : list pystr) (token : pystr) : list Z :=
  concat ((fun s => pad P (valid_positions_of s token)) <$> stop_strings)
  ++ concat ((fun s => pad E (end_overlaps_of s token)) <$> stop_strings)
  ++ [len token].

(** What the proofs need to know about the table that the precomputation
    returns. *)
Record table_spec (vocab : list (pystr * Z)) (stop_strings : list pystr)
    (t : Tensor2) (P E : nat) : Prop := {
  table_stop_strings : stop_strings <> [];
  table_P : (0 < P)%nat;
  table_E : (0 < E)%nat;
  table_cols : cols t = (length stop_strings * (P + E) + 1)%nat;
  table_length : length (rows t) = length vocab;
  table_tokens : Forall (fun token => token <> []) (keys vocab);
  table_valid_positions : forall s token id, s ∈ stop_strings -> (token, id) ∈ vocab ->
      (length (valid_positions_of s token) <= P)%nat;
  table_end_overlaps : forall s token id, s ∈ stop_strings -> (token, id) ∈ vocab ->
      (length (end_overlaps_of s token) <= E)%nat;
  table_rows : forall token id, (token, id) ∈ vocab ->
      rows t !! Z.to_nat id = Some (table_row P E stop_strings token);
  table_some_position : exists s token id,
      s ∈ stop_strings /\ (token, id) ∈ vocab /\ valid_positions_of s token <> [];
  table_some_overlap : exists s token id,
      s ∈ stop_strings /\ (token, id) ∈ vocab /\ end_overlaps_of s token <> []
}.

(** The alignment of [match_step] at a positive offset [i]: the whole
    reversed token against the reversed stop string from [i] on. *)
Definition fits_at (rft rss : pystr) (i : Z) : bool :=
  startswith rft (take (length rft) (drop (Z.to_nat i) rss)).

(** The alignment at an offset [i <= 0]: the reversed token without its
    first [-i] characters against the start of the reversed stop string, and
    the end length it records. *)
Definition overlaps_at (rft rss : pystr) (i : Z) : bool :=
  let tok := drop (Z.to_nat (- i)) rft in
  startswith tok (take (length tok) rss).
Definition overlap_length (rft rss : pystr) (i : Z) : Z :=
  let tok := drop (Z.to_nat (- i)) rft in
  Z.min (len tok) (len (take (length tok) rss)).

(** The entry of an older token in the branch of a stop string, as the table
    holds it. *)
Definition table_entry (P : nat) (stop_string token : pystr) : list Z * Z :=
  (pad P (valid_positions_of stop_string token), len token).

(** The text of a list of tokens given newest first. *)
Definition text_before (older : list pystr) : pystr :=
  concat (reverse (normalized <$> older)).

(** The token of an id, the empty string when the vocabulary has none. *)
Definition token_or_empty (vocab : dict pystr Z) (id : Z) : pystr :=
  default [] (token_of vocab id).

(** A stop string that no token of the vocabulary aligns with: the
    precomputation finds neither a valid position nor an end overlap. *)
Definition unreachable (vocab : dict pystr Z) (stop_string : pystr) : Prop :=
  forall token id, (token, id) ∈ vocab ->
    valid_positions_of stop_string token = [] /\ end_overlaps_of stop_string token = [].

(** The list of stop strings that an argument of [__init__] stands for. *)
Definition stop_strings_of (arg : stop_strings_arg) : list pystr :=
  match arg with
  | OneString s => [s]
  | StringList l => l
  end.

(** The histories that the run-time check is specified for: a batch with at
    least one column whose ids all belong to the vocabulary. *)
Definition history_of (vocab : dict pystr Z) (input_ids : Tensor2) : Prop :=
  well_shaped input_ids /\ (0 < cols input_ids)%nat /\
  Forall (Forall (fun id => id ∈ values vocab)) (rows input_ids).

(** A member of a criteria list returns the vector [r]: one boolean per row
    of the batch, on the device of the input. *)
Definition returns {Scores : Type} (input_ids : Tensor2) (scores : Scores)
    (criteria : StoppingCriteriaList.member Scores) (r : Tensor1 bool) : Prop :=
  (StoppingCriteriaList.call_member criteria input_ids scores).1 = Ok r /\
  device1 r = device2 input_ids /\
  length (elems r) = length (rows input_ids).

(** ** Notions for the further properties of the code *)

(** [needle] occurs in [text] as a contiguous substring. *)
Definition occurs_in (needle text : pystr) : Prop :=
  exists before after, text = before ++ needle ++ after.

(** [d[stop_string].get(tok_idx, [])] for a nested dictionary of the
    precomputation, which stores no empty list. *)
Definition recorded (d : dict pystr (dict Z (list Z))) (stop_string : pystr) (tok_idx : Z)
    : result (list Z) :=
  inner ← dict_get stop_string d;
  Ok (match dict_get tok_idx inner with
      | Ok l => l
      | Raise _ => []
      end).

(** A text laid so that it ends [j] characters before the end of the stop
    string agrees with the stop string wherever the two overlap: it is the
    end of what the stop string has before its last [j] characters, or it
    ends with all of that and starts before the stop string does. *)
Definition fits_before (stop_string text : pystr) (j : nat) : Prop :=
  let head := take (length stop_string - j) stop_string in
  text `suffix_of` head \/ head `suffix_of` text.

(** The first [k] characters of a text and the stop string end together:
    those characters are the end of the stop string, or they end with the
    whole stop string. *)
Definition ends_with_stop_string (stop_string text : pystr) (k : nat) : Prop :=
  take k text `suffix_of` stop_string \/ stop_string `suffix_of` take k text.

(** A token that can stand before the last token of a match of the stop
    string. *)
Definition continues (stop_string token : pystr) : Prop :=
  exists j : nat, (0 < j < length stop_string)%nat /\
                  fits_before stop_string (normalized token) j.

(** A token that can be the last token of a match of the stop string. The
    scan tries the whole token only against a stop string that has a
    character. *)
Definition completes (stop_string token : pystr) : Prop :=
  exists k : nat, (1 <= k <= length token)%nat /\
                  (k = length token -> stop_string <> []) /\
                  ends_with_stop_string stop_string (normalized token) k.

(** An array of [n] rows of width [w]. *)
Definition array_shape (n w : nat) (gv : list (list Z)) : Prop :=
  length gv = n /\ Forall (fun r => length r = w) gv.

(** A token id that indexes a row of an array with [n] rows, from the start
    or, negative, from the end. *)
Definition row_index (n : nat) (id : Z) : Prop := - Z.of_nat n <= id < Z.of_nat n.


(** * Proofs *)

(** ** Computations that can raise *)

Lemma bind_Ok {A B} (m : result A) (f : A -> result B) (b : B) :
  m ≫= f = Ok b <-> exists a, m = Ok a /\ f a = Ok b.
Proof.
  destruct m as [a|e]; cbn.
  - split; [eauto|]. intros (a' & [= <-] & H). exact H.
  - split; [discriminate|]. intros (a' & [=] & _).
Qed.

Lemma mapM_Ok {A B} (f : A -> result B) (l : list A) (k : list B) :
  mapM f l = Ok k <-> Forall2 (fun x y => f x = Ok y) l k.
Proof.
  revert k. induction l as [|x l IH]; intros k; cbn.
  - split; [intros [= <-]; constructor|]. intros Hk. inversion Hk. reflexivity.
  - rewrite bind_Ok. split.
    + intros (y & Hy & Hr). apply bind_Ok in Hr as (k' & Hk' & [= <-]).
      constructor; [exact Hy|]. apply IH, Hk'.
    + intros Hk. inversion Hk as [|? y ? k' Hy Hk']; subst.
      exists y. split; [exact Hy|]. apply bind_Ok. exists k'. split; [apply IH, Hk'|reflexivity].
Qed.

Lemma mapM_Ok_fmap {A B} (f : A -> result B) (g : A -> B) (l : list A) :
  Forall (fun x => f x = Ok (g x)) l -> mapM f l = Ok (g <$> l).
Proof.
  intros HF. apply mapM_Ok. induction HF; cbn; constructor; auto.
Qed.

(** ** Dictionaries *)

Section dict.
Context {K V : Type} `{EqDecision K}.
Implicit Types (d : dict K V).

Lemma dict_get_set_eq k v d : dict_get k (dict_set k v d) = Ok v.
Proof.
    induction d as [|[k' v'] d IH]; cbn.
    - rewrite decide_True by reflexivity. reflexivity.
    - destruct (decide (k = k')) as [->|Hne]; cbn.
      + rewrite decide_True by reflexivity. reflexivity.
      + rewrite decide_False by exact Hne. exact IH.
Qed.

Lemma dict_get_set_ne k k' v d : k <> k' -> dict_get k' (dict_set k v d) = dict_get k' d.
Proof.
    intros Hne. induction d as [|[k0 v0] d IH]; cbn.
    - rewrite decide_False by congruence. reflexivity.
    - destruct (decide (k = k0)) as [->|Hne0]; cbn.
      + rewrite !decide_False by congruence. reflexivity.
      + destruct (decide (k' = k0)); [reflexivity|exact IH].
Qed.

Lemma dict_get_elem_of k v d : dict_get k d = Ok v -> (k, v) ∈ d.
Proof.
    induction d as [|[k' v'] d IH]; cbn; [discriminate|].
    destruct (decide (k = k')) as [->|Hne].
    - intros [= ->]. left.
    - intros H. right. apply IH, H.
Qed.

Lemma dict_set_elem_of k v k' v' d :
    (k', v') ∈ dict_set k v d -> (k', v') = (k, v) \/ (k', v') ∈ d.
Proof.
    induction d as [|[k0 v0] d IH]; cbn.
    - intros H. apply list_elem_of_singleton in H. auto.
    - destruct (decide (k = k0)) as [->|Hne]; intros H; apply elem_of_cons in H as [H|H].
      + auto.
      + right. right. exact H.
      + right. rewrite H. left.
      + apply IH in H as [H|H]; [auto|right; right; exact H].
Qed.

Lemma dict_set_fresh k v d : k ∉ keys d -> dict_set k v d = d ++ [(k, v)].
Proof.
    induction d as [|[k0 v0] d IH]; cbn; [reflexivity|].
    intros Hk. apply not_elem_of_cons in Hk as [Hne Hk].
    rewrite decide_False by exact Hne. rewrite IH by exact Hk. reflexivity.
Qed.
End dict.

(** ** Loops that update one row of an array per round *)

Section rows.
Context {X : Type} (key : X -> Z) (u : X -> list Z -> list Z) (ok : X -> Prop)
          (f : list (list Z) -> X -> result (list (list Z))) (W : nat).
Context (f_spec : forall gv x,
              Forall (fun r => length r = W) gv -> 0 <= key x < len gv -> ok x ->
              f gv x = Ok (<[Z.to_nat (key x) := u x (gv !!! Z.to_nat (key x))]> gv)).
Context (u_length : forall x row, ok x -> length row = W -> length (u x row) = W).

Lemma foldM_rows (l : list X) (gv : list (list Z)) :
    NoDup (key <$> l) -> Forall ok l -> Forall (fun x => 0 <= key x < len gv) l ->
    Forall (fun r => length r = W) gv ->
    exists gv',
      foldM f gv l = Ok gv' /\ length gv' = length gv /\
      Forall (fun r => length r = W) gv' /\
      (forall x, x ∈ l -> gv' !! Z.to_nat (key x) = Some (u x (gv !!! Z.to_nat (key x)))) /\
      (forall r, (forall x, x ∈ l -> Z.to_nat (key x) <> r) -> gv' !! r = gv !! r).
Proof.
    revert gv. induction l as [|x l IH]; intros gv Hnd Hok Hin HW.
    - exists gv. cbn. repeat split; auto. intros x Hx. inversion Hx.
    - cbn in Hnd. apply NoDup_cons in Hnd as [Hx Hnd].
      apply Forall_cons in Hok as [Hokx Hok]. apply Forall_cons in Hin as [Hinx Hin].
      set (r := Z.to_nat (key x)).
      assert (Hr : (r < length gv)%nat) by (unfold len in Hinx; lia).
      set (gv1 := <[r := u x (gv !!! r)]> gv).
      assert (HW1 : Forall (fun r => length r = W) gv1).
      { apply Forall_insert; [exact HW|]. apply u_length; [exact Hokx|].
        apply (Forall_lookup_1 (fun r => length r = W) gv r); [exact HW|].
        apply list_lookup_lookup_total_lt, Hr. }
      destruct (IH gv1) as (gv' & Hf & Hlen & HW' & Hhit & Hmiss).
      + exact Hnd.
      + exact Hok.
      + eapply Forall_impl; [exact Hin|]. intros y Hy. unfold gv1, len. rewrite length_insert. exact Hy.
      + exact HW1.
      + exists gv'. cbn [foldM]. rewrite f_spec by auto. cbn [mbind result_bind]. fold r. fold gv1.
        split; [exact Hf|]. split; [rewrite Hlen; apply length_insert|]. split; [exact HW'|].
        split.
        * intros y Hy. apply elem_of_cons in Hy as [->|Hy].
          -- fold r. rewrite Hmiss.
             ++ unfold gv1. apply list_lookup_insert_eq, Hr.
             ++ intros z Hz Heq. apply Hx. apply list_elem_of_fmap. exists z. split; [|exact Hz].
                assert (0 <= key z) by (eapply Forall_forall in Hin; [|exact Hz]; cbn in Hin; lia).
                unfold r in Heq. lia.
          -- rewrite (Hhit y Hy). f_equal. f_equal.
             assert (Hne : r <> Z.to_nat (key y)).
             { intros Heq. apply Hx. apply list_elem_of_fmap. exists y. split; [|exact Hy].
               assert (0 <= key y) by (eapply Forall_forall in Hin; [|exact Hy]; cbn in Hin; lia).
               unfold r in Heq. lia. }
             unfold gv1. apply list_lookup_total_insert_ne, Hne.
        * intros r' Hr'. rewrite Hmiss.
          -- unfold gv1. apply list_lookup_insert_ne. intros Heq. apply (Hr' x); [left|exact Heq].
          -- intros y Hy. apply Hr'. right. exact Hy.
Qed.
End rows.

(** ** Normalization of tokens *)

Lemma cleanup_token_cases (token : pystr) :
  _cleanup_token token =
    match token with
    | [] => Raise IndexError
    | c :: rest =>
        if bool_decide (c = 9601%N \/ c = 288%N) then Ok (32%N :: rest) else Ok token
    end.
Proof.
  destruct token as [|c rest]; [reflexivity|].
  unfold _cleanup_token.
  assert (Hm : ([c] ∈ [[9601%N]; [288%N]]) <-> (c = 9601%N \/ c = 288%N)).
  { rewrite !elem_of_cons, elem_of_nil. split.
    - intros [H|[H|[]]]; inversion H; auto.
    - intros [->| ->]; auto. }
  rewrite (bool_decide_ext _ _ Hm).
  destruct (bool_decide (c = 9601%N \/ c = 288%N)); [reflexivity|].
  rewrite bool_decide_eq_false_2; [reflexivity|]. discriminate.
Qed.

Lemma cleanup_token_length (token t : pystr) :
  _cleanup_token token = Ok t -> length t = length token /\ token <> [].
Proof.
  rewrite cleanup_token_cases. destruct token as [|c rest]; [discriminate|].
  destruct (bool_decide _); intros [= <-]; split; auto; discriminate.
Qed.

(** C5: the normalization replaces a leading word-start marker by a space
    and leaves every other token as it is; the continuation marker ["##"] is
    not stripped, because the code compares the single character [token[0]]
    with the two-character string. The token ["##ing"] comes back unchanged,
    where the specification asks for ["ing"]. *)
Theorem cleanup_token_keeps_continuation_marker :
  _cleanup_token (str "##ing") = Ok (str "##ing") /\
  spec_normalize (str "##ing") = str "ing" /\
  (forall c rest,
      _cleanup_token (c :: rest)
      = Ok (if bool_decide (c = 9601%N \/ c = 288%N) then 32%N :: rest else c :: rest)).
Proof.
  split; [reflexivity|]. split; [reflexivity|].
  intros c rest. rewrite cleanup_token_cases. destruct (bool_decide _); reflexivity.
Qed.

(** C2: on the literal scenario of the specification the construction
    raises: the table has one row per token, ten rows, and the id 10 of
    ["tion"] indexes an eleventh. *)
Theorem literal_scenario_construction_raises :
  StopStringCriteria.__init__ (mkTokenizer literal_vocab) (OneString (str "stop"))
  = Raise IndexError.
Proof. vm_compute. reflexivity. Qed.

(** With the same tokens under the ids 0..9 the eight sequences evaluate as
    the scenario lists them. *)
Lemma literal_scenario_zero_based_ids :
  evaluate literal_vocab0 [str "stop"] <$> [[0; 1]; [2]; [0; 3]; [4; 5]; [6; 7]]
  = replicate 5 (Some [true]) /\
  evaluate literal_vocab0 [str "stop"] <$> [[2; 8]; [0; 1; 8]; [0; 3; 9]]
  = replicate 3 (Some [false]).
Proof. split; vm_compute; reflexivity. Qed.

(** C9: a call does not depend on [scores], of whatever type they are, and
    a second call on the object that the first one leaves behind returns the
    same result. *)
Theorem call_ignores_scores (S1 S2 : Type) (self : StopStringCriteria.t)
    (input_ids : Tensor2) (scores1 : S1) (scores2 : S2) :
  (StopStringCriteria.__call__ self input_ids scores1).1
  = (StopStringCriteria.__call__ self input_ids scores2).1 /\
  (StopStringCriteria.__call__
     (StopStringCriteria.__call__ self input_ids scores1).2 input_ids scores2).1
  = (StopStringCriteria.__call__ self input_ids scores1).1.
Proof. split; reflexivity. Qed.

Lemma mapM_embedding_nil (d : device) (w : list (list Z)) (b : nat) :
  mapM (fun ids => embedding d ids w) (replicate b []) = Ok (replicate b []).
Proof.
  induction b as [|b IH]; [reflexivity|].
  simpl. unfold mapM in *. simpl. rewrite IH. reflexivity.
Qed.

(** C8, amended: on a batch without columns the call does not return; the
    reduction over the empty token axis raises, whatever the number of
    rows. *)
Theorem call_without_columns_raises (Scores : Type) (tokenizer : PreTrainedTokenizerBase)
    (stop_strings : stop_strings_arg) (self : StopStringCriteria.t)
    (d : device) (b : nat) (scores : Scores) :
  StopStringCriteria.__init__ tokenizer stop_strings = Ok self ->
  (StopStringCriteria.__call__ self (no_columns d b) scores).1 = Raise IndexError.
Proof.
  intros _. unfold StopStringCriteria.__call__. cbn [fst].
  assert (Hr : rows (flip1 (last_cols (StopStringCriteria.maximum_token_len self) (no_columns d b)))
               = replicate b []).
  { unfold last_cols, flip1, no_columns. destruct (StopStringCriteria.maximum_token_len self); cbn.
    - induction b; cbn; f_equal; auto.
    - induction b; cbn; f_equal; auto. }
  assert (Hc : cols (flip1 (last_cols (StopStringCriteria.maximum_token_len self) (no_columns d b)))
               = 0%nat).
  { unfold last_cols, flip1, no_columns. destruct (StopStringCriteria.maximum_token_len self); cbn; lia. }
  cbn [StopStringCriteria.maximum_token_len StopStringCriteria.embedding_vec].
  rewrite Hr, Hc. cbn [rows to2]. rewrite mapM_embedding_nil. cbn.
  rewrite decide_True by auto. reflexivity.
Qed.

Lemma call_without_columns_raises_witness :
  exists self,
    StopStringCriteria.__init__ (mkTokenizer small_vocab) (OneString (str "stop")) = Ok self /\
    (StopStringCriteria.__call__ self (no_columns (cuda 0) 3) tt).1 = Raise IndexError.
Proof.
  eexists.
  assert (Hinit : StopStringCriteria.__init__ (mkTokenizer small_vocab) (OneString (str "stop"))
                  = Ok ?[self]) by (vm_compute; reflexivity).
  split; [exact Hinit|].
  exact (call_without_columns_raises unit _ _ _ (cuda 0) 3 tt Hinit).
Defined.

Lemma shaped_lookup {A} {IA : Inhabited A} (S E : nat) (m : list (list A)) (s : nat) :
  shaped S E m -> (s < S)%nat -> length (m !!! s) = E.
Proof.
  intros [Hl HF] Hs.
  destruct (lookup_lt_is_Some_2 m s ltac:(lia)) as [r Hr].
  rewrite (list_lookup_total_correct _ _ _ Hr).
  eapply Forall_lookup_1 in HF; eauto.
Qed.

Section tensors.
Context {A B C : Type} {IA : Inhabited A} {IB : Inhabited B} {IC : Inhabited C}.

Lemma zip2_shaped (f : A -> B -> C) S E m1 m2 :
    shaped S E m1 -> shaped S E m2 -> shaped S E (zip2 f m1 m2).
Proof.
    intros [Hl1 HF1] [Hl2 HF2]. split.
    - unfold zip2. rewrite length_zip_with. lia.
    - unfold zip2. apply Forall_lookup. intros i r Hr.
      apply lookup_zip_with_Some in Hr as (r1 & r2 & -> & Hr1 & Hr2).
      rewrite length_zip_with.
      eapply Forall_lookup_1 in HF1; eauto. eapply Forall_lookup_1 in HF2; eauto. lia.
Qed.

Lemma zip2_lookup (f : A -> B -> C) S E m1 m2 s e :
    shaped S E m1 -> shaped S E m2 -> (s < S)%nat -> (e < E)%nat ->
    (zip2 f m1 m2 !!! s) !!! e = f ((m1 !!! s) !!! e) ((m2 !!! s) !!! e).
Proof.
    intros Hm1 Hm2 Hs He.
    pose proof (shaped_lookup _ _ _ _ Hm1 Hs) as L1.
    pose proof (shaped_lookup _ _ _ _ Hm2 Hs) as L2.
    destruct Hm1 as [Hl1 _], Hm2 as [Hl2 _].
    destruct (lookup_lt_is_Some_2 m1 s ltac:(lia)) as [r1 Hr1].
    destruct (lookup_lt_is_Some_2 m2 s ltac:(lia)) as [r2 Hr2].
    rewrite (list_lookup_total_correct _ _ _ Hr1) in *.
    rewrite (list_lookup_total_correct _ _ _ Hr2) in *.
    assert (Hz : zip2 f m1 m2 !! s = Some (zip_with f r1 r2)).
    { unfold zip2. rewrite lookup_zip_with, Hr1. cbn. rewrite Hr2. reflexivity. }
    rewrite (list_lookup_total_correct _ _ _ Hz).
    destruct (lookup_lt_is_Some_2 r1 e ltac:(lia)) as [a Ha].
    destruct (lookup_lt_is_Some_2 r2 e ltac:(lia)) as [b Hb].
    rewrite (list_lookup_total_correct _ _ _ Ha), (list_lookup_total_correct _ _ _ Hb).
    apply list_lookup_total_correct. rewrite lookup_zip_with, Ha. cbn. rewrite Hb. reflexivity.
Qed.

Lemma map2_shaped (f : A -> B) S E m : shaped S E m -> shaped S E (map2 f m).
Proof.
    intros [Hl HF]. split.
    - unfold map2. rewrite length_fmap. exact Hl.
    - unfold map2. apply Forall_fmap. eapply Forall_impl; [exact HF|].
      intros r Hr. cbn. rewrite length_fmap. exact Hr.
Qed.

Lemma map2_lookup (f : A -> B) S E m s e :
    shaped S E m -> (s < S)%nat -> (e < E)%nat ->
    (map2 f m !!! s) !!! e = f ((m !!! s) !!! e).
Proof.
    intros Hm1 Hs He.
    pose proof (shaped_lookup _ _ _ _ Hm1 Hs) as L1.
    destruct Hm1 as [Hl1 _].
    destruct (lookup_lt_is_Some_2 m s ltac:(lia)) as [r1 Hr1].
    rewrite (list_lookup_total_correct _ _ _ Hr1) in *.
    assert (Hz : map2 f m !! s = Some (f <$> r1)).
    { unfold map2. rewrite list_lookup_fmap, Hr1. reflexivity. }
    rewrite (list_lookup_total_correct _ _ _ Hz).
    destruct (lookup_lt_is_Some_2 r1 e ltac:(lia)) as [a Ha].
    rewrite (list_lookup_total_correct _ _ _ Ha).
    apply list_lookup_total_correct. rewrite list_lookup_fmap, Ha. reflexivity.
Qed.

Lemma fiber_zip_with (f : A -> B -> C) S E x y s e :
    Forall (shaped S E) x -> Forall (shaped S E) y -> (s < S)%nat -> (e < E)%nat ->
    fiber (zip_with (zip2 f) x y) s e = zip_with f (fiber x s e) (fiber y s e).
Proof.
    intros Hx. revert y. induction Hx as [|m x Hm Hx IH]; intros y Hy Hs He; [reflexivity|].
    destruct Hy as [|m' y Hm' Hy]; [reflexivity|].
    cbn. f_equal.
    - eapply zip2_lookup; eauto.
    - apply IH; auto.
Qed.

Lemma fiber_map2 (f : A -> B) S E x s e :
    Forall (shaped S E) x -> (s < S)%nat -> (e < E)%nat ->
    fiber (map2 f <$> x) s e = f <$> fiber x s e.
Proof.
    intros Hx Hs He. induction Hx as [|m x Hm Hx IH]; [reflexivity|].
    cbn. f_equal; [eapply map2_lookup; eauto | apply IH].
Qed.

Lemma Forall_shaped_zip_with (f : A -> B -> C) S E x y :
    Forall (shaped S E) x -> Forall (shaped S E) y ->
    Forall (shaped S E) (zip_with (zip2 f) x y).
Proof.
    intros Hx. revert y. induction Hx as [|m x Hm Hx IH]; intros y Hy; [constructor|].
    destruct Hy as [|m' y Hm' Hy]; [constructor|].
    cbn. constructor; [apply zip2_shaped; auto | apply IH; auto].
Qed.

Lemma Forall_shaped_map2 (f : A -> B) S E x :
    Forall (shaped S E) x -> Forall (shaped S E) (map2 f <$> x).
Proof.
    intros Hx. apply Forall_fmap. eapply Forall_impl; [exact Hx|].
    intros m Hm. apply map2_shaped, Hm.
Qed.

Lemma fiber_cons (m : list (list A)) (x : list (list (list A))) s e :
    fiber (m :: x) s e = (m !!! s) !!! e :: fiber x s e.
Proof. reflexivity. Qed.

Lemma fiber_app (x y : list (list (list A))) s e :
    fiber (x ++ y) s e = fiber x s e ++ fiber y s e.
Proof. unfold fiber. apply fmap_app. Qed.

Lemma length_fiber (x : list (list (list A))) s e : length (fiber x s e) = length x.
Proof. unfold fiber. apply length_fmap. Qed.

Lemma fiber_take (x : list (list (list A))) k s e :
    fiber (take k x) s e = take k (fiber x s e).
Proof. unfold fiber. apply fmap_take. Qed.
End tensors.

Lemma cumsum_from_shaped S E acc x :
  shaped S E acc -> Forall (shaped S E) x -> Forall (shaped S E) (cumsum_from acc x).
Proof.
  intros Ha Hx. revert acc Ha. induction Hx as [|m x Hm Hx IH]; intros acc Ha; [constructor|].
  cbn. constructor; [apply zip2_shaped; auto|]. apply IH. apply zip2_shaped; auto.
Qed.

Lemma cumsum_shaped S E x : Forall (shaped S E) x -> Forall (shaped S E) (cumsum x).
Proof.
  intros Hx. destruct Hx as [|m x Hm Hx]; [constructor|].
  cbn. constructor; [auto|]. apply cumsum_from_shaped; auto.
Qed.

Lemma fiber_cumsum_from S E acc x s e :
  shaped S E acc -> Forall (shaped S E) x -> (s < S)%nat -> (e < E)%nat ->
  fiber (cumsum_from acc x) s e = running_from ((acc !!! s) !!! e) (fiber x s e).
Proof.
  intros Ha Hx Hs He. revert acc Ha. induction Hx as [|m x Hm Hx IH]; intros acc Ha; [reflexivity|].
  cbn [cumsum_from running_from]. rewrite !fiber_cons. cbn [running_from].
  rewrite IH by (apply zip2_shaped; auto).
  rewrite (zip2_lookup Z.add S E) by auto. reflexivity.
Qed.

Lemma fiber_cumsum S E x s e :
  Forall (shaped S E) x -> (s < S)%nat -> (e < E)%nat ->
  fiber (cumsum x) s e = running (fiber x s e).
Proof.
  intros Hx Hs He. destruct Hx as [|m x Hm Hx]; [reflexivity|].
  cbn [cumsum]. rewrite !fiber_cons. cbn [running]. f_equal. eapply fiber_cumsum_from; eauto.
Qed.

Lemma length_cumsum_from acc x : length (cumsum_from acc x) = length x.
Proof. revert acc. induction x; intros; cbn; auto. Qed.

Lemma length_cumsum x : length (cumsum x) = length x.
Proof. destruct x; cbn; auto using length_cumsum_from. Qed.

(** *** The reduction [amax] *)

Lemma foldl_max_le (target a : Z) (l : list Z) :
  target <= foldl Z.max a l <-> target <= a \/ exists v, v ∈ l /\ target <= v.
Proof.
  revert a. induction l as [|x l IH]; intros a; cbn.
  - split; [auto|]. intros [?|(v & Hv & _)]; [auto|]. inversion Hv.
  - rewrite IH. split.
    + intros [Hm|(v & Hv & Hle)].
      * destruct (Z.max_spec a x) as [[_ E]|[_ E]]; rewrite E in Hm; [right|left]; auto.
        exists x. split; [left|auto].
      * right. exists v. split; [right; auto|auto].
    + intros [Ha|(v & Hv & Hle)]; [left; lia|].
      apply elem_of_cons in Hv as [->|Hv]; [left; lia|right; eauto].
Qed.

Lemma max_of_le (target : Z) (l : list Z) :
  l <> [] -> target <= max_of l <-> exists v, v ∈ l /\ target <= v.
Proof.
  destruct l as [|x l]; [congruence|]. intros _. cbn. rewrite foldl_max_le. split.
  - intros [H|(v & Hv & Hle)]; [exists x; split; [left|auto] | exists v; split; [right; auto|auto]].
  - intros (v & Hv & Hle). apply elem_of_cons in Hv as [->|Hv]; [left; auto|right; eauto].
Qed.

Lemma foldl_zip_max_length (S : nat) (v : list Z) (vs : list (list Z)) :
  length v = S -> Forall (fun w => length w = S) vs ->
  length (foldl (zip_with Z.max) v vs) = S.
Proof.
  intros Hv Hvs. revert v Hv. induction Hvs as [|w vs Hw Hvs IH]; intros v Hv; cbn; [auto|].
  apply IH. rewrite length_zip_with. lia.
Qed.

Lemma foldl_zip_max_le (S : nat) (target : Z) (v : list Z) (vs : list (list Z)) (s : nat) :
  length v = S -> Forall (fun w => length w = S) vs -> (s < S)%nat ->
  target <= foldl (zip_with Z.max) v vs !!! s
  <-> target <= v !!! s \/ exists w, w ∈ vs /\ target <= w !!! s.
Proof.
  intros Hv Hvs Hs. revert v Hv. induction Hvs as [|w vs Hw Hvs IH]; intros v Hv; cbn.
  - split; [auto|]. intros [?|(w & Hw & _)]; [auto|]. inversion Hw.
  - rewrite IH by (rewrite length_zip_with; lia).
    assert (Hz : zip_with Z.max v w !!! s = Z.max (v !!! s) (w !!! s)).
    { destruct (lookup_lt_is_Some_2 v s ltac:(lia)) as [a Ha].
      destruct (lookup_lt_is_Some_2 w s ltac:(lia)) as [b Hb].
      rewrite (list_lookup_total_correct _ _ _ Ha), (list_lookup_total_correct _ _ _ Hb).
      apply list_lookup_total_correct. rewrite lookup_zip_with, Ha. cbn. rewrite Hb. reflexivity. }
    rewrite Hz. split.
    + intros [Hm|(u & Hu & Hle)].
      * destruct (Z.max_spec (v !!! s) (w !!! s)) as [[_ E]|[_ E]]; rewrite E in Hm;
          [right|left]; auto. exists w. split; [left|auto].
      * right. exists u. split; [right; auto|auto].
    + intros [Ha|(u & Hu & Hle)]; [left; lia|].
      apply elem_of_cons in Hu as [->|Hu]; [left; lia|right; eauto].
Qed.

Lemma amax_length (S E : nat) (x : list (list (list Z))) :
  Forall (shaped S E) x -> x <> [] -> length (amax_1_m1 x) = S.
Proof.
  intros Hx Hne. unfold amax_1_m1. destruct Hx as [|m x Hm Hx]; [congruence|]. cbn [fmap list_fmap].
  apply foldl_zip_max_length.
  - rewrite length_fmap. apply Hm.
  - apply Forall_fmap. eapply Forall_impl; [exact Hx|]. intros m' Hm'. cbn.
    rewrite length_fmap. apply Hm'.
Qed.

Lemma max_row_le (S E : nat) (target : Z) (m : list (list Z)) (s : nat) :
  shaped S E m -> (s < S)%nat -> (0 < E)%nat ->
  target <= (max_of <$> m) !!! s <-> exists e, (e < E)%nat /\ target <= (m !!! s) !!! e.
Proof.
  intros Hm Hs HE.
  pose proof (shaped_lookup _ _ _ _ Hm Hs) as Hl. destruct Hm as [Hlen _].
  destruct (lookup_lt_is_Some_2 m s ltac:(lia)) as [r Hr].
  rewrite (list_lookup_total_correct _ _ _ Hr) in *.
  assert (Hz : (max_of <$> m) !! s = Some (max_of r)) by (rewrite list_lookup_fmap, Hr; reflexivity).
  rewrite (list_lookup_total_correct _ _ _ Hz).
  rewrite max_of_le by (destruct r; cbn in *; [lia|congruence]).
  split.
  - intros (v & Hv & Hle). apply list_elem_of_lookup in Hv as [e He].
    exists e. split; [apply lookup_lt_Some in He; lia|].
    rewrite (list_lookup_total_correct _ _ _ He). exact Hle.
  - intros (e & He & Hle). exists (r !!! e). split; [|exact Hle].
    apply list_elem_of_lookup. exists e. apply list_lookup_lookup_total_lt. lia.
Qed.

Lemma amax_le (S E : nat) (target : Z) (x : list (list (list Z))) (s : nat) :
  Forall (shaped S E) x -> x <> [] -> (s < S)%nat -> (0 < E)%nat ->
  target <= amax_1_m1 x !!! s
  <-> exists e v, (e < E)%nat /\ v ∈ fiber x s e /\ target <= v.
Proof.
  intros Hx Hne Hs HE. unfold amax_1_m1. destruct Hx as [|m x Hm Hx]; [congruence|].
  cbn [fmap list_fmap].
  rewrite (foldl_zip_max_le S).
  2:{ rewrite length_fmap. apply Hm. }
  2:{ apply Forall_fmap. eapply Forall_impl; [exact Hx|]. intros m' Hm'. cbn.
      rewrite length_fmap. apply Hm'. }
  2:{ exact Hs. }
  rewrite (max_row_le S E) by auto. split.
  - intros [(e & He & Hle)|(w & Hw & Hle)].
    + exists e, ((m !!! s) !!! e). split; [auto|]. split; [|auto]. rewrite fiber_cons. left.
    + apply list_elem_of_fmap in Hw as (m' & -> & Hm').
      assert (Hs' : shaped S E m') by (rewrite Forall_forall in Hx; apply Hx, Hm').
      apply (max_row_le S E) in Hle as (e & He & Hle); auto.
      exists e, ((m' !!! s) !!! e). split; [auto|]. split; [|auto]. rewrite fiber_cons. right.
      unfold fiber. apply list_elem_of_fmap. exists m'. auto.
  - intros (e & v & He & Hv & Hle). rewrite fiber_cons in Hv.
    apply elem_of_cons in Hv as [->|Hv].
    + left. exists e. auto.
    + right. unfold fiber in Hv. apply list_elem_of_fmap in Hv as (m' & -> & Hm').
      exists (max_of <$> m'). split; [apply list_elem_of_fmap; exists m'; split; [reflexivity|exact Hm']|].
      assert (Hs' : shaped S E m') by (rewrite Forall_forall in Hx; apply Hx, Hm').
      apply (max_row_le S E); eauto.
Qed.

(** *** One branch of the scan, on numbers *)

Lemma exists_cons_le (target v : Z) (l : list Z) :
  (exists w, w ∈ v :: l /\ target <= w) <-> target <= v \/ exists w, w ∈ l /\ target <= w.
Proof.
  split.
  - intros (w & Hw & Hle). apply elem_of_cons in Hw as [->|Hw]; eauto.
  - intros [H|(w & Hw & Hle)]; [exists v; split; [left|auto] | exists w; split; [right; auto|auto]].
Qed.

Lemma branch_tail (target : Z) (rest : list (list Z * Z)) (c k : Z) :
  0 < target -> 0 <= k ->
  (exists v,
      v ∈ zip_with (fun c b => c * Z_of_bool b)
            (running_from c (snd <$> rest))
            ((fun k => bool_decide (k = 0)) <$>
               running_from k
                 ((fun b => Z_of_bool (negb b)) <$>
                    zip_with (fun c (V : list Z) => existsb (Z.eqb c) V)
                      (take (length rest) (c :: running_from c (snd <$> rest)))
                      (fst <$> rest))) /\
      target <= v)
  <-> k = 0 /\
      match rest with
      | [] => False
      | (valid, l) :: rest' => existsb (Z.eqb c) valid && reaches target (c + l) rest' = true
      end.
Proof.
  intros Ht. revert c k. induction rest as [|[valid l] rest IH]; intros c k Hk.
  - cbn. split; [|tauto]. intros (v & Hv & _). inversion Hv.
  - cbn [fmap list_fmap snd fst running_from length take zip_with].
    rewrite exists_cons_le. rewrite IH by (destruct (existsb _ _); cbn; lia).
    destruct (existsb (Z.eqb c) valid) eqn:Eb; cbn [negb Z_of_bool andb].
    + rewrite Z.add_0_r. destruct (decide (k = 0)) as [->|Hne].
      * rewrite bool_decide_eq_true_2 by reflexivity. cbn [Z_of_bool]. rewrite Z.mul_1_r.
        destruct rest as [|[valid' l'] rest']; cbn [reaches].
        -- rewrite orb_false_r. rewrite bool_decide_eq_true. tauto.
        -- rewrite orb_true_iff, bool_decide_eq_true. tauto.
      * rewrite bool_decide_eq_false_2 by exact Hne. cbn [Z_of_bool]. rewrite Z.mul_0_r. split.
        -- intros [H|[H _]]; [lia|contradiction].
        -- intros [H _]. contradiction.
    + rewrite bool_decide_eq_false_2 by lia. cbn [Z_of_bool]. rewrite Z.mul_0_r. split.
      * intros [H|[H _]]; lia.
      * intros [_ H]. discriminate.
Qed.

Lemma length_running_from (c : Z) (l : list Z) : length (running_from c l) = length l.
Proof. revert c. induction l; intros; cbn; auto. Qed.

Lemma branch_hits (target x : Z) (rest : list (list Z * Z)) :
  let cs := running (x :: (snd <$> rest)) in
  let mt := bool_decide (0 < x) ::
            zip_with (fun c (V : list Z) => existsb (Z.eqb c) V)
                     (take (length cs - 1) cs) (fst <$> rest) in
  let cnt := running ((fun b => Z_of_bool (negb b)) <$> mt) in
  (exists v, v ∈ zip_with (fun c b => c * Z_of_bool b) cs ((fun k => bool_decide (k = 0)) <$> cnt)
             /\ target <= v)
  <-> target <= 0 \/ (0 < x /\ reaches target x rest = true).
Proof.
  cbn zeta. cbn [running].
  replace (length (x :: running_from x (snd <$> rest)) - 1)%nat with (length rest)
    by (cbn [length]; rewrite length_running_from, length_fmap; lia).
  cbn [fmap list_fmap running zip_with]. rewrite exists_cons_le.
  destruct (decide (target <= 0)) as [Hle|Hgt].
  - split; [auto|]. intros _. left.
    destruct (bool_decide (0 < x)) eqn:Eb; cbn [negb Z_of_bool].
    + apply bool_decide_eq_true in Eb. rewrite bool_decide_eq_true_2 by reflexivity.
      cbn [Z_of_bool]. lia.
    + rewrite bool_decide_eq_false_2 by lia. cbn [Z_of_bool]. lia.
  - rewrite branch_tail by (try lia; destruct (bool_decide (0 < x)); cbn; lia).
    destruct (bool_decide (0 < x)) eqn:Eb; cbn [negb Z_of_bool].
    + apply bool_decide_eq_true in Eb. rewrite bool_decide_eq_true_2 by reflexivity.
      cbn [Z_of_bool]. rewrite Z.mul_1_r.
      destruct rest as [|[valid l] rest']; cbn [reaches].
      * rewrite orb_false_r, bool_decide_eq_true. tauto.
      * rewrite orb_true_iff, bool_decide_eq_true. tauto.
    + apply bool_decide_eq_false in Eb. rewrite bool_decide_eq_false_2 by lia.
      cbn [Z_of_bool]. rewrite Z.mul_0_r. split; [intros [H|[H _]]; lia | intros [H|[H _]]; lia].
Qed.

(** *** Taking a table row apart *)

Lemma length_concat_shaped {A} (S w : nat) (m : list (list A)) :
  shaped S w m -> length (concat m) = (S * w)%nat.
Proof.
  intros [Hl HF]. subst S. induction HF as [|r m Hr HF IH]; cbn; [reflexivity|].
  rewrite length_app, IH, Hr. lia.
Qed.

Lemma chunks_concat (w : nat) (m : list (list Z)) (tail : list Z) :
  Forall (fun r => length r = w) m -> chunks (length m) w (concat m ++ tail) = m.
Proof.
  intros HF. induction HF as [|r m Hr HF IH]; cbn; [reflexivity|].
  rewrite <- app_assoc. rewrite take_app_length' by (symmetry; exact Hr).
  rewrite drop_app_length' by (symmetry; exact Hr). rewrite IH. reflexivity.
Qed.

Lemma unflatten_concat (S w : nat) (m : list (list Z)) :
  shaped S w m -> (0 < S)%nat -> unflatten S (concat m) = m.
Proof.
  intros Hm HS. unfold unflatten. rewrite (length_concat_shaped S w) by exact Hm.
  rewrite Nat.mul_comm, Nat.div_mul by lia.
  destruct Hm as [Hl HF]. subst S.
  rewrite <- (app_nil_r (concat m)). apply chunks_concat, HF.
Qed.

Section decode.
Context (S P E : nat) (v : list Z) (rec : list (list Z) * list (list Z) * Z).
Context (HS : (0 < S)%nat) (Hd : decodes S P E v rec).

Lemma decodes_length : length v = (S * (P + E) + 1)%nat.
Proof.
    destruct Hd as (-> & HP & HQ). rewrite !length_app.
    rewrite (length_concat_shaped S P), (length_concat_shaped S E) by assumption.
    cbn. lia.
Qed.

Lemma decodes_positions : unflatten S (take (P * S) v) = rec.1.1.
Proof.
    destruct Hd as (-> & HP & HQ).
    rewrite take_app_length' by (rewrite (length_concat_shaped S P); [lia|assumption]).
    eapply unflatten_concat; eauto.
Qed.

Lemma decodes_end_lengths :
    unflatten S (drop (P * S) (take (length v - 1) v)) = rec.1.2.
Proof.
    rewrite decodes_length. destruct Hd as (-> & HP & HQ).
    rewrite app_assoc.
    rewrite take_app_length'.
    2:{ rewrite length_app, (length_concat_shaped S P), (length_concat_shaped S E) by assumption.
        lia. }
    rewrite drop_app_length' by (rewrite (length_concat_shaped S P); [lia|assumption]).
    eapply unflatten_concat; eauto.
Qed.

Lemma decodes_length_slice : drop (length v - 1) v = [rec.2].
Proof.
    rewrite decodes_length. destruct Hd as (-> & HP & HQ).
    rewrite app_assoc.
    rewrite drop_app_length'; [reflexivity|].
    rewrite length_app, (length_concat_shaped S P), (length_concat_shaped S E) by assumption.
    lia.
Qed.
End decode.

Lemma shaped_replicate (S E : nat) (l : Z) : shaped S E (replicate S (replicate E l)).
Proof.
  split; [apply length_replicate|]. apply Forall_replicate, length_replicate.
Qed.

Lemma expand_length (S E : nat) (l : Z) :
  expand1 S (expand1 E <$> [[l]]) = replicate S (replicate E l).
Proof. reflexivity. Qed.

(** *** The comparison with the valid positions *)

Lemma later_match_shaped (S E : nat) (cs : list (list (list Z))) (vps : list (list (list Z))) :
  Forall (shaped S E) cs -> Forall (fun V => length V = S) vps ->
  Forall (shaped S E)
    (zip_with (zip_with (fun (c v : list Z) => (fun x => existsb (Z.eqb x) v) <$> c)) cs vps).
Proof.
  intros Hc. revert vps. induction Hc as [|c cs Hc Hcs IH]; intros vps Hv; [constructor|].
  destruct Hv as [|V vps HV Hvps]; [constructor|]. cbn. constructor; [|apply IH; auto].
  destruct Hc as [Hl HF]. split.
  - rewrite length_zip_with. lia.
  - apply Forall_lookup. intros i r Hr.
    apply lookup_zip_with_Some in Hr as (r1 & r2 & -> & Hr1 & Hr2).
    rewrite length_fmap. eapply Forall_lookup_1 in HF; eauto.
Qed.

Lemma later_match_fiber (S E : nat) (cs : list (list (list Z))) (vps : list (list (list Z)))
    (s e : nat) :
  Forall (shaped S E) cs -> Forall (fun V => length V = S) vps ->
  (s < S)%nat -> (e < E)%nat ->
  fiber (zip_with (zip_with (fun (c v : list Z) => (fun x => existsb (Z.eqb x) v) <$> c)) cs vps)
        s e
  = zip_with (fun c (V : list Z) => existsb (Z.eqb c) V) (fiber cs s e)
             ((fun V : list (list Z) => V !!! s) <$> vps).
Proof.
  intros Hc. revert vps. induction Hc as [|c cs Hc Hcs IH]; intros vps Hv Hs He; [reflexivity|].
  destruct Hv as [|V vps HV Hvps]; [reflexivity|].
  cbn [zip_with fmap list_fmap]. rewrite !fiber_cons. cbn [zip_with]. f_equal; [|apply IH; auto].
  pose proof (shaped_lookup _ _ _ _ Hc Hs) as Hl. destruct Hc as [Hlen _].
  destruct (lookup_lt_is_Some_2 c s ltac:(lia)) as [r Hr].
  destruct (lookup_lt_is_Some_2 V s ltac:(lia)) as [w Hw].
  rewrite (list_lookup_total_correct _ _ _ Hr) in *.
  rewrite (list_lookup_total_correct _ _ _ Hw).
  erewrite (list_lookup_total_correct _ s); [|rewrite lookup_zip_with, Hr; cbn; rewrite Hw; reflexivity].
  destruct (lookup_lt_is_Some_2 r e ltac:(lia)) as [a Ha].
  rewrite (list_lookup_total_correct _ _ _ Ha).
  apply list_lookup_total_correct. rewrite list_lookup_fmap, Ha. reflexivity.
Qed.

Lemma existsb_zip_with_le (ms targets : list Z) :
  existsb id (zip_with (fun m target => bool_decide (target <= m)) ms targets) = true
  <-> exists s target, targets !! s = Some target /\ (s < length ms)%nat /\ target <= ms !!! s.
Proof.
  rewrite existsb_exists. split.
  - intros (b & Hb & Hid). unfold id in Hid. subst b.
    apply list_elem_of_In, list_elem_of_lookup in Hb as [s Hs].
    apply lookup_zip_with_Some in Hs as (m & target & Hd & Hm & Ht).
    symmetry in Hd. apply bool_decide_eq_true in Hd.
    exists s, target. split; [auto|]. split; [apply lookup_lt_Some in Hm; auto|].
    rewrite (list_lookup_total_correct _ _ _ Hm). exact Hd.
  - intros (s & target & Ht & Hs & Hle).
    exists true. split; [|reflexivity].
    apply list_elem_of_In, list_elem_of_lookup. exists s.
    apply lookup_zip_with_Some. exists (ms !!! s), target.
    split; [symmetry; apply bool_decide_eq_true; exact Hle|].
    split; [apply list_lookup_lookup_total_lt; exact Hs|exact Ht].
Qed.

Lemma Forall2_fmap_eq {A B C} (f : A -> C) (g : B -> C) (l : list A) (k : list B) :
  Forall2 (fun a b => f a = g b) l k -> f <$> l = g <$> k.
Proof. induction 1; cbn; congruence. Qed.

Lemma decodes_positions_blocks (S P E : nat) (vs : list (list Z))
    (recs : list (list (list Z) * list (list Z) * Z)) :
  Forall2 (decodes S P E) vs recs ->
  Forall (fun V : list (list Z) => length V = S)
         ((fun r : list (list Z) * list (list Z) * Z => r.1.1) <$> recs).
Proof.
  induction 1 as [|v r vs recs Hd _ IH]; cbn; constructor; [apply Hd|apply IH].
Qed.

(** *** The scan of one row, in terms of the table rows it gathers *)

Lemma row_matches_spec (self : StopStringCriteria.t) (E : nat)
    (v0 : list Z) (vs : list (list Z))
    (rec0 : list (list Z) * list (list Z) * Z)
    (recs : list (list (list Z) * list (list Z) * Z)) :
  let S := StopStringCriteria.num_stop_strings self in
  let P := StopStringCriteria.max_valid_positions self in
  (0 < S)%nat -> (0 < E)%nat ->
  cols (StopStringCriteria.embedding_vec self) = (S * (P + E) + 1)%nat ->
  decodes S P E v0 rec0 ->
  Forall2 (decodes S P E) vs recs ->
  StopStringCriteria.row_matches self (v0 :: vs) = true
  <-> exists s e target,
        elems (StopStringCriteria.target_lens self) !! s = Some target /\
        (s < S)%nat /\ (e < E)%nat /\
        (target <= 0 \/
         (0 < (rec0.1.2 !!! s) !!! e /\
          reaches target ((rec0.1.2 !!! s) !!! e) (older_entry s <$> recs) = true)).
Proof.
  intros S P HS HE Hcols Hd0 Hds.
  unfold StopStringCriteria.row_matches. fold S. fold P. cbv zeta.
  cbn [drop take]. rewrite take_0, drop_0, !fmap_cons, !fmap_nil.
  assert (Hw : ((cols (StopStringCriteria.embedding_vec self) - 1 - P * S) / S)%nat = E).
  { rewrite Hcols. replace (S * (P + E) + 1 - 1 - P * S)%nat with (E * S)%nat by lia.
    apply Nat.div_mul. lia. }
  rewrite Hw. clear Hw.
  rewrite (decodes_end_lengths S P E v0 rec0 HS Hd0).
  assert (Hvp : (fun v => unflatten S (take (P * S) v)) <$> vs
                = (fun r : list (list Z) * list (list Z) * Z => r.1.1) <$> recs).
  { apply Forall2_fmap_eq. eapply Forall2_impl; [exact Hds|]. intros v r Hd.
    apply (decodes_positions S P E v r HS Hd). }
  rewrite Hvp. clear Hvp.
  assert (Hln : (fun m : list (list Z) => expand1 S (expand1 E <$> m))
                  <$> ((fun v : list Z => [drop (length v - 1) v]) <$> vs)
                = (fun r : list (list Z) * list (list Z) * Z => replicate S (replicate E r.2))
                    <$> recs).
  { rewrite <- list_fmap_compose. apply Forall2_fmap_eq. eapply Forall2_impl; [exact Hds|].
    intros v r Hd. cbn. rewrite (decodes_length_slice S P E v r HS Hd). reflexivity. }
  rewrite Hln. clear Hln.
  set (Q0 := rec0.1.2).
  set (LN := (fun r : list (list Z) * list (list Z) * Z => replicate S (replicate E r.2)) <$> recs).
  set (VP := (fun r : list (list Z) * list (list Z) * Z => r.1.1) <$> recs).
  assert (HQ0 : shaped S E Q0) by apply Hd0.
  assert (HLN : Forall (shaped S E) LN).
  { apply Forall_fmap, Forall_true. intros r. apply shaped_replicate. }
  assert (HVP : Forall (fun V => length V = S) VP).
  { eapply decodes_positions_blocks; eauto. }
  assert (HX : Forall (shaped S E) ([Q0] ++ LN)) by (apply Forall_app; split; auto).
  set (CS := cumsum ([Q0] ++ LN)) in *.
  assert (HCS : Forall (shaped S E) CS) by (apply cumsum_shaped; exact HX).
  assert (HlenCS : length CS = Datatypes.S (length recs)).
  { unfold CS. rewrite length_cumsum. cbn. unfold LN. rewrite length_fmap. reflexivity. }
  set (LM := zip_with _ (take (length CS - 1) CS) VP).
  assert (HLM : Forall (shaped S E) LM).
  { apply later_match_shaped; [apply Forall_take; exact HCS|exact HVP]. }
  set (IM := [map2 (fun x : Z => bool_decide (0 < x)) Q0]).
  assert (HIM : Forall (shaped S E) IM).
  { constructor; [apply map2_shaped; exact HQ0|constructor]. }
  set (MT := IM ++ LM).
  assert (HMT : Forall (shaped S E) MT) by (apply Forall_app; split; auto).
  set (CNT := cumsum (map2 (fun b : bool => Z_of_bool (negb b)) <$> MT)).
  assert (HCNT : Forall (shaped S E) CNT) by (apply cumsum_shaped, Forall_shaped_map2; exact HMT).
  set (MK := map2 (fun x : Z => bool_decide (x = 0)) <$> CNT).
  assert (HMK : Forall (shaped S E) MK) by (apply Forall_shaped_map2; exact HCNT).
  set (PR := zip_with (zip2 (fun (c : Z) (b : bool) => c * Z_of_bool b)) CS MK).
  assert (HPR : Forall (shaped S E) PR) by (apply Forall_shaped_zip_with; auto).
  assert (HPRne : PR <> []).
  { unfold PR. intros Heq. apply (f_equal length) in Heq. rewrite length_zip_with in Heq.
    unfold MK, CNT in Heq. rewrite length_fmap, length_cumsum, length_fmap in Heq.
    unfold MT, IM in Heq. rewrite length_app in Heq. cbn in Heq. lia. }
  rewrite existsb_zip_with_le. rewrite (amax_length S E) by auto.
  assert (Hfib : forall s e, (s < S)%nat -> (e < E)%nat ->
            fiber PR s e =
            (let x := (Q0 !!! s) !!! e in
             let rest := older_entry s <$> recs in
             let cs := running (x :: (snd <$> rest)) in
             let mt := bool_decide (0 < x) ::
                       zip_with (fun c (V : list Z) => existsb (Z.eqb c) V)
                                (take (length cs - 1) cs) (fst <$> rest) in
             let cnt := running ((fun b => Z_of_bool (negb b)) <$> mt) in
             zip_with (fun c b => c * Z_of_bool b) cs
                      ((fun k => bool_decide (k = 0)) <$> cnt))).
  { intros s e Hs He. cbv zeta.
    assert (Hcs : fiber CS s e = running ((Q0 !!! s) !!! e :: (snd <$> (older_entry s <$> recs)))).
    { unfold CS. rewrite (fiber_cumsum S E) by auto. rewrite fiber_app. cbn [app].
      f_equal. unfold fiber at 1. cbn [fmap list_fmap app]. f_equal.
      unfold LN, fiber. rewrite <- !list_fmap_compose. apply list_fmap_ext.
      intros i r _. cbn. rewrite !lookup_total_replicate_2 by lia. reflexivity. }
    unfold PR. rewrite (fiber_zip_with _ S E) by auto. rewrite Hcs. f_equal.
    unfold MK. rewrite (fiber_map2 _ S E) by auto. f_equal.
    unfold CNT. rewrite (fiber_cumsum S E) by (auto; apply Forall_shaped_map2; exact HMT).
    f_equal. rewrite (fiber_map2 _ S E) by auto. f_equal.
    unfold MT. rewrite fiber_app. unfold IM. unfold fiber at 1. cbn [fmap list_fmap app].
    rewrite (map2_lookup _ S E) by auto. f_equal.
    unfold LM. rewrite (later_match_fiber S E) by (auto; apply Forall_take; exact HCS).
    rewrite fiber_take, Hcs. f_equal.
    - f_equal. rewrite HlenCS. cbn [running length]. rewrite length_running_from, !length_fmap. lia.
    - unfold VP. rewrite <- !list_fmap_compose. reflexivity. }
  split.
  - intros (s & target & Ht & Hs & Hle).
    apply (amax_le S E) in Hle as (e & v & He & Hv & Hle); auto.
    rewrite Hfib in Hv by auto. cbv zeta in Hv.
    exists s, e, target. split; [auto|]. split; [auto|]. split; [auto|].
    apply branch_hits. exists v. split; [exact Hv|exact Hle].
  - intros (s & e & target & Ht & Hs & He & Hb).
    exists s, target. split; [auto|]. split; [auto|].
    apply (amax_le S E); auto.
    apply branch_hits in Hb as (v & Hv & Hle).
    exists e, v. split; [auto|]. split; [|auto]. rewrite Hfib by auto. exact Hv.
Qed.

(** ** The dictionaries of the precomputation *)

Lemma cleanup_token_normalized (token t : pystr) :
  _cleanup_token token = Ok t -> normalized token = t.
Proof. unfold normalized. intros ->. reflexivity. Qed.

Lemma reversed_filtered_tokens (token_list rl : list pystr) :
  mapM (fun token => reverse <$> _cleanup_token token) token_list = Ok rl ->
  rl = reversed_filtered <$> token_list /\ Forall (fun token => token <> []) token_list.
Proof.
  intros H. apply mapM_Ok in H. induction H as [|token r tl rl Hr _ [IH1 IH2]].
  - split; [reflexivity|constructor].
  - destruct (_cleanup_token token) as [t|e] eqn:Et; [|discriminate].
    cbn in Hr. injection Hr as <-. split.
    + rewrite fmap_cons. f_equal; [|exact IH1].
      unfold reversed_filtered. rewrite (cleanup_token_normalized _ _ Et). reflexivity.
    + constructor; [|exact IH2]. apply cleanup_token_length in Et. tauto.
Qed.

Lemma keys_entries_of (f : pystr -> list Z) (vocab : list (pystr * Z)) (id : Z) :
  id ∈ keys (entries_of f vocab) -> id ∈ values vocab.
Proof.
  unfold keys, values, entries_of. induction vocab as [|[tok i] vocab IH]; cbn.
  - intros H. inversion H.
  - destruct (f tok) eqn:Ef; cbn.
    + intros H. right. apply IH, H.
    + intros H. apply elem_of_cons in H as [->|H]; [left|right; apply IH, H].
Qed.

Lemma stop_string_dicts_from (stop_string : pystr) (vocab : list (pystr * Z))
    (d1 d2 : dict Z (list Z)) :
  NoDup (values vocab) ->
  (forall id, id ∈ keys d1 -> id ∉ values vocab) ->
  (forall id, id ∈ keys d2 -> id ∉ values vocab) ->
  foldl (fun '(valid_positions, end_overlaps) '(token, reversed_filtered_token, tok_idx) =>
           let '(matching_positions, possible_end_lengths) :=
             token_matches token reversed_filtered_token stop_string in
           (match matching_positions with
            | [] => valid_positions
            | _ :: _ => dict_set tok_idx matching_positions valid_positions
            end,
            match possible_end_lengths with
            | [] => end_overlaps
            | _ :: _ => dict_set tok_idx possible_end_lengths end_overlaps
            end))
        (d1, d2)
        (zip3 (keys vocab) (reversed_filtered <$> keys vocab) (values vocab))
  = (d1 ++ entries_of (valid_positions_of stop_string) vocab,
     d2 ++ entries_of (end_overlaps_of stop_string) vocab).
Proof.
  revert d1 d2. induction vocab as [|[tok id] vocab IH]; intros d1 d2 Hnd H1 H2.
  - cbn. rewrite !app_nil_r. reflexivity.
  - unfold keys, values in *. cbn [fmap list_fmap zip3 zip zip_with foldl fst snd] in *.
    apply NoDup_cons in Hnd as [Hid Hnd].
    unfold entries_of. cbn [omap list_omap fst snd].
    unfold valid_positions_of at 1 2, end_overlaps_of at 1 2.
    destruct (token_matches tok (reversed_filtered tok) stop_string) as [mp pel] eqn:Etm.
    cbn [fst snd].
    fold (entries_of (valid_positions_of stop_string) vocab).
    fold (entries_of (end_overlaps_of stop_string) vocab).
    assert (Hset : forall (d : dict Z (list Z)) (l : list Z),
               (forall i, i ∈ fst <$> d -> i ∉ id :: (snd <$> vocab)) ->
               dict_set id l d = d ++ [(id, l)] /\
               (forall i, i ∈ fst <$> (d ++ [(id, l)]) -> i ∉ snd <$> vocab)).
    { intros d l Hd. split.
      - apply dict_set_fresh. intros Hin. apply (Hd id Hin). left.
      - intros i Hi. rewrite fmap_app in Hi. apply elem_of_app in Hi as [Hi|Hi].
        + intros Hv. apply (Hd i Hi). right. exact Hv.
        + cbn in Hi. apply list_elem_of_singleton in Hi. subst i. exact Hid. }
    assert (Hkeep : forall (d : dict Z (list Z)),
               (forall i, i ∈ fst <$> d -> i ∉ id :: (snd <$> vocab)) ->
               (forall i, i ∈ fst <$> d -> i ∉ snd <$> vocab)).
    { intros d Hd i Hi Hv. apply (Hd i Hi). right. exact Hv. }
    unfold zip3 in IH.
    destruct mp as [|m mp], pel as [|p pel].
    + rewrite IH; [reflexivity|exact Hnd|apply Hkeep, H1|apply Hkeep, H2].
    + destruct (Hset d2 (p :: pel) H2) as [-> Hk].
      rewrite IH; [|exact Hnd|apply Hkeep, H1|exact Hk].
      rewrite <- app_assoc. reflexivity.
    + destruct (Hset d1 (m :: mp) H1) as [-> Hk].
      rewrite IH; [|exact Hnd|exact Hk|apply Hkeep, H2].
      rewrite <- app_assoc. reflexivity.
    + destruct (Hset d1 (m :: mp) H1) as [-> Hk1]. destruct (Hset d2 (p :: pel) H2) as [-> Hk2].
      rewrite IH; [|exact Hnd|exact Hk1|exact Hk2]. rewrite <- !app_assoc. reflexivity.
Qed.

Lemma stop_string_dicts_spec (stop_string : pystr) (vocab : list (pystr * Z)) :
  NoDup (values vocab) ->
  stop_string_dicts (keys vocab) (reversed_filtered <$> keys vocab) (values vocab) stop_string
  = (entries_of (valid_positions_of stop_string) vocab,
     entries_of (end_overlaps_of stop_string) vocab).
Proof.
  intros Hnd.
  refine (stop_string_dicts_from stop_string vocab [] [] Hnd _ _);
    intros id Hid; inversion Hid.
Qed.

Section per_stop_string.
Context {V : Type} (h : pystr -> V).

Lemma foldl_dict_set_get (a : dict pystr V) (stop_strings : list pystr) (s : pystr) :
    s ∈ stop_strings \/ dict_get s a = Ok (h s) ->
    dict_get s (foldl (fun d stop_string => dict_set stop_string (h stop_string) d)
                      a stop_strings) = Ok (h s).
Proof.
    revert a. induction stop_strings as [|s' ss IH]; intros a Hs.
    - destruct Hs as [Hs|Hs]; [inversion Hs|exact Hs].
    - cbn [foldl]. apply IH. destruct (decide (s' = s)) as [->|Hne].
      + right. apply dict_get_set_eq.
      + destruct Hs as [Hs|Hs].
        * apply elem_of_cons in Hs as [->|Hs]; [congruence|left; exact Hs].
        * right. rewrite dict_get_set_ne by exact Hne. exact Hs.
Qed.

Lemma foldl_dict_set_elem_of (a : dict pystr V) (stop_strings : list pystr) (k : pystr) (v : V) :
    (k, v) ∈ foldl (fun d stop_string => dict_set stop_string (h stop_string) d) a stop_strings ->
    (k, v) ∈ a \/ (k ∈ stop_strings /\ v = h k).
Proof.
    revert a. induction stop_strings as [|s' ss IH]; intros a Hin.
    - left. exact Hin.
    - cbn [foldl] in Hin. apply IH in Hin as [Hin|[Hin ->]].
      + apply dict_set_elem_of in Hin as [[= -> ->]|Hin]; [right; split; [left|reflexivity]|left; exact Hin].
      + right. split; [right; exact Hin|reflexivity].
Qed.

Lemma per_stop_string_get (stop_strings : list pystr) (s : pystr) :
    s ∈ stop_strings -> dict_get s (per_stop_string h stop_strings) = Ok (h s).
Proof. intros Hs. apply foldl_dict_set_get. left. exact Hs. Qed.

Lemma per_stop_string_elem_of (stop_strings : list pystr) (k : pystr) (v : V) :
    (k, v) ∈ per_stop_string h stop_strings -> k ∈ stop_strings /\ v = h k.
Proof.
    intros Hin. apply foldl_dict_set_elem_of in Hin as [Hin|Hin]; [inversion Hin|exact Hin].
Qed.
End per_stop_string.

Lemma get_matching_positions_spec (vocab : list (pystr * Z)) (stop_strings : list pystr)
    (tvp teo : dict pystr (dict Z (list Z))) :
  NoDup (values vocab) ->
  _stop_string_get_matching_positions (keys vocab) (values vocab) stop_strings = Ok (tvp, teo) ->
  Forall (fun token => token <> []) (keys vocab) /\
  tvp = per_stop_string (fun s => entries_of (valid_positions_of s) vocab) stop_strings /\
  teo = per_stop_string (fun s => entries_of (end_overlaps_of s) vocab) stop_strings.
Proof.
  intros Hnd H. unfold _stop_string_get_matching_positions in H.
  apply bind_Ok in H as (rl & Hrl & H). apply reversed_filtered_tokens in Hrl as [-> Hne].
  split; [exact Hne|]. injection H as H. unfold per_stop_string.
  revert H. generalize (@nil (pystr * dict Z (list Z))) at 1 3.
  generalize (@nil (pystr * dict Z (list Z))) at 1 2.
  induction stop_strings as [|s ss IH]; intros a b H.
  - cbn in H. injection H as <- <-. split; reflexivity.
  - cbn [foldl] in H. rewrite stop_string_dicts_spec in H by exact Hnd.
    apply IH in H. exact H.
Qed.

(** ** The widths of the table *)

Lemma py_max_Ok (l : list nat) (m : nat) : py_max l = Ok m -> l <> [] /\ m = max_list l.
Proof. destruct l; cbn; [discriminate|]. intros [= <-]. split; [discriminate|reflexivity]. Qed.

Lemma elem_of_concat {A} (x : A) (ls : list (list A)) :
  x ∈ concat ls <-> exists l, x ∈ l /\ l ∈ ls.
Proof.
  induction ls as [|l ls IH]; cbn.
  - split; [intros H; inversion H|]. intros (l & _ & H). inversion H.
  - rewrite elem_of_app, IH. split.
    + intros [H|(l' & H1 & H2)]; [exists l; split; [exact H|left] | exists l'; split; [exact H1|right; exact H2]].
    + intros (l' & H1 & H2). apply elem_of_cons in H2 as [->|H2]; [left; exact H1|right; eauto].
Qed.

Lemma elem_of_value_lengths (d : dict pystr (dict Z (list Z))) (n : nat) :
  n ∈ value_lengths d
  <-> exists s inner id val, (s, inner) ∈ d /\ (id, val) ∈ inner /\ n = length val.
Proof.
  unfold value_lengths, values. rewrite elem_of_concat. split.
  - intros (l & Hn & Hl). apply list_elem_of_fmap in Hl as (inner & -> & Hinner).
    apply list_elem_of_fmap in Hinner as ([s inner'] & -> & Hin).
    apply list_elem_of_fmap in Hn as (val & -> & Hval).
    apply list_elem_of_fmap in Hval as ([id val'] & -> & Hv).
    exists s, inner', id, val'. auto.
  - intros (s & inner & id & val & Hs & Hv & ->).
    exists (length <$> (snd <$> inner)). split.
    + apply list_elem_of_fmap. exists val. split; [reflexivity|].
      apply list_elem_of_fmap. exists (id, val). auto.
    + apply list_elem_of_fmap. exists inner. split; [reflexivity|].
      apply list_elem_of_fmap. exists (s, inner). auto.
Qed.

Lemma elem_of_entries_of (f : pystr -> list Z) (vocab : list (pystr * Z)) (id : Z) (val : list Z) :
  (id, val) ∈ entries_of f vocab <-> exists token, (token, id) ∈ vocab /\ val = f token /\ val <> [].
Proof.
  unfold entries_of. rewrite list_elem_of_omap. split.
  - intros ([token id'] & Hin & Hf). cbn in Hf. destruct (f token) eqn:Ef; [discriminate|].
    injection Hf as <- <-. exists token. split; [exact Hin|]. split; [congruence|discriminate].
  - intros (token & Hin & -> & Hne). exists (token, id). split; [exact Hin|]. cbn.
    destruct (f token); [congruence|reflexivity].
Qed.

Lemma max_width_bounds (f : pystr -> pystr -> list Z) (vocab : list (pystr * Z))
    (stop_strings : list pystr) (m : nat) :
  py_max (value_lengths (per_stop_string (fun s => entries_of (f s) vocab) stop_strings)) = Ok m ->
  (0 < m)%nat /\ stop_strings <> [] /\
  (forall s token id, s ∈ stop_strings -> (token, id) ∈ vocab -> (length (f s token) <= m)%nat) /\
  (exists s token id, s ∈ stop_strings /\ (token, id) ∈ vocab /\ f s token <> []).
Proof.
  intros H. apply py_max_Ok in H as [Hne ->].
  assert (Hex : exists s token id, s ∈ stop_strings /\ (token, id) ∈ vocab /\ f s token <> []).
  { destruct (value_lengths _) as [|n l] eqn:El; [congruence|].
    assert (Hn : n ∈ n :: l) by left. rewrite <- El in Hn.
    apply elem_of_value_lengths in Hn as (s & inner & id & val & Hs & Hv & _).
    apply per_stop_string_elem_of in Hs as [Hs ->].
    apply elem_of_entries_of in Hv as (token & Hin & -> & Hval).
    exists s, token, id. auto. }
  assert (Hle : forall s token id, s ∈ stop_strings -> (token, id) ∈ vocab ->
                  (length (f s token) <= max_list (value_lengths
                     (per_stop_string (fun s => entries_of (f s) vocab) stop_strings)))%nat).
  { intros s token id Hs Hin. destruct (f s token) as [|z l] eqn:Ef; [cbn; lia|].
    rewrite <- Ef. apply max_list_elem_of_le. apply elem_of_value_lengths.
    exists s, (entries_of (f s) vocab), id, (f s token). split.
    - apply dict_get_elem_of. apply (per_stop_string_get (fun s => entries_of (f s) vocab)), Hs.
    - split; [|reflexivity]. apply elem_of_entries_of. exists token.
      split; [exact Hin|]. split; [reflexivity|congruence]. }
  split; [|split; [|split; [exact Hle|exact Hex]]].
  - destruct Hex as (s & token & id & Hs & Hin & Hf). specialize (Hle s token id Hs Hin).
    destruct (f s token); [congruence|]. cbn in Hle. lia.
  - destruct Hex as (s & _ & _ & Hs & _). intros ->. inversion Hs.
Qed.

(** ** Filling the table *)

Lemma np_index_in_range (n : nat) (i : Z) : 0 <= i < Z.of_nat n -> Np.index n i = Ok (Z.to_nat i).
Proof. intros H. unfold Np.index. rewrite decide_True by exact H. reflexivity. Qed.

Lemma np_index_last (n : nat) : (0 < n)%nat -> Np.index n (-1) = Ok (n - 1)%nat.
Proof.
  intros H. unfold Np.index. rewrite decide_False by lia. rewrite decide_True by lia.
  f_equal. lia.
Qed.

Lemma set_slice_in_range (W : nat) (gv : list (list Z)) (id : Z) (start : nat) (vals : list Z) :
  Forall (fun r => length r = W) gv -> 0 <= id < len gv -> (start + length vals <= W)%nat ->
  Np.set_slice gv id start vals
  = Ok (<[Z.to_nat id := list_inserts start vals (gv !!! Z.to_nat id)]> gv).
Proof.
  intros HW Hid Hle. unfold Np.set_slice. rewrite np_index_in_range by exact Hid.
  cbn [mbind result_bind]. unfold Np.set_row_slice.
  assert (Hl : length (gv !!! Z.to_nat id) = W).
  { apply (Forall_lookup_1 (fun r => length r = W) gv (Z.to_nat id)); [exact HW|].
    apply list_lookup_lookup_total_lt. unfold len in Hid. lia. }
  rewrite Hl. rewrite decide_True by lia. reflexivity.
Qed.

Lemma set_item_last (W : nat) (gv : list (list Z)) (id v : Z) :
  Forall (fun r => length r = W) gv -> 0 <= id < len gv -> (0 < W)%nat ->
  Np.set_item gv id (-1) v
  = Ok (<[Z.to_nat id := <[(W - 1)%nat := v]> (gv !!! Z.to_nat id)]> gv).
Proof.
  intros HW Hid HW0. unfold Np.set_item. rewrite np_index_in_range by exact Hid.
  cbn [mbind result_bind].
  assert (Hl : length (gv !!! Z.to_nat id) = W).
  { apply (Forall_lookup_1 (fun r => length r = W) gv (Z.to_nat id)); [exact HW|].
    apply list_lookup_lookup_total_lt. unfold len in Hid. lia. }
  rewrite Hl, np_index_last by exact HW0. reflexivity.
Qed.

Lemma vocab_unique (vocab : list (pystr * Z)) (t1 t2 : pystr) (id : Z) :
  NoDup (values vocab) -> (t1, id) ∈ vocab -> (t2, id) ∈ vocab -> t1 = t2.
Proof.
  unfold values. induction vocab as [|[t i] vocab IH]; intros Hnd H1 H2; [inversion H1|].
  cbn in Hnd. apply NoDup_cons in Hnd as [Hi Hnd].
  apply elem_of_cons in H1 as [H1|H1]; apply elem_of_cons in H2 as [H2|H2].
  - congruence.
  - injection H1 as -> ->. exfalso. apply Hi. apply list_elem_of_fmap. exists (t2, i). auto.
  - injection H2 as -> ->. exfalso. apply Hi. apply list_elem_of_fmap. exists (t1, i). auto.
  - apply IH; auto.
Qed.

Lemma NoDup_keys_entries_of (f : pystr -> list Z) (vocab : list (pystr * Z)) :
  NoDup (values vocab) -> NoDup (fst <$> entries_of f vocab).
Proof.
  unfold values. induction vocab as [|[t i] vocab IH]; cbn; intros Hnd; [constructor|].
  apply NoDup_cons in Hnd as [Hi Hnd]. unfold entries_of. cbn [omap list_omap fst snd].
  destruct (f t) eqn:Ef; cbn.
  - apply IH, Hnd.
  - apply NoDup_cons. split; [|apply IH, Hnd].
    intros Hin. apply Hi. apply (keys_entries_of f vocab i Hin).
Qed.

Section fill.
Context (vocab : list (pystr * Z)) (stop_strings : list pystr) (P E : nat).
Let S := length stop_strings.
Let W := (S * (P + E) + 1)%nat.
Let tvp := per_stop_string (fun s => entries_of (valid_positions_of s) vocab) stop_strings.
Let teo := per_stop_string (fun s => entries_of (end_overlaps_of s) vocab) stop_strings.
Context (Hnd : NoDup (values vocab)).
Context (Hrange : Forall (fun id => 0 <= id < len vocab) (values vocab)).
Context (HP : forall s token id, s ∈ stop_strings -> (token, id) ∈ vocab ->
                  (length (valid_positions_of s token) <= P)%nat).
Context (HE : forall s token id, s ∈ stop_strings -> (token, id) ∈ vocab ->
                  (length (end_overlaps_of s token) <= E)%nat).

Lemma id_in_range (token : pystr) (id : Z) : (token, id) ∈ vocab -> 0 <= id < len vocab.
Proof.
    intros Hin. rewrite Forall_forall in Hrange. apply Hrange.
    unfold values. apply list_elem_of_fmap. exists (token, id). auto.
Qed.

  (** A loop that writes the non-empty lists [f token] at the offset [start]. *)
Lemma fill_slices (f : pystr -> list Z) (start : nat) (gv : list (list Z))
      (rowf : pystr -> list Z) :
    length gv = length vocab -> Forall (fun r => length r = W) gv ->
    (forall token id, (token, id) ∈ vocab -> (start + length (f token) <= W)%nat) ->
    (forall token id, (token, id) ∈ vocab -> gv !! Z.to_nat id = Some (rowf token)) ->
    exists gv',
      foldM (fun gather_vec '(token_idx, vals) => Np.set_slice gather_vec token_idx start vals)
            gv (items (entries_of f vocab)) = Ok gv' /\
      length gv' = length vocab /\ Forall (fun r => length r = W) gv' /\
      (forall token id, (token, id) ∈ vocab ->
         gv' !! Z.to_nat id = Some (list_inserts start (f token) (rowf token))).
Proof.
    intros Hlen HW Hfit Hrows.
    destruct (foldM_rows (X := Z * list Z) fst (fun x row => list_inserts start x.2 row)
                (fun x => exists token, (token, x.1) ∈ vocab /\ x.2 = f token)
                (fun gather_vec '(token_idx, vals) => Np.set_slice gather_vec token_idx start vals)
                W) with (l := entries_of f vocab) (gv := gv)
      as (gv' & Hf & Hlen' & HW' & Hhit & Hmiss).
    - intros gv0 [id vals] HW0 Hid (token & Hin & Hv). cbn in *.
      apply (set_slice_in_range W); auto. subst vals. eapply Hfit; eauto.
    - intros x row _ Hrow. rewrite length_inserts. exact Hrow.
    - apply NoDup_keys_entries_of, Hnd.
    - apply Forall_forall. intros [id vals] Hx. apply elem_of_entries_of in Hx as (token & Hin & Hv & _).
      exists token. auto.
    - apply Forall_forall. intros [id vals] Hx. apply elem_of_entries_of in Hx as (token & Hin & _).
      cbn. unfold len. rewrite Hlen. apply (id_in_range token id Hin).
    - exact HW.
    - exists gv'. split; [exact Hf|]. split; [lia|]. split; [exact HW'|].
      intros token id Hin. destruct (f token) as [|z l] eqn:Ef.
      + cbn [list_inserts]. rewrite Hmiss; [apply Hrows, Hin|].
        intros [id' vals] Hx Heq. cbn in Heq.
        apply elem_of_entries_of in Hx as (token' & Hin' & Hv & Hne).
        pose proof (id_in_range _ _ Hin). pose proof (id_in_range _ _ Hin').
        assert (id' = id) by lia. subst id'.
        rewrite (vocab_unique vocab token' token id Hnd Hin' Hin) in Hv. congruence.
      + rewrite <- Ef.
        assert (Hx : (id, f token) ∈ entries_of f vocab).
        { apply elem_of_entries_of. exists token. split; [exact Hin|]. split; [reflexivity|congruence]. }
        specialize (Hhit _ Hx). cbn [fst snd] in Hhit. rewrite Hhit. f_equal. f_equal.
        apply list_lookup_total_correct, Hrows, Hin.
Qed.

  (** The loop that writes the token lengths into the last column. *)
Lemma fill_lengths (gv : list (list Z)) (rowf : pystr -> list Z) :
    length gv = length vocab -> Forall (fun r => length r = W) gv ->
    (forall token id, (token, id) ∈ vocab -> gv !! Z.to_nat id = Some (rowf token)) ->
    exists gv',
      foldM (fun gather_vec '(token, token_idx) =>
               Np.set_item gather_vec token_idx (-1) (len token))
            gv (zip (keys vocab) (values vocab)) = Ok gv' /\
      length gv' = length vocab /\ Forall (fun r => length r = W) gv' /\
      (forall token id, (token, id) ∈ vocab ->
         gv' !! Z.to_nat id = Some (<[(W - 1)%nat := len token]> (rowf token))).
Proof.
    intros Hlen HW Hrows.
    assert (Hzip : zip (keys vocab) (values vocab) = vocab).
    { unfold keys, values. clear. induction vocab as [|[t i] v IH]; cbn; congruence. }
    rewrite Hzip.
    destruct (foldM_rows (X := pystr * Z) snd (fun x row => <[(W - 1)%nat := len x.1]> row)
                (fun x => True)
                (fun gather_vec '(token, token_idx) =>
                   Np.set_item gather_vec token_idx (-1) (len token))
                W) with (l := vocab) (gv := gv)
      as (gv' & Hf & Hlen' & HW' & Hhit & Hmiss).
    - intros gv0 [token id] HW0 Hid _. cbn in *. apply (set_item_last W); auto. unfold W. lia.
    - intros x row _ Hrow. rewrite length_insert. exact Hrow.
    - exact Hnd.
    - apply Forall_true. auto.
    - apply Forall_forall. intros [token id] Hx. cbn. unfold len. rewrite Hlen.
      apply (id_in_range token id Hx).
    - exact HW.
    - exists gv'. split; [exact Hf|]. split; [lia|]. split; [exact HW'|].
      intros token id Hin. specialize (Hhit _ Hin). cbn [fst snd] in Hhit. rewrite Hhit.
      f_equal. f_equal. apply list_lookup_total_correct, Hrows, Hin.
Qed.

  (** One round of the loop over the stop strings. *)
Lemma fill_gather_vec_spec (gv : list (list Z)) (rowf : pystr -> list Z)
      (i : nat) (s : pystr) :
    (i < S)%nat -> s ∈ stop_strings ->
    length gv = length vocab -> Forall (fun r => length r = W) gv ->
    (forall token id, (token, id) ∈ vocab -> gv !! Z.to_nat id = Some (rowf token)) ->
    exists gv',
      fill_gather_vec (keys vocab) (values vocab) stop_strings tvp teo P E gv (i, s) = Ok gv' /\
      length gv' = length vocab /\ Forall (fun r => length r = W) gv' /\
      (forall token id, (token, id) ∈ vocab ->
         gv' !! Z.to_nat id = Some (fill_row P E S token (rowf token) (i, s))).
Proof.
    intros Hi Hs Hlen HW Hrows. unfold fill_gather_vec.
    unfold tvp, teo. rewrite !per_stop_string_get by exact Hs. cbn [mbind result_bind].
    destruct (fill_slices (valid_positions_of s) (P * i)%nat gv rowf Hlen HW)
      as (gv1 & -> & Hlen1 & HW1 & Hrows1); [|exact Hrows|].
    { intros token id Hin. specialize (HP s token id Hs Hin). unfold W. nia. }
    cbn [mbind result_bind].
    destruct (fill_slices (end_overlaps_of s) (P * length stop_strings + E * i)%nat gv1
                (fun token => list_inserts (P * i) (valid_positions_of s token) (rowf token))
                Hlen1 HW1)
      as (gv2 & -> & Hlen2 & HW2 & Hrows2); [|exact Hrows1|].
    { intros token id Hin. specialize (HE s token id Hs Hin). unfold W. fold S. nia. }
    cbn [mbind result_bind].
    destruct (fill_lengths gv2 _ Hlen2 HW2 Hrows2) as (gv3 & -> & Hlen3 & HW3 & Hrows3).
    exists gv3. split; [reflexivity|]. split; [exact Hlen3|]. split; [exact HW3|].
    intros token id Hin. rewrite (Hrows3 token id Hin). f_equal. unfold fill_row. cbn [fst snd].
    f_equal. rewrite !length_inserts.
    assert (Hl : length (rowf token) = W).
    { apply (Forall_lookup_1 (fun r => length r = W) gv (Z.to_nat id)); [exact HW|].
      apply Hrows, Hin. }
    rewrite Hl. reflexivity.
Qed.

  (** The whole loop over the stop strings. *)
Lemma fill_all (rounds : list (nat * pystr)) (gv : list (list Z)) (rowf : pystr -> list Z) :
    Forall (fun round => (round.1 < S)%nat /\ round.2 ∈ stop_strings) rounds ->
    length gv = length vocab -> Forall (fun r => length r = W) gv ->
    (forall token id, (token, id) ∈ vocab -> gv !! Z.to_nat id = Some (rowf token)) ->
    exists gv',
      foldM (fill_gather_vec (keys vocab) (values vocab) stop_strings tvp teo P E) gv rounds
      = Ok gv' /\
      length gv' = length vocab /\ Forall (fun r => length r = W) gv' /\
      (forall token id, (token, id) ∈ vocab ->
         gv' !! Z.to_nat id = Some (foldl (fill_row P E S token) (rowf token) rounds)).
Proof.
    intros HF. revert gv rowf. induction HF as [|[i s] rounds [Hi Hs] HF IH];
      intros gv rowf Hlen HW Hrows.
    - exists gv. cbn. auto.
    - cbn [foldM foldl]. cbn [fst snd] in Hi, Hs.
      destruct (fill_gather_vec_spec gv rowf i s Hi Hs Hlen HW Hrows)
        as (gv1 & -> & Hlen1 & HW1 & Hrows1).
      cbn [mbind result_bind].
      destruct (IH gv1 (fun token => fill_row P E S token (rowf token) (i, s)) Hlen1 HW1 Hrows1)
        as (gv' & Hf & Hlen' & HW' & Hrows').
      exists gv'. auto.
Qed.
End fill.

(** ** The rows of the table *)

Lemma length_pad (w : nat) (l : list Z) : (length l <= w)%nat -> length (pad w l) = w.
Proof. intros H. unfold pad. rewrite length_app, length_replicate. lia. Qed.

Lemma list_inserts_fill (w n : nat) (l front rest : list Z) :
  (length l <= w)%nat ->
  list_inserts (length front) l (front ++ replicate (w + n) (-1) ++ rest)
  = front ++ pad w l ++ replicate n (-1) ++ rest.
Proof.
  intros Hl.
  replace (length front) with (length front + 0)%nat by lia.
  rewrite list_inserts_app_r. f_equal.
  replace (w + n)%nat with (length l + ((w - length l) + n))%nat by lia.
  rewrite !replicate_add, <- !app_assoc.
  rewrite list_inserts_0_r by (rewrite length_replicate; reflexivity).
  unfold pad. rewrite <- app_assoc. reflexivity.
Qed.

Lemma insert_last (front : list Z) (c v : Z) :
  <[(length (front ++ [c]) - 1)%nat := v]> (front ++ [c]) = front ++ [v].
Proof.
  rewrite length_app. cbn [length]. replace (length front + 1 - 1)%nat with (length front + 0)%nat by lia.
  rewrite insert_app_r. reflexivity.
Qed.

Section table_rows.
Context (P E S : nat) (token : pystr).

Lemma fill_row_from (todo : list pystr) (A B : list Z) (c : Z) (k : nat) :
    length A = (P * k)%nat -> length B = (E * k)%nat -> S = (k + length todo)%nat ->
    Forall (fun s => (length (valid_positions_of s token) <= P)%nat /\
                     (length (end_overlaps_of s token) <= E)%nat) todo ->
    foldl (fill_row P E S token)
          (A ++ replicate (P * length todo) (-1) ++ B ++ replicate (E * length todo) (-1) ++ [c])
          (imap (fun j s => ((k + j)%nat, s)) todo)
    = A ++ concat ((fun s => pad P (valid_positions_of s token)) <$> todo)
        ++ B ++ concat ((fun s => pad E (end_overlaps_of s token)) <$> todo)
        ++ [match todo with [] => c | _ :: _ => len token end].
Proof.
    revert A B c k. induction todo as [|s todo IH]; intros A B c k HA HB HS HF.
    - cbn. rewrite !Nat.mul_0_r. cbn. reflexivity.
    - apply Forall_cons in HF as [[Hp He] HF].
      cbn [imap foldl]. unfold fill_row at 2. cbn [fst snd length].
      replace (P * (k + 0))%nat with (length A) by lia.
      replace (P * Datatypes.S (length todo))%nat with (P + P * length todo)%nat by lia.
      replace (E * Datatypes.S (length todo))%nat with (E + E * length todo)%nat by lia.
      rewrite list_inserts_fill by exact Hp.
      set (X := A ++ pad P (valid_positions_of s token) ++ replicate (P * length todo) (-1) ++ B).
      assert (HX : length X = (P * S + E * (k + 0))%nat).
      { unfold X. rewrite !length_app, length_pad, length_replicate by exact Hp. cbn in HS. nia. }
      assert (Hre : A ++ pad P (valid_positions_of s token) ++ replicate (P * length todo) (-1)
                      ++ B ++ replicate (E + E * length todo) (-1) ++ [c]
                    = X ++ replicate (E + E * length todo) (-1) ++ [c]).
      { unfold X. rewrite <- !app_assoc. reflexivity. }
      rewrite Hre. clear Hre. rewrite <- HX. rewrite list_inserts_fill by exact He.
      assert (Hre : X ++ pad E (end_overlaps_of s token) ++ replicate (E * length todo) (-1) ++ [c]
                    = (X ++ pad E (end_overlaps_of s token) ++ replicate (E * length todo) (-1))
                        ++ [c]).
      { rewrite <- !app_assoc. reflexivity. }
      rewrite Hre. clear Hre. rewrite insert_last.
      assert (Hre : (X ++ pad E (end_overlaps_of s token) ++ replicate (E * length todo) (-1))
                      ++ [len token]
                    = (A ++ pad P (valid_positions_of s token))
                        ++ replicate (P * length todo) (-1)
                        ++ (B ++ pad E (end_overlaps_of s token))
                        ++ replicate (E * length todo) (-1) ++ [len token]).
      { unfold X. rewrite <- !app_assoc. reflexivity. }
      rewrite Hre. clear Hre X HX.
      rewrite (imap_ext _ (fun j s => ((Datatypes.S k + j)%nat, s))).
      2:{ intros j x _. cbn. f_equal. lia. }
      rewrite IH.
      + cbn [fmap list_fmap concat]. rewrite <- !app_assoc. destruct todo; reflexivity.
      + rewrite length_app, length_pad by exact Hp. lia.
      + rewrite length_app, length_pad by exact He. lia.
      + cbn in HS. lia.
      + exact HF.
Qed.

Lemma fill_row_all (stop_strings : list pystr) :
    S = length stop_strings -> stop_strings <> [] ->
    Forall (fun s => (length (valid_positions_of s token) <= P)%nat /\
                     (length (end_overlaps_of s token) <= E)%nat) stop_strings ->
    foldl (fill_row P E S token) (replicate (S * (P + E) + 1) (-1)) (enumerate stop_strings)
    = table_row P E stop_strings token.
Proof.
    intros HS Hne HF.
    pose proof (fill_row_from stop_strings [] [] (-1) 0) as H.
    cbn [app length] in H. rewrite !Nat.mul_0_r in H.
    specialize (H eq_refl eq_refl HS HF).
    unfold table_row. destruct stop_strings as [|s0 ss]; [congruence|].
    rewrite <- H. clear H. f_equal.
    rewrite <- HS.
    replace (S * (P + E) + 1)%nat with (P * S + (E * S + 1))%nat by lia.
    rewrite !replicate_add. reflexivity.
Qed.
End table_rows.

Lemma enumerate_rounds (stop_strings : list pystr) :
  Forall (fun round : nat * pystr =>
            (round.1 < length stop_strings)%nat /\ round.2 ∈ stop_strings)
         (enumerate stop_strings).
Proof.
  apply Forall_forall. intros [i s] Hin. unfold enumerate in Hin.
  apply elem_of_lookup_imap in Hin as (j & x & [= -> ->] & Hx). cbn. split.
  - apply lookup_lt_Some in Hx. exact Hx.
  - apply list_elem_of_lookup. eauto.
Qed.

(** ** The table that [_stop_string_create_embedding_vec] returns *)

Lemma create_embedding_vec_spec (vocab : list (pystr * Z)) (stop_strings : list pystr)
    (t : Tensor2) (P E : nat) :
  dense_vocab vocab ->
  _stop_string_create_embedding_vec (keys vocab) (values vocab) stop_strings = Ok (t, P, E) ->
  table_spec vocab stop_strings t P E.
Proof.
  intros [Hnd Hrange] H. unfold _stop_string_create_embedding_vec in H.
  apply bind_Ok in H as ([tvp teo] & Hgmp & H).
  apply (get_matching_positions_spec vocab stop_strings tvp teo Hnd) in Hgmp as (Htok & -> & ->).
  apply bind_Ok in H as (P' & HP & H). apply bind_Ok in H as (E' & HE & H).
  apply (max_width_bounds valid_positions_of) in HP as (HP0 & Hne & HPle & HPex).
  apply (max_width_bounds end_overlaps_of) in HE as (HE0 & _ & HEle & HEex).
  apply bind_Ok in H as (gv & Hfill & H). injection H as <- <- <-.
  assert (Hlk : length (keys vocab) = length vocab) by (unfold keys; apply length_fmap).
  destruct (fill_all vocab stop_strings P' E' Hnd Hrange HPle HEle
              (enumerate stop_strings)
              (Np.full (length (keys vocab))
                       (length stop_strings * (P' + E') + 1) (-1))
              (fun _ => replicate (length stop_strings * (P' + E') + 1) (-1)))
    as (gv' & Hf & Hlen & HW & Hrows).
  - apply enumerate_rounds.
  - unfold Np.full. rewrite length_replicate. exact Hlk.
  - unfold Np.full. apply Forall_replicate, length_replicate.
  - intros token id Hin. unfold Np.full. apply lookup_replicate. split; [reflexivity|].
    rewrite Hlk. assert (0 <= id < len vocab); [|unfold len in *; lia].
    rewrite Forall_forall in Hrange. apply Hrange. unfold values.
    apply list_elem_of_fmap. exists (token, id). auto.
  - rewrite Hf in Hfill. injection Hfill as <-.
    split; auto.
    intros token id Hin. cbn [rows tensor2]. rewrite (Hrows token id Hin). f_equal.
    apply fill_row_all; [reflexivity|exact Hne|].
    apply Forall_forall. intros s Hs. split; [eapply HPle|eapply HEle]; eauto.
Qed.

Lemma table_row_decodes (P E : nat) (stop_strings : list pystr) (token : pystr) :
  Forall (fun s => (length (valid_positions_of s token) <= P)%nat /\
                   (length (end_overlaps_of s token) <= E)%nat) stop_strings ->
  decodes (length stop_strings) P E (table_row P E stop_strings token)
          ((fun s => pad P (valid_positions_of s token)) <$> stop_strings,
           (fun s => pad E (end_overlaps_of s token)) <$> stop_strings,
           len token).
Proof.
  intros HF. split; [reflexivity|]. cbn [fst snd]. split; split.
  - apply length_fmap.
  - apply Forall_fmap. eapply Forall_impl; [exact HF|]. intros s [Hp _]. apply length_pad, Hp.
  - apply length_fmap.
  - apply Forall_fmap. eapply Forall_impl; [exact HF|]. intros s [_ He]. apply length_pad, He.
Qed.

(** ** The object that [__init__] builds *)

Lemma init_spec (vocab : list (pystr * Z)) (arg : stop_strings_arg)
    (self : StopStringCriteria.t) :
  dense_vocab vocab ->
  StopStringCriteria.__init__ (mkTokenizer vocab) arg = Ok self ->
  let stop_strings := match arg with OneString s => [s] | StringList l => l end in
  StopStringCriteria.stop_strings self = stop_strings /\
  StopStringCriteria.num_stop_strings self = length stop_strings /\
  elems (StopStringCriteria.target_lens self) = len <$> stop_strings /\
  StopStringCriteria.maximum_token_len self = max_list (length <$> stop_strings) /\
  table_spec vocab stop_strings (StopStringCriteria.embedding_vec self)
             (StopStringCriteria.max_valid_positions self)
             (StopStringCriteria.max_valid_end_lens self).
Proof.
  intros Hd H stop_strings. unfold StopStringCriteria.__init__ in H. cbn [get_vocab] in H.
  fold stop_strings in H.
  apply bind_Ok in H as ([[t P] E] & Ht & H).
  apply bind_Ok in H as (K & HK & H). injection H as <-. cbn.
  apply py_max_Ok in HK as [_ ->].
  split; [reflexivity|]. split; [reflexivity|]. split; [reflexivity|]. split; [reflexivity|].
  apply create_embedding_vec_spec; assumption.
Qed.

(** ** What the precomputation finds for a token and a stop string *)

Lemma startswith_prefix (s p : pystr) : startswith s p = true <-> p `prefix_of` s.
Proof.
  revert s. induction p as [|c p IH]; intros s.
  - split; [intros _; apply prefix_nil|destruct s; reflexivity].
  - destruct s as [|d s]; cbn.
    + split; [discriminate|]. intros H. apply prefix_nil_inv in H. discriminate.
    + rewrite andb_true_iff, N.eqb_eq, IH. split.
      * intros [-> H]. apply prefix_cons, H.
      * intros H. split; [eapply prefix_cons_inv_1, H|eapply prefix_cons_inv_2, H].
Qed.

Lemma elem_of_range (a b i : Z) : i ∈ range a b <-> a <= i < b.
Proof.
  unfold range. rewrite list_elem_of_fmap. split.
  - intros (k & -> & Hk). apply elem_of_seq in Hk. lia.
  - intros H. exists (Z.to_nat (i - a)). split; [lia|]. apply elem_of_seq. lia.
Qed.

Lemma length_normalized (token : pystr) : length (normalized token) = length token.
Proof.
  unfold normalized. destruct (_cleanup_token token) as [t|e] eqn:Et; [|reflexivity].
  apply cleanup_token_length in Et. tauto.
Qed.

Section match_step.
Context (rft rss : pystr).
Local Abbreviation fits_at := (fits_at rft rss).
Local Abbreviation overlaps_at := (overlaps_at rft rss).
Local Abbreviation overlap_length := (overlap_length rft rss).

Lemma match_step_cases (mp pel : list Z) (i : Z) :
    match_step rft rss (mp, pel) i =
      if decide (0 < i) then
        if fits_at i then (mp ++ [i], pel) else (mp, pel)
      else
        if overlaps_at i then (mp, pel ++ [overlap_length i]) else (mp, pel).
Proof.
    unfold match_step, fits_at, overlaps_at, overlap_length.
    destruct (decide (0 < i)) as [Hpos|Hneg].
    - rewrite (proj2 (Z.ltb_ge i 0)) by lia.
      destruct (startswith _ _); [|reflexivity].
      rewrite (proj2 (Z.eqb_neq i 0)) by lia. reflexivity.
    - destruct (i <? 0) eqn:Ei.
      + cbn [Z.to_nat drop]. destruct (startswith _ _); reflexivity.
      + apply Z.ltb_ge in Ei. assert (i = 0) by lia. subst i. cbn [Z.opp Z.to_nat drop].
        destruct (startswith _ _); reflexivity.
Qed.

Lemma foldl_match_step (l : list Z) (mp pel : list Z) :
    forall x,
      (x ∈ (foldl (match_step rft rss) (mp, pel) l).1
       <-> x ∈ mp \/ (x ∈ l /\ 0 < x /\ fits_at x = true)) /\
      (x ∈ (foldl (match_step rft rss) (mp, pel) l).2
       <-> x ∈ pel \/ exists i, i ∈ l /\ i <= 0 /\ overlaps_at i = true /\ x = overlap_length i).
Proof.
    revert mp pel. induction l as [|i l IH]; intros mp pel x; cbn [foldl].
    - cbn. split; split; auto.
      + intros [H|[H _]]; [exact H|inversion H].
      + intros [H|(i & H & _)]; [exact H|inversion H].
    - rewrite match_step_cases.
      destruct (decide (0 < i)) as [Hpos|Hneg].
      + destruct (fits_at i) eqn:Ef; destruct (IH (if true then mp ++ [i] else mp) pel x) as [I1 I2];
          cbn in I1, I2; [destruct (IH (mp ++ [i]) pel x) as [J1 J2]|destruct (IH mp pel x) as [J1 J2]];
          split.
        * rewrite J1, elem_of_app, list_elem_of_singleton, elem_of_cons. split.
          -- intros [[H| ->]|(H1 & H2 & H3)]; auto.
          -- intros [H|([->|H1] & H2 & H3)]; auto.
        * rewrite J2. split.
          -- intros [H|(j & Hj & H)]; [auto|right; exists j; split; [right; exact Hj|exact H]].
          -- intros [H|(j & Hj & Hle & H)]; [auto|].
             apply elem_of_cons in Hj as [->|Hj]; [lia|right; exists j; auto].
        * rewrite J1, elem_of_cons. split.
          -- intros [H|(H1 & H2 & H3)]; auto.
          -- intros [H|([->|H1] & H2 & H3)]; auto. congruence.
        * rewrite J2. split.
          -- intros [H|(j & Hj & H)]; [auto|right; exists j; split; [right; exact Hj|exact H]].
          -- intros [H|(j & Hj & Hle & H)]; [auto|].
             apply elem_of_cons in Hj as [->|Hj]; [lia|right; exists j; auto].
      + destruct (overlaps_at i) eqn:Eo;
          [destruct (IH mp (pel ++ [overlap_length i]) x) as [J1 J2]|destruct (IH mp pel x) as [J1 J2]];
          split.
        * rewrite J1, elem_of_cons. split.
          -- intros [H|(H1 & H2 & H3)]; auto.
          -- intros [H|([->|H1] & H2 & H3)]; auto. lia.
        * rewrite J2, elem_of_app, list_elem_of_singleton. split.
          -- intros [[H| ->]|(j & Hj & H)]; [auto| |right; exists j; split; [right; exact Hj|exact H]].
             right. exists i. split; [left|]. split; [lia|auto].
          -- intros [H|(j & Hj & Hle & Ho & ->)]; [auto|].
             apply elem_of_cons in Hj as [->|Hj]; [auto|right; exists j; auto].
        * rewrite J1, elem_of_cons. split.
          -- intros [H|(H1 & H2 & H3)]; auto.
          -- intros [H|([->|H1] & H2 & H3)]; auto. lia.
        * rewrite J2. split.
          -- intros [H|(j & Hj & H)]; [auto|right; exists j; split; [right; exact Hj|exact H]].
          -- intros [H|(j & Hj & Hle & Ho & ->)]; [auto|].
             apply elem_of_cons in Hj as [->|Hj]; [congruence|right; exists j; auto].
Qed.
End match_step.

Lemma valid_positions_of_spec (s token : pystr) (i : Z) :
  i ∈ valid_positions_of s token
  <-> exists j : nat,
        i = Z.of_nat j /\ (0 < j < length s)%nat /\
        let u := take (length s - j) s in
        drop (length u - length token) u `suffix_of` normalized token.
Proof.
  unfold valid_positions_of, token_matches.
  rewrite (proj1 (foldl_match_step _ _ _ [] [] i)).
  rewrite elem_of_nil, elem_of_range. unfold fits_at, reversed_filtered.
  rewrite startswith_prefix, length_reverse, length_normalized.
  assert (Hconv : forall j : nat, (j < length s)%nat ->
            take (length token) (drop j (reverse s)) `prefix_of` reverse (normalized token)
            <-> drop (length (take (length s - j) s) - length token) (take (length s - j) s)
                  `suffix_of` normalized token).
  { intros j Hj. rewrite drop_reverse, take_reverse, <- suffix_prefix_reverse. reflexivity. }
  split.
  - intros [[]|(Hr & Hpos & Hfit)]. exists (Z.to_nat i). unfold len in Hr.
    split; [lia|]. split; [lia|]. cbv zeta. apply Hconv; [lia|exact Hfit].
  - intros (j & -> & Hj & Hfit). right. unfold len. split; [lia|]. split; [lia|].
    rewrite Nat2Z.id. apply Hconv; [lia|exact Hfit].
Qed.

Lemma end_overlaps_of_spec (s token : pystr) (e : Z) :
  e ∈ end_overlaps_of s token
  <-> exists k : nat,
        (1 <= k <= length token)%nat /\ (k = length token -> (0 < length s)%nat) /\
        drop (length s - k) s `suffix_of` take k (normalized token) /\
        e = Z.of_nat (Nat.min k (length s)).
Proof.
  unfold end_overlaps_of, token_matches.
  rewrite (proj2 (foldl_match_step _ _ _ [] [] e)).
  rewrite elem_of_nil. unfold overlaps_at, overlap_length, reversed_filtered.
  assert (Hconv : forall d : nat, (d < length token)%nat ->
            let tok := drop d (reverse (normalized token)) in
            length tok = (length token - d)%nat /\
            (startswith tok (take (length tok) (reverse s)) = true
             <-> drop (length s - (length token - d)) s
                   `suffix_of` take (length token - d) (normalized token)) /\
            Z.min (len tok) (len (take (length tok) (reverse s)))
            = Z.of_nat (Nat.min (length token - d) (length s))).
  { intros d Hd tok.
    assert (Hl : length tok = (length token - d)%nat).
    { unfold tok. rewrite length_drop, length_reverse, length_normalized. reflexivity. }
    split; [exact Hl|]. split.
    - rewrite startswith_prefix, Hl. unfold tok.
      rewrite drop_reverse, take_reverse, <- suffix_prefix_reverse, length_normalized. reflexivity.
    - unfold len. rewrite Hl, length_take, length_reverse. lia. }
  split.
  - intros [[]|(i & Hr & Hle & Ho & ->)]. apply elem_of_range in Hr. unfold len in Hr.
    destruct (Hconv (Z.to_nat (- i)) ltac:(lia)) as (Hl & Hiff & Hval).
    exists (length token - Z.to_nat (- i))%nat.
    split; [lia|]. split; [lia|]. split; [apply Hiff, Ho|exact Hval].
  - intros (k & Hk & HL & Hsuf & ->). right. exists (Z.of_nat k - Z.of_nat (length token)).
    rewrite elem_of_range. unfold len.
    replace (Z.to_nat (- (Z.of_nat k - Z.of_nat (length token)))) with (length token - k)%nat by lia.
    destruct (Hconv (length token - k)%nat ltac:(lia)) as (Hl & Hiff & Hval).
    replace (length token - (length token - k))%nat with k in * by lia.
    split; [lia|]. split; [lia|]. split; [apply Hiff, Hsuf|]. unfold len in Hval.
    rewrite Hval. reflexivity.
Qed.

(** ** Suffixes of a concatenation *)

Lemma suffix_app_short {A} (s x y : list A) :
  (length s <= length y)%nat -> s `suffix_of` x ++ y <-> s `suffix_of` y.
Proof.
  intros Hl. split; [|apply suffix_app_r].
  intros [p Hp]. exists (drop (length x) p).
  assert (Hlen : (length x <= length p)%nat).
  { apply (f_equal length) in Hp. rewrite !length_app in Hp. lia. }
  apply (f_equal (drop (length x))) in Hp.
  rewrite drop_app_length in Hp. rewrite drop_app_le in Hp by exact Hlen. exact Hp.
Qed.

Lemma suffix_app_long {A} (s x y : list A) :
  (length y <= length s)%nat ->
  s `suffix_of` x ++ y
  <-> drop (length s - length y) s = y /\ take (length s - length y) s `suffix_of` x.
Proof.
  intros Hl. split.
  - intros [p Hp].
    assert (Hsum : (length x + length y = length p + length s)%nat).
    { rewrite <- !length_app. congruence. }
    assert (Hx : x = p ++ take (length s - length y) s).
    { pose proof (f_equal (take (length x)) Hp) as Hq. rewrite take_app_length in Hq.
      rewrite take_app_ge in Hq by lia. rewrite Hq at 1. f_equal. f_equal. lia. }
    split.
    + rewrite Hx, <- app_assoc in Hp. apply app_inv_head in Hp.
      rewrite <- Hp at 2. rewrite drop_app_length'; [reflexivity|].
      rewrite length_take. lia.
    + exists p. exact Hx.
  - intros [Hd [p Hp]]. exists p. rewrite Hp, <- app_assoc. f_equal.
    rewrite <- Hd at 2. apply take_drop.
Qed.

(** ** The backward scan and the text before the last token *)

Lemma existsb_pad (P : nat) (l : list Z) (c : Z) :
  0 <= c -> existsb (Z.eqb c) (pad P l) = true <-> c ∈ l.
Proof.
  intros Hc. rewrite existsb_exists. unfold pad. split.
  - intros (x & Hx & Heq). apply Z.eqb_eq in Heq. subst x.
    apply list_elem_of_In, elem_of_app in Hx as [Hx|Hx]; [exact Hx|].
    apply elem_of_replicate in Hx. lia.
  - intros Hin. exists c. split; [|apply Z.eqb_refl].
    apply list_elem_of_In, elem_of_app. left. exact Hin.
Qed.

Section scan.
Context (P : nat) (s : pystr).
Let L := length s.

Lemma reaches_done (c : Z) (rest : list (list Z * Z)) :
    Z.of_nat L <= c -> reaches (len s) c rest = true.
Proof.
    intros H. destruct rest as [|[v l] rest]; cbn; rewrite bool_decide_eq_true_2; auto.
Qed.

Lemma reaches_text (older : list pystr) (c : nat) :
    (0 < c < L)%nat ->
    reaches (len s) (Z.of_nat c) (table_entry P s <$> older) = true
    <-> take (L - c) s `suffix_of` text_before older.
Proof.
    revert c. induction older as [|token older IH]; intros c Hc.
    - cbn. rewrite bool_decide_eq_false_2 by (unfold len; fold L; lia).
      split; [discriminate|]. intros H. apply suffix_nil_inv in H.
      apply (f_equal length) in H. rewrite length_take in H. cbn in H. fold L in H. lia.
    - cbn [fmap list_fmap reaches table_entry].
      rewrite bool_decide_eq_false_2 by (unfold len; fold L; lia). cbn [orb].
      rewrite andb_true_iff, existsb_pad by lia. rewrite valid_positions_of_spec.
      unfold text_before. rewrite fmap_cons, reverse_cons, concat_app. cbn [concat].
      rewrite app_nil_r. fold (text_before older). fold L.
      set (u := take (L - c) s).
      assert (Hu : length u = (L - c)%nat) by (unfold u; rewrite length_take; fold L; lia).
      set (t := normalized token).
      assert (Ht : length t = length token) by apply length_normalized.
      destruct (decide (length token < L - c)%nat) as [Hshort|Hlong].
      + (* the token lies inside the unmatched part *)
        rewrite (suffix_app_long u) by lia. rewrite Hu, Ht.
        replace (Z.of_nat c + len token) with (Z.of_nat (c + length token)) by (unfold len; lia).
        rewrite IH by lia.
        assert (Htake : take (L - c - length token) u = take (L - (c + length token)) s).
        { unfold u. rewrite take_take. f_equal. lia. }
        rewrite Htake. split.
        * intros [(j & Hj & Hjr & Hsuf) Hr]. apply Nat2Z.inj in Hj. subst j. cbv zeta in Hsuf.
          fold u in Hsuf. rewrite Hu in Hsuf. split; [|exact Hr].
          apply suffix_length_eq; [exact Hsuf|]. rewrite length_drop. fold t. lia.
        * intros [Hd Hr]. split; [|exact Hr]. exists c. split; [reflexivity|]. split; [lia|].
          cbv zeta. fold u. rewrite Hu, Hd. reflexivity.
      + (* the token covers the unmatched part *)
        rewrite (suffix_app_short u) by lia.
        rewrite reaches_done by (unfold len; lia). split.
        * intros [(j & Hj & Hjr & Hsuf) _]. apply Nat2Z.inj in Hj. subst j. cbv zeta in Hsuf.
          fold u in Hsuf. rewrite Hu in Hsuf.
          replace (L - c - length token)%nat with 0%nat in Hsuf by lia. exact Hsuf.
        * intros Hsuf. split; [|reflexivity]. exists c. split; [reflexivity|]. split; [lia|].
          cbv zeta. fold u. rewrite Hu.
          replace (L - c - length token)%nat with 0%nat by lia. exact Hsuf.
Qed.

  (** Only the tokens that the stop string can cover are looked at. *)
Lemma reaches_window (older : list pystr) (n : nat) (c : Z) :
    Forall (fun token => token <> []) older ->
    Z.of_nat L <= Z.of_nat n + c ->
    reaches (len s) c (table_entry P s <$> take n older)
    = reaches (len s) c (table_entry P s <$> older).
Proof.
    intros HF. revert n c. induction HF as [|token older Htok HF IH]; intros n c Hn.
    - rewrite take_nil. reflexivity.
    - destruct (decide (Z.of_nat L <= c)) as [Hdone|Hmore].
      + rewrite !reaches_done by exact Hdone. reflexivity.
      + destruct n as [|n]; [lia|]. cbn [take fmap list_fmap reaches table_entry].
        f_equal. f_equal. apply IH.
        assert (0 < length token)%nat by (destruct token; [congruence|cbn; lia]).
        unfold len. lia.
Qed.
End scan.

(** ** A match that ends in the last token *)

Lemma last_token_spec (P : nat) (s last : pystr) (older : list pystr) :
  (0 < length s)%nat ->
  (exists x, x ∈ end_overlaps_of s last /\ 0 < x /\
             reaches (len s) x (table_entry P s <$> older) = true)
  <-> exists k, (0 < k <= length (normalized last))%nat /\
                s `suffix_of` text_before older ++ take k (normalized last).
Proof.
  intros HL. set (t := normalized last).
  assert (Ht : length t = length last) by apply length_normalized.
  split.
  - intros (x & Hx & Hpos & Hr). apply end_overlaps_of_spec in Hx as (k & Hk & _ & Hsuf & ->).
    fold t in Hsuf. exists k. split; [lia|].
    destruct (decide (length s <= k)%nat) as [Hle|Hgt].
    + replace (length s - k)%nat with 0%nat in Hsuf by lia. apply suffix_app_r. exact Hsuf.
    + rewrite Nat.min_l in Hr by lia. rewrite reaches_text in Hr by lia.
      apply suffix_app_long; [rewrite length_take; lia|].
      rewrite length_take, Nat.min_l by lia. split; [|exact Hr].
      apply suffix_length_eq; [exact Hsuf|]. rewrite length_drop, length_take. lia.
  - intros (k & Hk & Hsuf).
    assert (Hlk : length (take k t) = k) by (rewrite length_take; lia).
    destruct (decide (length s <= k)%nat) as [Hle|Hgt].
    + apply suffix_app_short in Hsuf; [|lia].
      exists (Z.of_nat (length s)). split; [|split; [lia|apply reaches_done; lia]].
      apply end_overlaps_of_spec. exists k. split; [lia|]. split; [lia|].
      split; [|rewrite Nat.min_r by lia; reflexivity].
      replace (length s - k)%nat with 0%nat by lia. exact Hsuf.
    + apply suffix_app_long in Hsuf as [Hd Hr]; [|lia]. rewrite Hlk in Hd, Hr.
      exists (Z.of_nat k). split; [|split; [lia|apply reaches_text; [lia|exact Hr]]].
      apply end_overlaps_of_spec. exists k. split; [lia|]. split; [lia|].
      split; [|rewrite Nat.min_l by lia; reflexivity].
      fold t. rewrite Hd. reflexivity.
Qed.

Lemma pad_positive_entry (E : nat) (l : list Z) (Q : Z -> Prop) :
  (length l <= E)%nat ->
  (exists e, (e < E)%nat /\ 0 < pad E l !!! e /\ Q (pad E l !!! e))
  <-> exists x, x ∈ l /\ 0 < x /\ Q x.
Proof.
  intros Hl. unfold pad. split.
  - intros (e & He & Hpos & HQ). destruct (decide (e < length l)%nat) as [Hin|Hout].
    + rewrite lookup_total_app_l in Hpos, HQ by exact Hin.
      exists (l !!! e). split; [|auto]. apply list_elem_of_lookup. exists e.
      apply list_lookup_lookup_total_lt, Hin.
    + rewrite lookup_total_app_r in Hpos by lia.
      rewrite lookup_total_replicate_2 in Hpos by lia. lia.
  - intros (x & Hx & Hpos & HQ). apply list_elem_of_lookup in Hx as [e He].
    pose proof (lookup_lt_Some _ _ _ He) as Hlt.
    exists e. split; [lia|]. rewrite lookup_total_app_l by exact Hlt.
    rewrite (list_lookup_total_correct _ _ _ He). auto.
Qed.

Lemma ends_in_last_token_spec (s : pystr) (older : list pystr) (last : pystr) :
  ends_in_last_token s (normalized <$> (reverse older ++ [last]))
  <-> exists k, (0 < k <= length (normalized last))%nat /\
                s `suffix_of` text_before older ++ take k (normalized last).
Proof.
  unfold ends_in_last_token, text_before. rewrite fmap_app, fmap_reverse. cbn [fmap list_fmap].
  split.
  - intros (o & l & k & Heq & Hk & Hsuf). apply app_inj_2 in Heq as [<- [= <-]]; [|reflexivity].
    exists k. auto.
  - intros (k & Hk & Hsuf). exists (reverse (normalized <$> older)), (normalized last), k. auto.
Qed.

(** ** The decision for one row *)

Section row.
Context (vocab : list (pystr * Z)) (stop_strings : list pystr) (self : StopStringCriteria.t).
Let P := StopStringCriteria.max_valid_positions self.
Let E := StopStringCriteria.max_valid_end_lens self.
Context (Hn : StopStringCriteria.num_stop_strings self = length stop_strings).
Context (Ht : elems (StopStringCriteria.target_lens self) = len <$> stop_strings).
Context (Hspec : table_spec vocab stop_strings (StopStringCriteria.embedding_vec self) P E).

Lemma token_bounds (token : pystr) :
    token ∈ keys vocab ->
    Forall (fun s => (length (valid_positions_of s token) <= P)%nat /\
                     (length (end_overlaps_of s token) <= E)%nat) stop_strings.
Proof.
    intros Hin. unfold keys in Hin. apply list_elem_of_fmap in Hin as ([tok id] & -> & Hin).
    apply Forall_forall. intros s Hs. split.
    - eapply (table_valid_positions _ _ _ _ _ Hspec); eauto.
    - eapply (table_end_overlaps _ _ _ _ _ Hspec); eauto.
Qed.

Lemma token_nonempty (token : pystr) : token ∈ keys vocab -> token <> [].
Proof.
    intros Hin. pose proof (table_tokens _ _ _ _ _ Hspec) as HF.
    rewrite Forall_forall in HF. apply HF, Hin.
Qed.

Lemma row_decision (last : pystr) (older : list pystr) (n : nat) :
    last ∈ keys vocab -> Forall (fun token => token ∈ keys vocab) older ->
    (max_list (length <$> stop_strings) <= n + 1)%nat \/ (length older <= n)%nat ->
    StopStringCriteria.row_matches self
      (table_row P E stop_strings last :: (table_row P E stop_strings <$> take n older)) = true
    <-> exists s, s ∈ stop_strings /\
                  ends_in_last_token s (normalized <$> (reverse older ++ [last])).
Proof.
    intros Hlast Holder Hwin.
    pose proof (table_stop_strings _ _ _ _ _ Hspec) as Hne.
    assert (HS : (0 < length stop_strings)%nat) by (destruct stop_strings; [congruence|cbn; lia]).
    set (rec_of := fun token : pystr =>
                     ((fun s => pad P (valid_positions_of s token)) <$> stop_strings,
                      (fun s => pad E (end_overlaps_of s token)) <$> stop_strings,
                      len token)).
    rewrite (row_matches_spec self E _ _ (rec_of last) (rec_of <$> take n older)).
    2:{ rewrite Hn. exact HS. }
    2:{ apply (table_E _ _ _ _ _ Hspec). }
    2:{ rewrite Hn. apply (table_cols _ _ _ _ _ Hspec). }
    2:{ rewrite Hn. apply table_row_decodes, token_bounds, Hlast. }
    2:{ rewrite Hn. apply Forall2_fmap. apply Forall_Forall2_diag.
        apply Forall_take. eapply Forall_impl; [exact Holder|].
        intros token Hin. apply table_row_decodes, token_bounds, Hin. }
    rewrite Hn, Ht.
    assert (Hlast_ne : last <> []) by apply token_nonempty, Hlast.
    assert (Hrest : forall si s, stop_strings !! si = Some s ->
               older_entry si <$> (rec_of <$> take n older) = table_entry P s <$> take n older).
    { intros si s Hs. rewrite <- list_fmap_compose. apply list_fmap_ext. intros i token _.
      unfold older_entry, rec_of, table_entry. cbn. f_equal.
      apply list_lookup_total_correct. rewrite list_lookup_fmap, Hs. reflexivity. }
    assert (Hend : forall si s, stop_strings !! si = Some s ->
               (rec_of last).1.2 !!! si = pad E (end_overlaps_of s last)).
    { intros si s Hs. unfold rec_of. cbn. apply list_lookup_total_correct.
      rewrite list_lookup_fmap, Hs. reflexivity. }
    assert (Hbranch : forall s, s ∈ stop_strings ->
               (len s <= 0 \/
                exists x, x ∈ end_overlaps_of s last /\ 0 < x /\
                          reaches (len s) x (table_entry P s <$> take n older) = true)
               <-> ends_in_last_token s (normalized <$> (reverse older ++ [last]))).
    { intros s Hs. rewrite ends_in_last_token_spec.
      destruct (decide (length s = 0)%nat) as [H0|Hpos].
      - split; [intros _|intros _; left; unfold len; lia].
        destruct s; [|discriminate]. exists 1%nat. rewrite length_normalized. split.
        + destruct last; [congruence|cbn; lia].
        + apply suffix_nil.
      - rewrite <- (last_token_spec P) by lia.
        assert (Hw : forall x, 0 < x ->
                  reaches (len s) x (table_entry P s <$> take n older)
                  = reaches (len s) x (table_entry P s <$> older)).
        { intros x Hx. destruct Hwin as [Hwin|Hwin].
          - apply reaches_window.
            + eapply Forall_impl; [exact Holder|]. intros token. apply token_nonempty.
            + assert (length s <= max_list (length <$> stop_strings))%nat.
              { apply max_list_elem_of_le. apply list_elem_of_fmap. exists s. auto. }
              lia.
          - rewrite take_ge by exact Hwin. reflexivity. }
        split.
        + intros [Hle|(x & Hx & Hxpos & Hr)]; [unfold len in Hle; lia|].
          exists x. split; [exact Hx|]. split; [exact Hxpos|]. rewrite <- Hw by exact Hxpos. exact Hr.
        + intros (x & Hx & Hxpos & Hr). right. exists x. split; [exact Hx|]. split; [exact Hxpos|].
          rewrite Hw by exact Hxpos. exact Hr. }
    split.
    - intros (si & e & target & Htgt & Hsi & He & Hb).
      apply list_lookup_fmap_Some in Htgt as (s & -> & Es).
      assert (Hs : s ∈ stop_strings) by (apply list_elem_of_lookup; eauto).
      exists s. split; [exact Hs|]. apply Hbranch; [exact Hs|].
      destruct Hb as [Hb|Hb]; [left; exact Hb|right].
      rewrite (Hend si s Es), (Hrest si s Es) in Hb.
      apply (pad_positive_entry E (end_overlaps_of s last)
               (fun x => reaches (len s) x (table_entry P s <$> take n older) = true)).
      + pose proof (token_bounds last Hlast) as HF. rewrite Forall_forall in HF. apply HF, Hs.
      + exists e. auto.
    - intros (s & Hs & Hends). apply Hbranch in Hends; [|exact Hs].
      pose proof Hs as Hs'. apply list_elem_of_lookup in Hs' as [si Es].
      assert (Hsi : (si < length stop_strings)%nat) by (eapply lookup_lt_Some; eauto).
      destruct Hends as [Hle|Hx].
      + exists si, 0%nat, (len s). split; [apply list_lookup_fmap_Some; exists s; split; [reflexivity|exact Es]|].
        split; [exact Hsi|]. split; [apply (table_E _ _ _ _ _ Hspec)|]. left. exact Hle.
      + apply (pad_positive_entry E (end_overlaps_of s last)
                 (fun x => reaches (len s) x (table_entry P s <$> take n older) = true))
          in Hx as (e & He & Hpos & Hr).
        2:{ pose proof (token_bounds last Hlast) as HF. rewrite Forall_forall in HF. apply HF, Hs. }
        exists si, e, (len s). split; [apply list_lookup_fmap_Some; exists s; split; [reflexivity|exact Es]|].
        split; [exact Hsi|]. split; [exact He|]. right.
        rewrite (Hend si s Es), (Hrest si s Es). auto.
Qed.
End row.

(** ** Rows of token ids *)

Lemma token_of_Some (vocab : dict pystr Z) (id : Z) :
  id ∈ values vocab -> exists token, token_of vocab id = Some token /\ (token, id) ∈ vocab.
Proof.
  unfold values, token_of, dict in *. induction vocab as [|[tok i] vocab IH]; intros Hin.
  - inversion Hin.
  - cbn in Hin. rewrite filter_cons. cbn [snd]. destruct (decide (i = id)) as [->|Hne].
    + exists tok. split; [reflexivity|left].
    + apply elem_of_cons in Hin as [Heq|Hin]; [congruence|].
      destruct (IH Hin) as (token & Ht & Hv). exists token. split; [exact Ht|right; exact Hv].
Qed.

Lemma token_or_empty_in (vocab : dict pystr Z) (id : Z) :
  id ∈ values vocab -> (token_or_empty vocab id, id) ∈ vocab.
Proof.
  intros Hin. destruct (token_of_Some vocab id Hin) as (token & Ht & Hv).
  unfold token_or_empty. rewrite Ht. exact Hv.
Qed.

Lemma row_texts_tokens (vocab : dict pystr Z) (ids : list Z) :
  row_texts vocab ids = normalized <$> (token_or_empty vocab <$> ids).
Proof.
  unfold row_texts. rewrite <- list_fmap_compose. apply list_fmap_ext. intros i id _.
  unfold token_or_empty. cbn. destruct (token_of vocab id); reflexivity.
Qed.

Lemma embedding_row (vocab : list (pystr * Z)) (stop_strings : list pystr) (t : Tensor2)
    (P E : nat) (d : device) (ids : list Z) :
  dense_vocab vocab -> table_spec vocab stop_strings t P E ->
  Forall (fun id => id ∈ values vocab) ids ->
  embedding d ids (rows t)
  = Ok ((fun id => table_row P E stop_strings (token_or_empty vocab id)) <$> ids).
Proof.
  intros [Hnd Hrange] Hspec Hids. unfold embedding. apply mapM_Ok_fmap.
  eapply Forall_impl; [exact Hids|]. intros id Hid. cbn.
  assert (Hr : 0 <= id < len vocab) by (rewrite Forall_forall in Hrange; apply Hrange, Hid).
  rewrite decide_True by (unfold len in *; rewrite (table_length _ _ _ _ _ Hspec); exact Hr).
  f_equal. apply list_lookup_total_correct.
  apply (table_rows _ _ _ _ _ Hspec (token_or_empty vocab id) id).
  apply token_or_empty_in, Hid.
Qed.

Lemma table_spec_window (vocab : list (pystr * Z)) (stop_strings : list pystr) (t : Tensor2)
    (P E : nat) :
  table_spec vocab stop_strings t P E -> (2 <= max_list (length <$> stop_strings))%nat.
Proof.
  intros Hspec. destruct (table_some_position _ _ _ _ _ Hspec) as (s & token & id & Hs & _ & Hne).
  destruct (valid_positions_of s token) as [|i l] eqn:Ev; [congruence|].
  assert (Hi : i ∈ valid_positions_of s token) by (rewrite Ev; left).
  apply valid_positions_of_spec in Hi as (j & _ & Hj & _).
  assert (length s <= max_list (length <$> stop_strings))%nat; [|lia].
  apply max_list_elem_of_le. apply list_elem_of_fmap. exists s. auto.
Qed.

Lemma table_spec_to2 (vocab : list (pystr * Z)) (stop_strings : list pystr) (t : Tensor2)
    (P E : nat) (d : device) :
  table_spec vocab stop_strings t P E -> table_spec vocab stop_strings (to2 d t) P E.
Proof. intros []. split; assumption. Qed.

(** ** The decision of [__call__] *)

Section call.
Context {Scores : Type} (vocab : list (pystr * Z)) (arg : stop_strings_arg)
          (self : StopStringCriteria.t).
Let stop_strings := match arg with OneString s => [s] | StringList l => l end.
Context (Hdense : dense_vocab vocab).
Context (Hinit : StopStringCriteria.__init__ (mkTokenizer vocab) arg = Ok self).

Lemma call_decides (input_ids : Tensor2) (scores : Scores) :
    well_shaped input_ids -> (0 < cols input_ids)%nat ->
    Forall (Forall (fun id => id ∈ values vocab)) (rows input_ids) ->
    exists bs,
      (StopStringCriteria.__call__ self input_ids scores).1
      = Ok (mkTensor1 (device2 input_ids) bs) /\
      Forall2 (fun row (b : bool) =>
                 b = true <-> exists s, s ∈ stop_strings /\
                                        ends_in_last_token s (row_texts vocab row))
              (rows input_ids) bs.
Proof.
    intros Hshape Hcols Hids.
    destruct (init_spec vocab arg self Hdense Hinit) as (Hss & Hn & Ht & HK & Hspec).
    fold stop_strings in Hss, Hn, Ht, HK, Hspec.
    pose proof (table_spec_window _ _ _ _ _ Hspec) as HK2.
    set (P := StopStringCriteria.max_valid_positions self) in *.
    set (E := StopStringCriteria.max_valid_end_lens self) in *.
    set (K := StopStringCriteria.maximum_token_len self) in *.
    unfold StopStringCriteria.__call__.
    set (self' := StopStringCriteria.mk _ _ _ _ _ _ _ _ _ _).
    cbn [fst].
    assert (HK' : StopStringCriteria.maximum_token_len self' = K) by reflexivity.
    assert (HP' : StopStringCriteria.max_valid_positions self' = P) by reflexivity.
    assert (HE' : StopStringCriteria.max_valid_end_lens self' = E) by reflexivity.
    assert (Hn' : StopStringCriteria.num_stop_strings self' = length stop_strings) by exact Hn.
    assert (Ht' : elems (StopStringCriteria.target_lens self') = len <$> stop_strings) by exact Ht.
    assert (Hr' : rows (StopStringCriteria.embedding_vec self')
                  = rows (StopStringCriteria.embedding_vec self)) by reflexivity.
    assert (Hc' : cols (StopStringCriteria.embedding_vec self')
                  = cols (StopStringCriteria.embedding_vec self)) by reflexivity.
    assert (Hspec' : table_spec vocab stop_strings (StopStringCriteria.embedding_vec self')
                       (StopStringCriteria.max_valid_positions self')
                       (StopStringCriteria.max_valid_end_lens self')).
    { apply (table_spec_to2 _ _ _ _ _ (device2 input_ids) Hspec). }
    rewrite HK', HP', Hn', Hr', Hc'. clearbody self'.
    assert (HKpos : exists k, K = Datatypes.S k) by (exists (K - 1)%nat; lia).
    destruct HKpos as [k Hk].
    assert (Hwin : last_cols K input_ids
                   = mkTensor2 (device2 input_ids) (Nat.min K (cols input_ids))
                               ((fun r => drop (length r - K) r) <$> rows input_ids)).
    { rewrite Hk. reflexivity. }
    rewrite Hwin. cbn [flip1 rows cols device2 to2].
    set (emb := fun row : list Z =>
                  (fun id => table_row P E stop_strings (token_or_empty vocab id))
                    <$> reverse (drop (length row - K) row)).
    assert (Hemb : mapM (fun ids => embedding (device2 input_ids) ids
                                      (rows (StopStringCriteria.embedding_vec self)))
                     (reverse <$> ((fun r => drop (length r - K) r) <$> rows input_ids))
                   = Ok (emb <$> rows input_ids)).
    { rewrite <- list_fmap_compose.
      rewrite (mapM_Ok_fmap _ (fun ids => (fun id => table_row P E stop_strings
                                                       (token_or_empty vocab id)) <$> ids)).
      - rewrite <- list_fmap_compose. reflexivity.
      - apply Forall_fmap. eapply Forall_impl; [exact Hids|]. intros row Hrow. cbn.
        apply (embedding_row vocab stop_strings _ P E (device2 input_ids)); auto.
        apply Forall_reverse, Forall_drop, Hrow. }
    rewrite Hemb. cbn [mbind result_bind].
    rewrite (table_cols _ _ _ _ _ Hspec).
    assert (HS : (0 < length stop_strings)%nat).
    { pose proof (table_stop_strings _ _ _ _ _ Hspec). destruct stop_strings; [congruence|cbn; lia]. }
    assert (Hw : ((length stop_strings * (P + E) + 1 - 1 - P * length stop_strings)
                  / length stop_strings)%nat = E).
    { replace (length stop_strings * (P + E) + 1 - 1 - P * length stop_strings)%nat
        with (E * length stop_strings)%nat by lia. apply Nat.div_mul. lia. }
    rewrite Hw. pose proof (table_E _ _ _ _ _ Hspec) as HE.
    rewrite decide_False by lia.
    eexists. split; [reflexivity|].
    rewrite <- list_fmap_compose. apply Forall2_fmap_r. apply Forall_Forall2_diag.
    apply Forall_forall. intros row Hrow. cbn.
    assert (Hlen : length row = cols input_ids).
    { unfold well_shaped in Hshape. rewrite Forall_forall in Hshape. apply Hshape, Hrow. }
    assert (Hrow_ids : Forall (fun id => id ∈ values vocab) row).
    { rewrite Forall_forall in Hids. apply Hids, Hrow. }
    destruct (reverse row) as [|last_id older_ids] eqn:Erev.
    { apply (f_equal length) in Erev. rewrite length_reverse in Erev. cbn in Erev. lia. }
    assert (Hrow_eq : row = reverse older_ids ++ [last_id]).
    { rewrite <- (reverse_involutive row), Erev, reverse_cons. reflexivity. }
    unfold emb. rewrite reverse_drop, Erev.
    replace (length row - (length row - K))%nat with (Datatypes.S (Nat.min K (length row) - 1)) by lia.
    cbn [take fmap list_fmap]. rewrite fmap_take.
    set (n := (Nat.min K (length row) - 1)%nat).
    assert (Hin_rev : Forall (fun id => id ∈ values vocab) (last_id :: older_ids)).
    { rewrite <- Erev. apply Forall_reverse, Hrow_ids. }
    apply Forall_cons in Hin_rev as [Hlast Holder].
    assert (Hkeys : forall id, id ∈ values vocab -> token_or_empty vocab id ∈ keys vocab).
    { intros id Hid. unfold keys. apply list_elem_of_fmap.
      exists (token_or_empty vocab id, id). split; [reflexivity|apply token_or_empty_in, Hid]. }
    change (fun id : Z => table_row P E stop_strings (token_or_empty vocab id))
      with (table_row P E stop_strings ∘ token_or_empty vocab).
    rewrite list_fmap_compose, <- fmap_take.
    rewrite <- HP', <- HE'.
    rewrite (row_decision vocab stop_strings self' Hn' Ht' Hspec'
               (token_or_empty vocab last_id) (token_or_empty vocab <$> older_ids) n).
    - assert (Htexts : row_texts vocab row
                       = normalized <$> (reverse (token_or_empty vocab <$> older_ids)
                                           ++ [token_or_empty vocab last_id])).
      { rewrite row_texts_tokens, Hrow_eq. f_equal. rewrite fmap_app, fmap_reverse. reflexivity. }
      rewrite Htexts. reflexivity.
    - apply Hkeys, Hlast.
    - apply Forall_fmap. eapply Forall_impl; [exact Holder|]. intros id Hid. apply Hkeys, Hid.
    - rewrite length_fmap. assert (Hlr : length row = Datatypes.S (length older_ids)).
      { rewrite Hrow_eq, length_app, length_reverse. cbn. lia. }
      unfold n. fold K in HK. rewrite <- HK. lia.
Qed.
End call.

(** ** Construction without assumptions on the vocabulary *)

Lemma get_matching_positions_struct (token_list : list pystr) (tok_indices : list Z)
    (stop_strings : list pystr) (tvp teo : dict pystr (dict Z (list Z))) :
  _stop_string_get_matching_positions token_list tok_indices stop_strings = Ok (tvp, teo) ->
  exists rl,
    tvp = per_stop_string (fun s => (stop_string_dicts token_list rl tok_indices s).1) stop_strings /\
    teo = per_stop_string (fun s => (stop_string_dicts token_list rl tok_indices s).2) stop_strings.
Proof.
  intros H. unfold _stop_string_get_matching_positions in H.
  apply bind_Ok in H as (rl & _ & H). exists rl. injection H as H. unfold per_stop_string.
  revert H. generalize (@nil (pystr * dict Z (list Z))) at 1 3.
  generalize (@nil (pystr * dict Z (list Z))) at 1 2.
  induction stop_strings as [|s ss IH]; intros a b H.
  - cbn in H. injection H as <- <-. split; reflexivity.
  - cbn [foldl] in H.
    destruct (stop_string_dicts token_list rl tok_indices s) as [vp eo] eqn:Ed.
    apply IH in H. cbn [foldl]. rewrite Ed. exact H.
Qed.

Lemma token_matches_empty_stop (token rft : pystr) : (token_matches token rft []).1 = [].
Proof.
  apply elem_of_nil_inv. intros x Hx. unfold token_matches in Hx.
  apply (proj1 (foldl_match_step _ _ _ [] [] x)) in Hx as [Hx|(Hr & Hpos & _)].
  - inversion Hx.
  - apply elem_of_range in Hr. unfold len in Hr. cbn in Hr. lia.
Qed.

Lemma stop_string_dicts_empty_stop (token_list rl : list pystr) (tok_indices : list Z) :
  (stop_string_dicts token_list rl tok_indices []).1 = [].
Proof.
  unfold stop_string_dicts. generalize (@nil (Z * list Z)) at 2 as d2.
  induction (zip3 token_list rl tok_indices) as [|[[token rft] id] l IH]; intros d2.
  - reflexivity.
  - cbn [foldl]. pose proof (token_matches_empty_stop token rft) as Hm.
    destruct (token_matches token rft []) as [mp pel]. cbn in Hm. subst mp. apply IH.
Qed.

Lemma value_lengths_nil (h : pystr -> dict Z (list Z)) (stop_strings : list pystr) :
  (forall s, s ∈ stop_strings -> h s = []) ->
  value_lengths (per_stop_string h stop_strings) = [].
Proof.
  intros Hh. apply elem_of_nil_inv. intros n Hn.
  apply elem_of_value_lengths in Hn as (s & inner & id & val & Hs & Hv & _).
  apply per_stop_string_elem_of in Hs as [Hs ->]. rewrite (Hh s Hs) in Hv. inversion Hv.
Qed.

Lemma create_embedding_vec_raises (token_list : list pystr) (tok_indices : list Z)
    (stop_strings : list pystr) :
  Forall (fun s => s = []) stop_strings \/ (token_list = [] /\ tok_indices = []) ->
  exists e, _stop_string_create_embedding_vec token_list tok_indices stop_strings = Raise e.
Proof.
  intros Hcase. unfold _stop_string_create_embedding_vec.
  destruct (_stop_string_get_matching_positions token_list tok_indices stop_strings)
    as [[tvp teo]|e] eqn:Egmp; [|exists e; reflexivity].
  apply get_matching_positions_struct in Egmp as (rl & -> & _).
  exists ValueError. cbn [mbind result_bind]. rewrite value_lengths_nil; [reflexivity|].
  intros s Hs. destruct Hcase as [Hall|[-> ->]].
  - rewrite Forall_forall in Hall. rewrite (Hall s Hs). apply stop_string_dicts_empty_stop.
  - reflexivity.
Qed.

Lemma create_embedding_vec_some_stop_string (token_list : list pystr) (tok_indices : list Z)
    (stop_strings : list pystr) (r : Tensor2 * nat * nat) :
  _stop_string_create_embedding_vec token_list tok_indices stop_strings = Ok r ->
  exists s, s ∈ stop_strings /\ s <> [].
Proof.
  intros H. destruct (decide (Forall (fun s : pystr => s = []) stop_strings)) as [Hall|Hex].
  - destruct (create_embedding_vec_raises token_list tok_indices stop_strings (or_introl Hall))
      as [e He]. congruence.
  - apply not_Forall_Exists in Hex; [|intros s; apply decide; apply _].
    apply Exists_exists in Hex as (s & Hs & Hne). exists s. auto.
Qed.

Lemma init_window_positive (tokenizer : PreTrainedTokenizerBase) (arg : stop_strings_arg)
    (self : StopStringCriteria.t) :
  StopStringCriteria.__init__ tokenizer arg = Ok self ->
  (1 <= StopStringCriteria.maximum_token_len self)%nat.
Proof.
  intros H. unfold StopStringCriteria.__init__ in H.
  apply bind_Ok in H as ([[t P] E] & Ht & H).
  apply bind_Ok in H as (K & HK & H). injection H as <-.
  cbn [StopStringCriteria.maximum_token_len].
  apply py_max_Ok in HK as [_ ->].
  apply create_embedding_vec_some_stop_string in Ht as (s & Hs & Hne).
  assert (length s <= max_list (length <$> match arg with OneString s => [s] | StringList l => l end))%nat.
  { apply max_list_elem_of_le. apply list_elem_of_fmap. exists s. auto. }
  assert (0 < length s)%nat by (destruct s; [congruence|cbn; lia]).
  apply (Nat.le_trans _ (length s)); [lia|exact H].
Qed.

(** ** When the construction succeeds *)

Lemma cleanup_token_nonempty (token : pystr) :
  token <> [] -> _cleanup_token token = Ok (normalized token).
Proof.
  intros Hne. unfold normalized. destruct (_cleanup_token token) as [t|e] eqn:Et; [reflexivity|].
  rewrite cleanup_token_cases in Et. destruct token; [congruence|].
  destruct (bool_decide _); discriminate.
Qed.

Lemma get_matching_positions_succeeds (vocab : list (pystr * Z)) (stop_strings : list pystr) :
  NoDup (values vocab) -> Forall (fun token => token <> []) (keys vocab) ->
  _stop_string_get_matching_positions (keys vocab) (values vocab) stop_strings
  = Ok (per_stop_string (fun s => entries_of (valid_positions_of s) vocab) stop_strings,
        per_stop_string (fun s => entries_of (end_overlaps_of s) vocab) stop_strings).
Proof.
  intros Hnd Htok.
  destruct (_stop_string_get_matching_positions (keys vocab) (values vocab) stop_strings)
    as [[tvp teo]|e] eqn:Egmp.
  - apply get_matching_positions_spec in Egmp as (_ & -> & ->); [reflexivity|exact Hnd].
  - exfalso. unfold _stop_string_get_matching_positions in Egmp.
    rewrite (mapM_Ok_fmap _ reversed_filtered) in Egmp; [discriminate|].
    eapply Forall_impl; [exact Htok|]. intros token Hne. cbn.
    rewrite (cleanup_token_nonempty token Hne). reflexivity.
Qed.

Lemma py_max_succeeds (l : list nat) : l <> [] -> py_max l = Ok (max_list l).
Proof. destruct l; [congruence|reflexivity]. Qed.

Lemma value_lengths_nonempty (f : pystr -> pystr -> list Z) (vocab : list (pystr * Z))
    (stop_strings : list pystr) :
  (exists s token id, s ∈ stop_strings /\ (token, id) ∈ vocab /\ f s token <> []) ->
  value_lengths (per_stop_string (fun s => entries_of (f s) vocab) stop_strings) <> [].
Proof.
  intros (s & token & id & Hs & Hin & Hne) Hnil.
  assert (Hl : length (f s token) ∈ value_lengths
                 (per_stop_string (fun s => entries_of (f s) vocab) stop_strings)).
  { apply elem_of_value_lengths. exists s, (entries_of (f s) vocab), id, (f s token). split.
    - apply dict_get_elem_of. apply (per_stop_string_get (fun s => entries_of (f s) vocab)), Hs.
    - split; [|reflexivity]. apply elem_of_entries_of. exists token. auto. }
  rewrite Hnil in Hl. inversion Hl.
Qed.

Lemma init_succeeds (vocab : list (pystr * Z)) (stop_strings : list pystr) :
  dense_vocab vocab -> Forall (fun token => token <> []) (keys vocab) ->
  (exists s token id, s ∈ stop_strings /\ (token, id) ∈ vocab /\ valid_positions_of s token <> []) ->
  (exists s token id, s ∈ stop_strings /\ (token, id) ∈ vocab /\ end_overlaps_of s token <> []) ->
  exists self, StopStringCriteria.__init__ (mkTokenizer vocab) (StringList stop_strings) = Ok self.
Proof.
  intros [Hnd Hrange] Htok Hpos Hend.
  unfold StopStringCriteria.__init__. cbn [get_vocab].
  unfold _stop_string_create_embedding_vec.
  rewrite (get_matching_positions_succeeds vocab stop_strings Hnd Htok). cbn [mbind result_bind].
  pose proof (value_lengths_nonempty valid_positions_of vocab stop_strings Hpos) as HneP.
  pose proof (value_lengths_nonempty end_overlaps_of vocab stop_strings Hend) as HneE.
  pose proof (py_max_succeeds _ HneP) as HP. pose proof (py_max_succeeds _ HneE) as HE.
  rewrite HP, HE. cbn [mbind result_bind].
  apply (max_width_bounds valid_positions_of) in HP as (_ & Hne & HPle & _).
  apply (max_width_bounds end_overlaps_of) in HE as (_ & _ & HEle & _).
  set (P := max_list (value_lengths (per_stop_string
               (fun s => entries_of (valid_positions_of s) vocab) stop_strings))) in *.
  set (E := max_list (value_lengths (per_stop_string
               (fun s => entries_of (end_overlaps_of s) vocab) stop_strings))) in *.
  assert (Hlk : length (keys vocab) = length vocab) by (unfold keys; apply length_fmap).
  destruct (fill_all vocab stop_strings P E Hnd Hrange HPle HEle
              (enumerate stop_strings)
              (Np.full (length (keys vocab)) (length stop_strings * (P + E) + 1) (-1))
              (fun _ => replicate (length stop_strings * (P + E) + 1) (-1)))
    as (gv' & Hf & _).
  - apply enumerate_rounds.
  - unfold Np.full. rewrite length_replicate. exact Hlk.
  - unfold Np.full. apply Forall_replicate, length_replicate.
  - intros token id Hin. unfold Np.full. apply lookup_replicate. split; [reflexivity|].
    rewrite Hlk. assert (0 <= id < len vocab); [|unfold len in *; lia].
    rewrite Forall_forall in Hrange. apply Hrange. unfold values.
    apply list_elem_of_fmap. exists (token, id). auto.
  - rewrite Hf. cbn [mbind result_bind].
    rewrite py_max_succeeds by (destruct stop_strings; [congruence|discriminate]).
    cbn [mbind result_bind]. eexists. reflexivity.
Qed.

(** ** The claims about the stop-string criteria *)

Lemma token_or_empty_unique (vocab : dict pystr Z) (token : pystr) (id : Z) :
  dense_vocab vocab -> (token, id) ∈ vocab -> token_or_empty vocab id = token.
Proof.
  intros [Hnd _] Hin. apply (vocab_unique vocab _ token id Hnd); [|exact Hin].
  apply token_or_empty_in. unfold values. apply list_elem_of_fmap. exists (token, id). auto.
Qed.

Lemma ends_at_end_in_last_token (s : pystr) (older : list pystr) (last : pystr) :
  last <> [] -> ends_at_sequence_end s (older ++ [last]) -> ends_in_last_token s (older ++ [last]).
Proof.
  intros Hne Hs. exists older, last, (length last). split; [reflexivity|]. split.
  - destruct last; [congruence|cbn; lia].
  - rewrite firstn_all. unfold ends_at_sequence_end in Hs.
    rewrite concat_app in Hs. cbn in Hs. rewrite app_nil_r in Hs. exact Hs.
Qed.

Lemma dense_small_vocab : dense_vocab small_vocab.
Proof.
  split.
  - apply (bool_decide_unpack _). vm_compute. exact I.
  - apply (bool_decide_unpack _). vm_compute. exact I.
Qed.

Lemma dense_banana_vocab : dense_vocab banana_vocab.
Proof.
  split.
  - apply (bool_decide_unpack _). vm_compute. exact I.
  - apply (bool_decide_unpack _). vm_compute. exact I.
Qed.

(** C1, as the specification states it, fails: the stop string ["stop"] is
    matched in ["st", "opera"], whose text ["stopera"] does not end with
    it. *)
Lemma match_with_overhang_after_the_stop_string :
  evaluate small_vocab [str "stop"] [0; 2] = Some [true] /\
  ~ (exists s, s ∈ [str "stop"] /\ ends_at_sequence_end s (row_texts small_vocab [0; 2])).
Proof.
  split; [vm_compute; reflexivity|].
  intros (s & Hs & [p Hp]). apply list_elem_of_singleton in Hs. subst s.
  assert (Ht : concat (row_texts small_vocab [0; 2]) = str "stopera") by (vm_compute; reflexivity).
  rewrite Ht in Hp.
  assert (Hl : length p = 3%nat).
  { apply (f_equal length) in Hp. rewrite length_app in Hp.
    change (length (str "stopera")) with 7%nat in Hp.
    change (length (str "stop")) with 4%nat in Hp. lia. }
  apply (f_equal (drop 3)) in Hp. rewrite drop_app_length' in Hp by (symmetry; exact Hl).
  vm_compute in Hp. discriminate.
Qed.

(** C1, amended: a row is stopped exactly when some stop string occurs in the
    concatenated normalized text of the row and that occurrence ends inside
    the last token; in particular when the text ends with a stop string. *)
Theorem call_stops_iff_stop_string_ends_in_last_token {Scores : Type}
    (vocab : dict pystr Z) (arg : stop_strings_arg) (self : StopStringCriteria.t)
    (input_ids : Tensor2) (scores : Scores) :
  dense_vocab vocab ->
  StopStringCriteria.__init__ (mkTokenizer vocab) arg = Ok self ->
  history_of vocab input_ids ->
  exists bs,
    (StopStringCriteria.__call__ self input_ids scores).1
    = Ok (mkTensor1 (device2 input_ids) bs) /\
    Forall2 (fun row (b : bool) =>
               (b = true <-> exists s, s ∈ stop_strings_of arg /\
                                       ends_in_last_token s (row_texts vocab row)) /\
               ((exists s, s ∈ stop_strings_of arg /\
                           ends_at_sequence_end s (row_texts vocab row)) -> b = true))
            (rows input_ids) bs.
Proof.
  intros Hdense Hinit (Hshape & Hcols & Hids).
  destruct (call_decides vocab arg self Hdense Hinit input_ids scores Hshape Hcols Hids)
    as (bs & Hcall & HF).
  exists bs. split; [exact Hcall|].
  destruct (init_spec vocab arg self Hdense Hinit) as (_ & _ & _ & _ & Hspec).
  pose proof (table_tokens _ _ _ _ _ Hspec) as Htok.
  assert (Hrows : Forall (fun row => exists older last,
                            row_texts vocab row = older ++ [last] /\ last <> [])
                         (rows input_ids)).
  { apply Forall_forall. intros row Hrow.
    assert (Hlen : length row = cols input_ids).
    { unfold well_shaped in Hshape. rewrite Forall_forall in Hshape. apply Hshape, Hrow. }
    assert (Hrow_ids : Forall (fun id => id ∈ values vocab) row).
    { rewrite Forall_forall in Hids. apply Hids, Hrow. }
    destruct (reverse row) as [|last_id older_ids] eqn:Erev.
    { apply (f_equal length) in Erev. rewrite length_reverse in Erev. cbn in Erev. lia. }
    assert (Hrow_eq : row = reverse older_ids ++ [last_id]).
    { rewrite <- (reverse_involutive row), Erev, reverse_cons. reflexivity. }
    exists (row_texts vocab (reverse older_ids)), (normalized (token_or_empty vocab last_id)).
    split.
    - rewrite Hrow_eq, !row_texts_tokens, !fmap_app. reflexivity.
    - intros Hnil. apply (f_equal length) in Hnil. rewrite length_normalized in Hnil.
      assert (Hin : last_id ∈ values vocab).
      { rewrite Hrow_eq in Hrow_ids. apply Forall_app in Hrow_ids as [_ Hl].
        apply Forall_cons in Hl as [Hl _]. exact Hl. }
      apply token_or_empty_in in Hin.
      assert (Hk : token_or_empty vocab last_id ∈ keys vocab).
      { unfold keys. apply list_elem_of_fmap. exists (token_or_empty vocab last_id, last_id). auto. }
      rewrite Forall_forall in Htok. apply (Htok _ Hk).
      destruct (token_or_empty vocab last_id); [reflexivity|discriminate]. }
  clear -HF Hrows. induction HF as [|row b rows bs Hb HF IH]; [constructor|].
  apply Forall_cons in Hrows as [(older & last & Heq & Hne) Hrows].
  constructor; [|apply IH, Hrows]. split; [exact Hb|].
  intros (s & Hs & Hend). apply Hb. exists s. split; [exact Hs|].
  rewrite Heq in *. apply ends_at_end_in_last_token; assumption.
Qed.

Lemma call_stops_iff_stop_string_ends_in_last_token_witness :
  exists self bs,
    StopStringCriteria.__init__ (mkTokenizer small_vocab) (OneString (str "stop")) = Ok self /\
    (StopStringCriteria.__call__ self (mkTensor2 cpu 2 [[0; 2]; [0; 1]]) tt).1
    = Ok (mkTensor1 cpu bs) /\
    Forall2 (fun row (b : bool) =>
               (b = true <-> exists s, s ∈ [str "stop"] /\
                                       ends_in_last_token s (row_texts small_vocab row)) /\
               ((exists s, s ∈ [str "stop"] /\
                           ends_at_sequence_end s (row_texts small_vocab row)) -> b = true))
            [[0; 2]; [0; 1]] bs.
Proof.
  eexists.
  assert (Hinit : StopStringCriteria.__init__ (mkTokenizer small_vocab) (OneString (str "stop"))
                  = Ok ?[self]) by (vm_compute; reflexivity).
  destruct (call_stops_iff_stop_string_ends_in_last_token
              small_vocab (OneString (str "stop")) _
              (mkTensor2 cpu 2 [[0; 2]; [0; 1]]) tt dense_small_vocab Hinit)
    as (bs & Hcall & HF).
  - split; [repeat constructor|]. split; [cbn; lia|].
    apply (bool_decide_unpack _). vm_compute. exact I.
  - exists bs. split; [exact Hinit|]. split; [exact Hcall|exact HF].
Defined.

Lemma one_row_history (vocab : dict pystr Z) (ids : list Z) :
  ids <> [] -> Forall (fun id => id ∈ values vocab) ids -> history_of vocab (one_row ids).
Proof.
  intros Hne Hids. split; [|split].
  - repeat constructor.
  - cbn. destruct ids; [congruence|cbn; lia].
  - repeat constructor. exact Hids.
Qed.

Lemma call_one_row {Scores : Type} (vocab : dict pystr Z) (arg : stop_strings_arg)
    (self : StopStringCriteria.t) (ids : list Z) (scores : Scores) (s : pystr) :
  dense_vocab vocab ->
  StopStringCriteria.__init__ (mkTokenizer vocab) arg = Ok self ->
  ids <> [] -> Forall (fun id => id ∈ values vocab) ids ->
  s ∈ stop_strings_of arg -> ends_in_last_token s (row_texts vocab ids) ->
  (StopStringCriteria.__call__ self (one_row ids) scores).1 = Ok (mkTensor1 cpu [true]).
Proof.
  intros Hdense Hinit Hne Hids Hs Hend.
  destruct (one_row_history vocab ids Hne Hids) as (Hshape & Hcols & Hrows).
  destruct (call_decides vocab arg self Hdense Hinit (one_row ids) scores Hshape Hcols Hrows)
    as (bs & Hcall & HF).
  rewrite Hcall. cbn in HF. inversion HF as [|row b rows' bs' Hb HF']; subst.
  inversion HF'; subst. f_equal. f_equal. f_equal. apply Hb. exists s. auto.
Qed.

Lemma call_one_row_false {Scores : Type} (vocab : dict pystr Z) (arg : stop_strings_arg)
    (self : StopStringCriteria.t) (ids : list Z) (scores : Scores) :
  dense_vocab vocab ->
  StopStringCriteria.__init__ (mkTokenizer vocab) arg = Ok self ->
  ids <> [] -> Forall (fun id => id ∈ values vocab) ids ->
  (forall s, s ∈ stop_strings_of arg -> ~ ends_in_last_token s (row_texts vocab ids)) ->
  (StopStringCriteria.__call__ self (one_row ids) scores).1 = Ok (mkTensor1 cpu [false]).
Proof.
  intros Hdense Hinit Hne Hids Hnone.
  destruct (one_row_history vocab ids Hne Hids) as (Hshape & Hcols & Hrows).
  destruct (call_decides vocab arg self Hdense Hinit (one_row ids) scores Hshape Hcols Hrows)
    as (bs & Hcall & HF).
  rewrite Hcall. cbn in HF. inversion HF as [|row b rows' bs' Hb HF']; subst.
  inversion HF'; subst. f_equal. f_equal. f_equal.
  destruct b; [|reflexivity]. exfalso.
  destruct (proj1 Hb eq_refl) as (s & Hs & Hend). exact (Hnone s Hs Hend).
Qed.

Lemma banana_not_completed (k : nat) (older : list pystr) (last : pystr) :
  (older = [] /\ last = str "nana") \/ (older = [str "ba"] /\ last = str "bana") ->
  ~ str "banana" `suffix_of` (concat older ++ take k last).
Proof.
  intros Hcase [p Hp].
  assert (Hlen : length (concat older ++ take k last) = (length p + 6)%nat).
  { rewrite Hp, length_app. reflexivity. }
  destruct Hcase as [[-> ->]|[-> ->]].
  - cbn [concat app] in Hlen. rewrite length_take in Hlen.
    change (length (str "nana")) with 4%nat in Hlen. lia.
  - cbn [concat] in Hlen, Hp. rewrite app_nil_r in Hlen, Hp.
    rewrite length_app, length_take in Hlen.
    change (length (str "ba")) with 2%nat in Hlen.
    change (length (str "bana")) with 4%nat in Hlen.
    assert (Hk : (4 <= k)%nat) by lia.
    assert (Hpnil : p = []) by (destruct p; [reflexivity|cbn in Hlen; lia]).
    subst p. rewrite take_ge in Hp by (change (length (str "bana")) with 4%nat; lia).
    discriminate Hp.
Qed.

(** C3: with the stop string ["banana"], any vocabulary that has the tokens
    ["ba"], ["bana"] and ["nana"] stops both on ["ba", "nana"] and on
    ["bana", "nana"], and on neither ["nana"] alone nor ["ba", "bana"]. For
    ["nana"] the precomputation records the two end overlaps 2 and 4, and
    the two matches go through different ones: ["ba"] continues at position
    4 only, ["bana"] at position 2 only. *)
Theorem banana_matches_under_both_tokenizations {Scores : Type}
    (vocab : dict pystr Z) (self : StopStringCriteria.t) (a b c : Z) (scores : Scores) :
  dense_vocab vocab ->
  (str "ba", a) ∈ vocab -> (str "bana", b) ∈ vocab -> (str "nana", c) ∈ vocab ->
  StopStringCriteria.__init__ (mkTokenizer vocab) (OneString (str "banana")) = Ok self ->
  (StopStringCriteria.__call__ self (one_row [a; c]) scores).1 = Ok (mkTensor1 cpu [true]) /\
  (StopStringCriteria.__call__ self (one_row [b; c]) scores).1 = Ok (mkTensor1 cpu [true]) /\
  (StopStringCriteria.__call__ self (one_row [c]) scores).1 = Ok (mkTensor1 cpu [false]) /\
  (StopStringCriteria.__call__ self (one_row [a; b]) scores).1 = Ok (mkTensor1 cpu [false]) /\
  (token_matches (str "nana") (reverse (str "nana")) (str "banana")).2 = [2; 4] /\
  (token_matches (str "ba") (reverse (str "ba")) (str "banana")).1 = [4] /\
  (token_matches (str "bana") (reverse (str "bana")) (str "banana")).1 = [2] /\
  rows (StopStringCriteria.embedding_vec self) !! Z.to_nat c
  = Some (table_row (StopStringCriteria.max_valid_positions self)
                    (StopStringCriteria.max_valid_end_lens self)
                    [str "banana"] (str "nana")).
Proof.
  intros Hdense Ha Hb Hc Hinit.
  assert (Hval : forall token id, (token, id) ∈ vocab -> id ∈ values vocab).
  { intros token id Hin. unfold values. apply list_elem_of_fmap. exists (token, id). auto. }
  assert (Hta : token_or_empty vocab a = str "ba") by (apply token_or_empty_unique; auto).
  assert (Htb : token_or_empty vocab b = str "bana") by (apply token_or_empty_unique; auto).
  assert (Htc : token_or_empty vocab c = str "nana") by (apply token_or_empty_unique; auto).
  assert (Hstop : forall s, s ∈ stop_strings_of (OneString (str "banana")) -> s = str "banana").
  { intros s Hs. cbn in Hs. apply list_elem_of_singleton in Hs. exact Hs. }
  repeat apply conj.
  - apply (call_one_row vocab _ self [a; c] scores (str "banana") Hdense Hinit).
    + discriminate.
    + repeat constructor; eauto.
    + left.
    + rewrite row_texts_tokens. cbn [fmap list_fmap]. rewrite Hta, Htc.
      exists [str "ba"], (str "nana"), 4%nat. split; [reflexivity|]. split; [cbn; lia|].
      exists []. vm_compute. reflexivity.
  - apply (call_one_row vocab _ self [b; c] scores (str "banana") Hdense Hinit).
    + discriminate.
    + repeat constructor; eauto.
    + left.
    + rewrite row_texts_tokens. cbn [fmap list_fmap]. rewrite Htb, Htc.
      exists [str "bana"], (str "nana"), 2%nat. split; [reflexivity|]. split; [cbn; lia|].
      exists []. vm_compute. reflexivity.
  - apply (call_one_row_false vocab _ self [c] scores Hdense Hinit).
    + discriminate.
    + repeat constructor; eauto.
    + intros s Hs. rewrite (Hstop s Hs). rewrite row_texts_tokens. cbn [fmap list_fmap].
      rewrite Htc. intros (older & last & k & Ht & _ & Hsuf).
      apply (app_inj_tail []) in Ht as [<- <-].
      apply (banana_not_completed k [] (str "nana")); [left; auto|exact Hsuf].
  - apply (call_one_row_false vocab _ self [a; b] scores Hdense Hinit).
    + discriminate.
    + repeat constructor; eauto.
    + intros s Hs. rewrite (Hstop s Hs). rewrite row_texts_tokens. cbn [fmap list_fmap].
      rewrite Hta, Htb. intros (older & last & k & Ht & _ & Hsuf).
      apply (app_inj_tail [normalized (str "ba")]) in Ht as [<- <-].
      apply (banana_not_completed k [str "ba"] (str "bana")); [right; auto|exact Hsuf].
  - vm_compute. reflexivity.
  - vm_compute. reflexivity.
  - vm_compute. reflexivity.
  - destruct (init_spec vocab _ self Hdense Hinit) as (_ & _ & _ & _ & Hspec).
    apply (table_rows _ _ _ _ _ Hspec). exact Hc.
Qed.

Lemma banana_matches_under_both_tokenizations_witness :
  exists self,
    StopStringCriteria.__init__ (mkTokenizer banana_vocab) (OneString (str "banana")) = Ok self /\
    (StopStringCriteria.__call__ self (one_row [0; 2]) tt).1 = Ok (mkTensor1 cpu [true]) /\
    (StopStringCriteria.__call__ self (one_row [1; 2]) tt).1 = Ok (mkTensor1 cpu [true]) /\
    (StopStringCriteria.__call__ self (one_row [2]) tt).1 = Ok (mkTensor1 cpu [false]) /\
    (StopStringCriteria.__call__ self (one_row [0; 1]) tt).1 = Ok (mkTensor1 cpu [false]).
Proof.
  eexists.
  assert (Hinit : StopStringCriteria.__init__ (mkTokenizer banana_vocab)
                    (OneString (str "banana")) = Ok ?[self]) by (vm_compute; reflexivity).
  split; [exact Hinit|].
  assert (Ha : (str "ba", 0) ∈ banana_vocab) by left.
  assert (Hb : (str "bana", 1) ∈ banana_vocab) by (right; left).
  assert (Hc : (str "nana", 2) ∈ banana_vocab) by (right; right; left).
  destruct (banana_matches_under_both_tokenizations banana_vocab _ 0 1 2 tt
              dense_banana_vocab Ha Hb Hc Hinit) as (H1 & H2 & H3 & H4 & _).
  split; [exact H1|]. split; [exact H2|]. split; [exact H3|exact H4].
Defined.

(** C4: the result of a call depends on the input only through its trailing
    [K] columns, [K] the length of the longest stop string. *)
Theorem call_depends_on_trailing_columns {Scores1 Scores2 : Type}
    (tokenizer : PreTrainedTokenizerBase) (arg : stop_strings_arg)
    (self : StopStringCriteria.t) (ids1 ids2 : Tensor2)
    (scores1 : Scores1) (scores2 : Scores2) :
  StopStringCriteria.__init__ tokenizer arg = Ok self ->
  StopStringCriteria.maximum_token_len self = max_list (length <$> stop_strings_of arg) /\
  (trailing_columns (StopStringCriteria.maximum_token_len self) ids1
   = trailing_columns (StopStringCriteria.maximum_token_len self) ids2 ->
   (StopStringCriteria.__call__ self ids1 scores1).1
   = (StopStringCriteria.__call__ self ids2 scores2).1).
Proof.
  intros Hinit. split.
  - unfold StopStringCriteria.__init__ in Hinit.
    apply bind_Ok in Hinit as ([[t P] E] & _ & H).
    apply bind_Ok in H as (K & HK & H). injection H as <-. cbn.
    apply py_max_Ok in HK as [_ ->]. destruct arg; reflexivity.
  - intros Heq. pose proof (init_window_positive tokenizer arg self Hinit) as HK.
    unfold StopStringCriteria.__call__. cbn [fst StopStringCriteria.maximum_token_len
      StopStringCriteria.embedding_vec StopStringCriteria.max_valid_positions
      StopStringCriteria.num_stop_strings].
    assert (Hlast : forall t, last_cols (StopStringCriteria.maximum_token_len self) t
                              = trailing_columns (StopStringCriteria.maximum_token_len self) t).
    { intros t. destruct (StopStringCriteria.maximum_token_len self); [lia|reflexivity]. }
    rewrite !Hlast, Heq.
    assert (Hdev : device2 ids1 = device2 ids2) by exact (f_equal device2 Heq).
    rewrite Hdev. reflexivity.
Qed.

Lemma call_depends_on_trailing_columns_witness :
  exists self,
    StopStringCriteria.__init__ (mkTokenizer small_vocab) (OneString (str "stop")) = Ok self /\
    StopStringCriteria.maximum_token_len self = 4%nat /\
    (StopStringCriteria.__call__ self (mkTensor2 cpu 6 [[7; 7; 0; 1; 0; 2]]) tt).1
    = (StopStringCriteria.__call__ self (mkTensor2 cpu 5 [[1; 0; 1; 0; 2]]) 0%nat).1.
Proof.
  eexists.
  assert (Hinit : StopStringCriteria.__init__ (mkTokenizer small_vocab) (OneString (str "stop"))
                  = Ok ?[self]) by (vm_compute; reflexivity).
  split; [exact Hinit|].
  destruct (call_depends_on_trailing_columns (mkTokenizer small_vocab) (OneString (str "stop")) _
              (mkTensor2 cpu 6 [[7; 7; 0; 1; 0; 2]]) (mkTensor2 cpu 5 [[1; 0; 1; 0; 2]])
              tt 0%nat Hinit) as [HK Hcall].
  split; [exact HK|]. apply Hcall. reflexivity.
Defined.

(** C6, as the specification states it, fails: an empty stop string next to
    a usable one is accepted, and a table is built. *)
Lemma empty_stop_string_is_accepted :
  exists self,
    StopStringCriteria.__init__ (mkTokenizer small_vocab) (StringList [str "stop"; []]) = Ok self.
Proof. eexists. vm_compute. reflexivity. Qed.

(** C6, amended: the construction raises, and returns no table, when the
    vocabulary is empty or when every stop string is the empty string. *)
Theorem init_raises_without_tokens_or_stop_text
    (vocab : dict pystr Z) (arg : stop_strings_arg) :
  vocab = [] \/ Forall (fun s => s = []) (stop_strings_of arg) ->
  exists e, StopStringCriteria.__init__ (mkTokenizer vocab) arg = Raise e.
Proof.
  intros Hcase. unfold StopStringCriteria.__init__. cbn [get_vocab].
  fold (stop_strings_of arg).
  destruct (create_embedding_vec_raises (keys vocab) (values vocab) (stop_strings_of arg))
    as [e He].
  - destruct Hcase as [->|Hall]; [right; split; reflexivity|left; exact Hall].
  - exists e. rewrite He. reflexivity.
Qed.

Lemma init_raises_without_tokens_or_stop_text_witness :
  exists e, StopStringCriteria.__init__ (mkTokenizer small_vocab) (StringList [[]; []]) = Raise e.
Proof.
  apply init_raises_without_tokens_or_stop_text. right. repeat constructor.
Defined.

Lemma init_raises_on_empty_vocabulary (arg : stop_strings_arg) :
  StopStringCriteria.__init__ (mkTokenizer []) arg = Raise ValueError.
Proof.
  unfold StopStringCriteria.__init__, _stop_string_create_embedding_vec. cbn [get_vocab].
  fold (stop_strings_of arg).
  destruct (_stop_string_get_matching_positions (keys []) (values []) (stop_strings_of arg))
    as [[tvp teo]|e] eqn:Egmp; [|discriminate].
  apply get_matching_positions_struct in Egmp as (rl & -> & _).
  cbn [mbind result_bind]. rewrite value_lengths_nil; [reflexivity|]. intros s _. reflexivity.
Qed.

Lemma xyz_unreachable : unreachable small_vocab (str "xyz").
Proof.
  intros token id Hin. unfold small_vocab in Hin.
  repeat (apply elem_of_cons in Hin as [[= -> ->]|Hin]; [split; vm_compute; reflexivity|]).
  inversion Hin.
Qed.

(** C7, as the specification states it, fails: a stop string that no token
    aligns with makes the construction raise when it is the only one. *)
Lemma lone_unreachable_stop_string_raises :
  unreachable small_vocab (str "xyz") /\
  StopStringCriteria.__init__ (mkTokenizer small_vocab) (OneString (str "xyz"))
  = Raise ValueError.
Proof. split; [exact xyz_unreachable|vm_compute; reflexivity]. Qed.

Lemma unreachable_never_ends_in_last_token (vocab : dict pystr Z) (s : pystr) (ids : list Z) :
  s <> [] -> unreachable vocab s -> Forall (fun id => id ∈ values vocab) ids ->
  ~ ends_in_last_token s (row_texts vocab ids).
Proof.
  intros Hne Hun Hids Hend.
  destruct (reverse ids) as [|last_id older_ids] eqn:Erev.
  { apply (f_equal reverse) in Erev. rewrite reverse_involutive in Erev. subst ids.
    destruct Hend as (o & l & k & Heq & _). cbn in Heq. destruct o; discriminate. }
  assert (Hrow_eq : ids = reverse older_ids ++ [last_id]).
  { rewrite <- (reverse_involutive ids), Erev, reverse_cons. reflexivity. }
  rewrite row_texts_tokens, Hrow_eq, fmap_app, fmap_reverse in Hend. cbn [fmap list_fmap] in Hend.
  apply ends_in_last_token_spec in Hend.
  apply (last_token_spec 0) in Hend as (x & Hx & _); [|destruct s; [congruence|cbn; lia]].
  assert (Hin : last_id ∈ values vocab).
  { rewrite Hrow_eq in Hids. apply Forall_app in Hids as [_ Hl].
    apply Forall_cons in Hl as [Hl _]. exact Hl. }
  apply token_or_empty_in in Hin. destruct (Hun _ _ Hin) as [_ He].
  rewrite He in Hx. inversion Hx.
Qed.

(** C7, amended: for a vocabulary whose ids are the distinct row indices
    and a non-empty stop string that aligns with no token, the construction
    succeeds whenever it succeeds for the remaining stop strings, and the two
    objects decide every history alike: the stop string never matches, the
    others are not affected. It succeeds only then: the stop string adds
    nothing that the construction could build on. The result of [__init__]
    is the object or an exception; there is no warning in between. *)
Theorem unreachable_stop_string_is_ignored {Scores : Type}
    (vocab : dict pystr Z) (stop_strings : list pystr) (s : pystr) :
  dense_vocab vocab -> s ∈ stop_strings -> s <> [] -> unreachable vocab s ->
  let remaining := filter (fun x => x <> s) stop_strings in
  (forall self',
      StopStringCriteria.__init__ (mkTokenizer vocab) (StringList remaining) = Ok self' ->
      exists self,
        StopStringCriteria.__init__ (mkTokenizer vocab) (StringList stop_strings) = Ok self /\
        forall (input_ids : Tensor2) (scores : Scores),
          history_of vocab input_ids ->
          (StopStringCriteria.__call__ self input_ids scores).1
          = (StopStringCriteria.__call__ self' input_ids scores).1) /\
  (forall self,
      StopStringCriteria.__init__ (mkTokenizer vocab) (StringList stop_strings) = Ok self ->
      exists self',
        StopStringCriteria.__init__ (mkTokenizer vocab) (StringList remaining) = Ok self').
Proof.
  intros Hdense Hs Hne Hun remaining. split.
  - intros self' Hinit'.
    destruct (init_spec vocab _ self' Hdense Hinit') as (_ & _ & _ & _ & Hspec').
    cbn zeta in Hspec'.
    destruct (init_succeeds vocab stop_strings Hdense (table_tokens _ _ _ _ _ Hspec'))
      as [self Hinit].
    + destruct (table_some_position _ _ _ _ _ Hspec') as (s1 & token & id & Hs1 & Hin & Hv).
      exists s1, token, id. split; [|auto]. apply list_elem_of_filter in Hs1. tauto.
    + destruct (table_some_overlap _ _ _ _ _ Hspec') as (s1 & token & id & Hs1 & Hin & Hv).
      exists s1, token, id. split; [|auto]. apply list_elem_of_filter in Hs1. tauto.
    + exists self. split; [exact Hinit|]. intros input_ids scores (Hshape & Hcols & Hids).
      destruct (call_decides vocab _ self Hdense Hinit input_ids scores Hshape Hcols Hids)
        as (bs & -> & HF).
      destruct (call_decides vocab _ self' Hdense Hinit' input_ids scores Hshape Hcols Hids)
        as (bs' & -> & HF').
      f_equal. f_equal. clear -HF HF' Hids Hne Hun.
      revert bs' HF'. induction HF as [|row b rows bs Hb HF IH]; intros bs' HF'.
      * inversion HF'. reflexivity.
      * inversion HF' as [|? b' ? bs'' Hb' HF'']; subst.
        apply Forall_cons in Hids as [Hrow Hids]. f_equal; [|apply IH; assumption].
        assert (Hiff : b = true <-> b' = true).
        { rewrite Hb, Hb'. split.
          - intros (s1 & Hs1 & Hend). exists s1. split; [|exact Hend].
            apply list_elem_of_filter. split; [|exact Hs1]. intros ->.
            apply (unreachable_never_ends_in_last_token vocab s row Hne Hun Hrow Hend).
          - intros (s1 & Hs1 & Hend). exists s1. split; [|exact Hend].
            apply list_elem_of_filter in Hs1. tauto. }
        destruct b, b'; try reflexivity; [exfalso|exfalso].
        -- assert (false = true) by (apply Hiff; reflexivity). discriminate.
        -- assert (false = true) by (apply Hiff; reflexivity). discriminate.
  - intros self Hinit.
    destruct (init_spec vocab _ self Hdense Hinit) as (_ & _ & _ & _ & Hspec).
    cbn zeta in Hspec.
    apply (init_succeeds vocab remaining Hdense (table_tokens _ _ _ _ _ Hspec)).
    + destruct (table_some_position _ _ _ _ _ Hspec) as (s1 & token & id & Hs1 & Hin & Hv).
      exists s1, token, id. split; [|auto]. apply list_elem_of_filter. split; [|exact Hs1].
      intros ->. destruct (Hun _ _ Hin) as [Hp _]. congruence.
    + destruct (table_some_overlap _ _ _ _ _ Hspec) as (s1 & token & id & Hs1 & Hin & Hv).
      exists s1, token, id. split; [|auto]. apply list_elem_of_filter. split; [|exact Hs1].
      intros ->. destruct (Hun _ _ Hin) as [_ He]. congruence.
Qed.

Lemma unreachable_stop_string_is_ignored_witness :
  exists self self',
    StopStringCriteria.__init__ (mkTokenizer small_vocab) (StringList [str "stop"]) = Ok self' /\
    StopStringCriteria.__init__ (mkTokenizer small_vocab)
      (StringList [str "stop"; str "xyz"]) = Ok self /\
    (StopStringCriteria.__call__ self (one_row [0; 1]) tt).1
    = (StopStringCriteria.__call__ self' (one_row [0; 1]) tt).1.
Proof.
  assert (Hinit' : StopStringCriteria.__init__ (mkTokenizer small_vocab) (StringList [str "stop"])
                   = Ok ?[self']) by (vm_compute; reflexivity).
  assert (Hs : str "xyz" ∈ [str "stop"; str "xyz"]) by (right; left).
  assert (Hne : str "xyz" <> []) by discriminate.
  destruct (unreachable_stop_string_is_ignored (Scores := unit) small_vocab
              [str "stop"; str "xyz"] (str "xyz") dense_small_vocab Hs Hne
              xyz_unreachable) as [Hadd _].
  destruct (Hadd _ Hinit') as (self & Hinit & Hcall).
  exists self. eexists. split; [exact Hinit'|]. split; [exact Hinit|].
  apply Hcall. apply one_row_history; [discriminate|].
  apply (bool_decide_unpack _). vm_compute. exact I.
Defined.

(** C8, as the specification states it, fails: on a batch without columns
    the call raises instead of returning false. *)
Lemma call_without_columns_raises_on_example :
  exists self,
    StopStringCriteria.__init__ (mkTokenizer small_vocab) (OneString (str "stop")) = Ok self /\
    (StopStringCriteria.__call__ self (no_columns cpu 2) tt).1 = Raise IndexError.
Proof. eexists. split; vm_compute; reflexivity. Qed.

Section criteria_list.
Context {Scores : Type}.
Implicit Types (self : StoppingCriteriaList.t Scores) (acc r : Tensor1 bool).

Lemma lookup_total_zip_with_orb (l k : list bool) (j : nat) :
    length l = length k -> (j < length l)%nat ->
    zip_with orb l k !!! j = (l !!! j) || (k !!! j).
Proof.
    intros Hlen Hj.
    destruct (lookup_lt_is_Some_2 l j Hj) as [x Hx].
    destruct (lookup_lt_is_Some_2 k j ltac:(lia)) as [y Hy].
    rewrite (list_lookup_total_correct _ _ _ Hx), (list_lookup_total_correct _ _ _ Hy).
    apply list_lookup_total_correct. rewrite lookup_zip_with, Hx. cbn. rewrite Hy. reflexivity.
Qed.

Lemma loop_accumulates self input_ids scores results acc :
    Forall2 (returns input_ids scores) self results ->
    device1 acc = device2 input_ids ->
    length (elems acc) = length (rows input_ids) ->
    (StoppingCriteriaList.loop self input_ids scores acc).1
    = Ok (mkTensor1 (device2 input_ids)
            ((fun j : nat => (elems acc !!! j) || existsb (fun r => elems r !!! j) results)
               <$> seq 0 (length (rows input_ids)))).
Proof.
    intros HF. revert acc. induction HF as [|c r self results (Hc & Hd & Hl) HF IH];
      intros acc Hdev Hlen.
    - cbn. f_equal. destruct acc as [d l]; cbn in *. subst d. f_equal.
      apply list_eq_same_length with (length l).
      + rewrite length_fmap, length_seq. lia.
      + reflexivity.
      + intros i x y Hi Hx Hy. rewrite list_lookup_fmap, lookup_seq_lt in Hy by lia.
        cbn in Hy. rewrite orb_false_r in Hy. rewrite (list_lookup_total_correct _ _ _ Hx) in Hy.
        congruence.
    - cbn [StoppingCriteriaList.loop].
      destruct (StoppingCriteriaList.call_member c input_ids scores) as [rc c'] eqn:E.
      cbn in Hc. subst rc. cbn [mbind result_bind].
      unfold StoppingCriteriaList.or_.
      rewrite decide_True by congruence. rewrite decide_True by congruence.
      specialize (IH (mkTensor1 (device1 acc) (zip_with orb (elems acc) (elems r)))).
      destruct (StoppingCriteriaList.loop self input_ids scores _) as [res rest'] eqn:E2.
      cbn [fst] in *. rewrite IH.
      + f_equal. f_equal. apply list_fmap_ext. intros i j Hj.
        apply lookup_seq in Hj as [-> Hj]. cbn.
        rewrite lookup_total_zip_with_orb by lia. rewrite orb_assoc. reflexivity.
      + cbn. exact Hdev.
      + cbn. rewrite length_zip_with. lia.
Qed.

End criteria_list.


(** * Further properties of the code *)

(** ** Normalization and alignment of tokens *)

(** X1: [_cleanup_token] raises [IndexError] on the empty token and on no
    other; on any other token it returns a string of the same length that
    differs from the token at most in its first character, and that it
    returns unchanged when applied again. The offsets that the scan takes
    from the length of the raw token are therefore offsets into the
    normalized text as well. *)
Theorem cleanup_token_preserves_length (token : pystr) :
  match _cleanup_token token with
  | Ok t =>
      token <> [] /\ length t = length token /\ drop 1 t = drop 1 token /\
      _cleanup_token t = Ok t
  | Raise e => token = [] /\ e = IndexError
  end.
Proof.
  rewrite cleanup_token_cases. destruct token as [|c rest]; [split; reflexivity|].
  destruct (bool_decide _) eqn:Hc.
  - split; [discriminate|]. split; [reflexivity|]. split; [reflexivity|].
    rewrite cleanup_token_cases. rewrite bool_decide_eq_false_2; [reflexivity|].
    intros [H|H]; discriminate.
  - split; [discriminate|]. split; [reflexivity|]. split; [reflexivity|].
    rewrite cleanup_token_cases, Hc. reflexivity.
Qed.

Lemma suffix_same_length {A} (x y : list A) : x `suffix_of` y -> length x = length y -> x = y.
Proof.
  intros [k ->] Hl. rewrite length_app in Hl. destruct k; [reflexivity|cbn in Hl; lia].
Qed.

Lemma suffix_drop {A} (x : list A) n : drop n x `suffix_of` x.
Proof. exists (take n x). symmetry. apply take_drop. Qed.

Lemma drop_suffix_iff {A} (u t : list A) :
  drop (length u - length t) u `suffix_of` t <-> t `suffix_of` u \/ u `suffix_of` t.
Proof.
  split.
  - intros H. destruct (decide (length t <= length u)%nat) as [Hle|Hgt].
    + left. apply suffix_same_length in H; [|rewrite length_drop; lia].
      rewrite <- H. apply suffix_drop.
    + right. replace (length u - length t)%nat with 0%nat in H by lia. exact H.
  - intros [H|H].
    + destruct H as [k ->]. rewrite length_app.
      replace (length k + length t - length t)%nat with (length k) by lia.
      rewrite drop_app_length. reflexivity.
    + apply suffix_length in H as Hl.
      replace (length u - length t)%nat with 0%nat by lia. exact H.
Qed.

Lemma valid_positions_continues (s token : pystr) (i : Z) :
  i ∈ valid_positions_of s token
  <-> exists j : nat, i = Z.of_nat j /\ (0 < j < length s)%nat /\
                      fits_before s (normalized token) j.
Proof.
  rewrite valid_positions_of_spec. unfold fits_before.
  split; intros (j & -> & Hj & H); exists j; (split; [reflexivity|]); (split; [exact Hj|]); cbn zeta in *.
  - rewrite <- (length_normalized token) in H. apply drop_suffix_iff in H. exact H.
  - rewrite <- (length_normalized token). apply drop_suffix_iff. exact H.
Qed.

Lemma end_overlaps_completes (s token : pystr) (e : Z) :
  e ∈ end_overlaps_of s token
  <-> exists k : nat, (1 <= k <= length token)%nat /\ (k = length token -> s <> []) /\
                      ends_with_stop_string s (normalized token) k /\
                      e = Z.of_nat (Nat.min k (length s)).
Proof.
  rewrite end_overlaps_of_spec. unfold ends_with_stop_string.
  assert (Hne : forall k : nat, (k = length token -> (0 < length s)%nat) <-> (k = length token -> s <> [])).
  { intros k. split; intros H Hk; specialize (H Hk); destruct s; cbn in *; try lia; congruence. }
  split; intros (k & Hk & Hs & H & ->); exists k; (split; [exact Hk|]); (split; [apply Hne, Hs|]);
    (split; [|reflexivity]).
  - assert (Hl : length (take k (normalized token)) = k).
    { rewrite length_take, length_normalized. lia. }
    rewrite <- Hl in H at 1. apply drop_suffix_iff in H. tauto.
  - assert (Hl : length (take k (normalized token)) = k).
    { rewrite length_take, length_normalized. lia. }
    rewrite <- Hl at 1. apply drop_suffix_iff. tauto.
Qed.

Lemma dict_get_NoDup {K V} `{EqDecision K} (k : K) (v : V) (d : dict K V) :
  NoDup (keys d) -> (k, v) ∈ d -> dict_get k d = Ok v.
Proof.
  induction d as [|[k' v'] d IH]; cbn; intros Hnd Hin.
  - apply elem_of_nil in Hin. destruct Hin.
  - apply NoDup_cons in Hnd as [Hk' Hnd]. apply elem_of_cons in Hin as [[= -> ->]|Hin].
    + rewrite decide_True by reflexivity. reflexivity.
    + destruct (decide (k = k')) as [->|Hne].
      * exfalso. apply Hk'. unfold keys. apply list_elem_of_fmap. exists (k', v). auto.
      * apply IH; assumption.
Qed.

Lemma dict_get_missing {K V} `{EqDecision K} (k : K) (d : dict K V) :
  k ∉ keys d -> dict_get k d = Raise KeyError.
Proof.
  induction d as [|[k' v'] d IH]; cbn; intros Hk; [reflexivity|].
  apply not_elem_of_cons in Hk as [Hne Hk]. rewrite decide_False by exact Hne. apply IH, Hk.
Qed.

Lemma recorded_entries_of (f : pystr -> pystr -> list Z) (vocab : list (pystr * Z))
    (stop_strings : list pystr) (s token : pystr) (id : Z) :
  NoDup (values vocab) -> s ∈ stop_strings -> (token, id) ∈ vocab ->
  recorded (per_stop_string (fun s => entries_of (f s) vocab) stop_strings) s id
  = Ok (f s token).
Proof.
  intros Hnd Hs Hin. unfold recorded.
  rewrite (per_stop_string_get (fun s => entries_of (f s) vocab)) by exact Hs. cbn.
  f_equal. destruct (f s token) as [|x l] eqn:Hf.
  - rewrite dict_get_missing; [reflexivity|].
    intros Hk. unfold keys in Hk. apply list_elem_of_fmap in Hk as ([id' val] & Hid & Hk).
    cbn in Hid. subst id'. apply elem_of_entries_of in Hk as (token' & Hin' & -> & Hne).
    rewrite (vocab_unique vocab token' token id Hnd Hin' Hin) in Hne. congruence.
  - rewrite (dict_get_NoDup id (x :: l)); [reflexivity| |].
    + apply NoDup_keys_entries_of, Hnd.
    + apply elem_of_entries_of. exists token. rewrite Hf. split; [exact Hin|]. split; [reflexivity|discriminate].
Qed.


(** X3: under the same conditions the end overlaps recorded for a stop
    string and a token are the values [min(k, len(stop_string))] for the
    lengths [k] such that the first [k] characters of the normalized token
    and the stop string end together; the whole token ([k = len(token)]) is
    tried only against a stop string that is not empty. *)
Theorem end_overlaps_recorded (vocab : list (pystr * Z)) (stop_strings : list pystr)
    (s token : pystr) (id : Z) :
  NoDup (values vocab) -> Forall (fun token => token <> []) (keys vocab) ->
  s ∈ stop_strings -> (token, id) ∈ vocab ->
  exists token_valid_positions token_end_overlaps overlaps,
    _stop_string_get_matching_positions (keys vocab) (values vocab) stop_strings
    = Ok (token_valid_positions, token_end_overlaps) /\
    recorded token_end_overlaps s id = Ok overlaps /\
    forall e : Z,
      e ∈ overlaps <->
      exists k : nat, (1 <= k <= length token)%nat /\ (k = length token -> s <> []) /\
                      ends_with_stop_string s (normalized token) k /\
                      e = Z.of_nat (Nat.min k (length s)).
Proof.
  intros Hnd Htok Hs Hin. eexists _, _, _.
  split; [apply get_matching_positions_succeeds; [exact Hnd|exact Htok]|].
  split; [exact (recorded_entries_of end_overlaps_of vocab stop_strings s token id Hnd Hs Hin)|].
  intros e. apply end_overlaps_completes.
Qed.

Lemma small_vocab_tokens : Forall (fun token : pystr => token <> []) (keys small_vocab).
Proof. repeat constructor; discriminate. Qed.


Lemma end_overlaps_recorded_witness :
  exists token_valid_positions token_end_overlaps overlaps,
    _stop_string_get_matching_positions (keys small_vocab) (values small_vocab) [str "stop"]
    = Ok (token_valid_positions, token_end_overlaps) /\
    recorded token_end_overlaps (str "stop") 2 = Ok overlaps /\
    forall e : Z,
      e ∈ overlaps <->
      exists k : nat, (1 <= k <= length (str "opera"))%nat /\
                      (k = length (str "opera") -> str "stop" <> []) /\
                      ends_with_stop_string (str "stop") (normalized (str "opera")) k /\
                      e = Z.of_nat (Nat.min k (length (str "stop"))).
Proof.
  apply (end_overlaps_recorded small_vocab [str "stop"] (str "stop") (str "opera") 2).
  - apply dense_small_vocab.
  - apply small_vocab_tokens.
  - left.
  - right; right; left.
Defined.

(** ** The table for an arbitrary vocabulary *)

Lemma foldM_invariant {A B} (I : A -> Prop) (Q : B -> Prop) (f : A -> B -> result A) :
  (forall a b a', I a -> f a b = Ok a' -> I a' /\ Q b) ->
  forall l a a', I a -> foldM f a l = Ok a' -> I a' /\ Forall Q l.
Proof.
  intros Hf l. induction l as [|b l IH]; intros a a' Ha H; cbn in H.
  - injection H as <-. split; [exact Ha|constructor].
  - apply bind_Ok in H as (a1 & H1 & H). destruct (Hf a b a1 Ha H1) as [Ha1 Hb].
    destruct (IH a1 a' Ha1 H) as [Ha' Hl]. split; [exact Ha'|constructor; assumption].
Qed.

Lemma np_index_Ok (n : nat) (i : Z) (r : nat) :
  Np.index n i = Ok r -> - Z.of_nat n <= i < Z.of_nat n /\ (r < n)%nat.
Proof.
  unfold Np.index. repeat case_decide; intros [= <-]; lia.
Qed.

Lemma set_row_slice_length (start : nat) (vals row row' : list Z) :
  Np.set_row_slice start vals row = Ok row' -> length row' = length row.
Proof.
  unfold Np.set_row_slice. case_decide.
  - intros [= <-]. apply length_inserts.
  - destruct vals as [|v [|? ?]]; try discriminate. intros [= <-]. apply length_inserts.
Qed.

Lemma array_shape_insert (n w : nat) (gv : list (list Z)) (r : nat) (row : list Z) :
  array_shape n w gv -> length row = w -> array_shape n w (<[r := row]> gv).
Proof.
  intros [Hn Hw] Hrow. split; [rewrite length_insert; exact Hn|].
  apply Forall_insert; assumption.
Qed.

Lemma array_shape_row (n w : nat) (gv : list (list Z)) (r : nat) :
  array_shape n w gv -> (r < n)%nat -> length (gv !!! r) = w.
Proof.
  intros [Hn Hw] Hr. destruct (lookup_lt_is_Some_2 gv r) as [row Hrow]; [lia|].
  rewrite (list_lookup_total_correct _ _ _ Hrow).
  rewrite Forall_forall in Hw. apply Hw. eapply list_elem_of_lookup_2, Hrow.
Qed.

Lemma set_slice_shape (n w : nat) (gv gv' : list (list Z)) (i : Z) (start : nat) (vals : list Z) :
  array_shape n w gv -> Np.set_slice gv i start vals = Ok gv' ->
  array_shape n w gv' /\ - Z.of_nat n <= i < Z.of_nat n.
Proof.
  intros Hs H. unfold Np.set_slice in H.
  apply bind_Ok in H as (r & Hr & H). apply bind_Ok in H as (row & Hrow & [= <-]).
  apply np_index_Ok in Hr as [Hi Hr]. rewrite (proj1 Hs) in Hi, Hr. split; [|exact Hi].
  apply array_shape_insert; [exact Hs|].
  apply set_row_slice_length in Hrow. rewrite Hrow. eapply array_shape_row; eauto.
Qed.

Lemma set_item_shape (n w : nat) (gv gv' : list (list Z)) (i j v : Z) :
  array_shape n w gv -> Np.set_item gv i j v = Ok gv' ->
  array_shape n w gv' /\ - Z.of_nat n <= i < Z.of_nat n.
Proof.
  intros Hs H. unfold Np.set_item in H.
  apply bind_Ok in H as (r & Hr & H). apply bind_Ok in H as (c & Hc & [= <-]).
  apply np_index_Ok in Hr as [Hi Hr]. rewrite (proj1 Hs) in Hi, Hr. split; [|exact Hi].
  apply array_shape_insert; [exact Hs|].
  rewrite length_insert. eapply array_shape_row; eauto.
Qed.

Lemma fill_gather_vec_shape (n w : nat) (token_list : list pystr) (tok_indices : list Z)
    (stop_strings : list pystr) (tvp teo : dict pystr (dict Z (list Z))) (P E : nat)
    (gv gv' : list (list Z)) (round : nat * pystr) :
  array_shape n w gv ->
  fill_gather_vec token_list tok_indices stop_strings tvp teo P E gv round = Ok gv' ->
  array_shape n w gv' /\
  Forall (fun p : pystr * Z => row_index n p.2) (zip token_list tok_indices).
Proof.
  intros Hs H. destruct round as [i s]. unfold fill_gather_vec in H.
  apply bind_Ok in H as (positions & _ & H). apply bind_Ok in H as (end_lens & _ & H).
  apply bind_Ok in H as (gv1 & H1 & H). apply bind_Ok in H as (gv2 & H2 & H).
  eapply (foldM_invariant (array_shape n w) (fun _ => True)) in H1 as [Hs1 _]; [|
    intros a [id vals] a' Ha Hf; split; [eapply set_slice_shape; eauto|exact I] | exact Hs].
  eapply (foldM_invariant (array_shape n w) (fun _ => True)) in H2 as [Hs2 _]; [|
    intros a [id vals] a' Ha Hf; split; [eapply set_slice_shape; eauto|exact I] | exact Hs1].
  eapply (foldM_invariant (array_shape n w) (fun p : pystr * Z => row_index n p.2)) in H; [exact H| |exact Hs2].
  intros a [token id] a' Ha Hf. eapply set_item_shape; eauto.
Qed.

Lemma stop_string_dicts_values (token_list rl : list pystr) (tok_indices : list Z) (s : pystr) :
  Forall (fun p : Z * list Z => p.2 <> []) (stop_string_dicts token_list rl tok_indices s).1 /\
  Forall (fun p : Z * list Z => p.2 <> []) (stop_string_dicts token_list rl tok_indices s).2.
Proof.
  unfold stop_string_dicts.
  generalize (zip3 token_list rl tok_indices). intros l.
  assert (H : forall d1 d2 : dict Z (list Z),
             Forall (fun p : Z * list Z => p.2 <> []) d1 ->
             Forall (fun p : Z * list Z => p.2 <> []) d2 ->
             let r := foldl (fun '(valid_positions, end_overlaps) '(token, reversed_filtered_token, tok_idx) =>
                        let '(matching_positions, possible_end_lengths) :=
                          token_matches token reversed_filtered_token s in
                        (match matching_positions with
                         | [] => valid_positions
                         | _ :: _ => dict_set tok_idx matching_positions valid_positions
                         end,
                         match possible_end_lengths with
                         | [] => end_overlaps
                         | _ :: _ => dict_set tok_idx possible_end_lengths end_overlaps
                         end)) (d1, d2) l in
             Forall (fun p : Z * list Z => p.2 <> []) r.1 /\
             Forall (fun p : Z * list Z => p.2 <> []) r.2).
  { induction l as [|[[token rft] id] l IH]; intros d1 d2 H1 H2; cbn; [split; assumption|].
    destruct (token_matches token rft s) as [mp pel].
    apply IH.
    - destruct mp as [|x mp]; [exact H1|].
      apply Forall_forall. intros [k v] Hin. apply dict_set_elem_of in Hin as [[= -> ->]|Hin]; [discriminate|].
      rewrite Forall_forall in H1. apply (H1 _ Hin).
    - destruct pel as [|x pel]; [exact H2|].
      apply Forall_forall. intros [k v] Hin. apply dict_set_elem_of in Hin as [[= -> ->]|Hin]; [discriminate|].
      rewrite Forall_forall in H2. apply (H2 _ Hin). }
  apply H; constructor.
Qed.

Lemma value_lengths_positive (h : pystr -> dict Z (list Z)) (stop_strings : list pystr) :
  (forall s, Forall (fun p : Z * list Z => p.2 <> []) (h s)) ->
  Forall (fun n => (0 < n)%nat) (value_lengths (per_stop_string h stop_strings)).
Proof.
  intros Hh. apply Forall_forall. intros n Hn.
  apply elem_of_value_lengths in Hn as Hn'. revert Hn'.
  generalize (elem_of_value_lengths (per_stop_string h stop_strings) n). intros _ Hn'.
  destruct Hn' as (s & d & id & val & Hd & Hv & ->).
  apply per_stop_string_elem_of in Hd as [_ ->].
  specialize (Hh s). rewrite Forall_forall in Hh. specialize (Hh _ Hv). cbn in Hh.
  destruct val; [congruence|cbn; lia].
Qed.

Lemma max_list_positive (l : list nat) :
  l <> [] -> Forall (fun n => (0 < n)%nat) l -> (0 < max_list l)%nat.
Proof.
  destruct l as [|x l]; [congruence|]. intros _ H. apply Forall_cons in H as [Hx _]. cbn. lia.
Qed.

Lemma create_embedding_vec_shape (token_list : list pystr) (tok_indices : list Z)
    (stop_strings : list pystr) (t : Tensor2) (P E : nat) :
  _stop_string_create_embedding_vec token_list tok_indices stop_strings = Ok (t, P, E) ->
  stop_strings <> [] /\ (0 < P)%nat /\ (0 < E)%nat /\
  cols t = (length stop_strings * (P + E) + 1)%nat /\
  array_shape (length token_list) (cols t) (rows t) /\
  Forall (fun token => token <> []) token_list /\
  Forall (fun p : pystr * Z => row_index (length token_list) p.2) (zip token_list tok_indices).
Proof.
  intros H. unfold _stop_string_create_embedding_vec in H.
  apply bind_Ok in H as ([tvp teo] & Hgmp & H).
  assert (Htok : Forall (fun token => token <> []) token_list).
  { unfold _stop_string_get_matching_positions in Hgmp.
    apply bind_Ok in Hgmp as (rl & Hrl & _). apply reversed_filtered_tokens in Hrl as [_ Hrl].
    exact Hrl. }
  apply get_matching_positions_struct in Hgmp as (rl & -> & ->).
  apply bind_Ok in H as (P' & HP & H). apply bind_Ok in H as (E' & HE & H).
  apply bind_Ok in H as (gv & Hfill & [= <- <- <-]).
  apply py_max_Ok in HP as [HPne HPeq]. apply py_max_Ok in HE as [HEne HEeq].
  assert (Hss : stop_strings <> []).
  { intros ->. apply HPne. reflexivity. }
  assert (HP : (0 < P')%nat).
  { rewrite HPeq. apply max_list_positive; [exact HPne|]. apply value_lengths_positive.
    intros s. apply stop_string_dicts_values. }
  assert (HE : (0 < E')%nat).
  { rewrite HEeq. apply max_list_positive; [exact HEne|]. apply value_lengths_positive.
    intros s. apply stop_string_dicts_values. }
  clear HPeq HEeq.
  cbn [cols rows tensor2].
  eapply (foldM_invariant
            (array_shape (length token_list) (length stop_strings * (P' + E') + 1))
            (fun _ => Forall (fun p : pystr * Z => row_index (length token_list) p.2)
                             (zip token_list tok_indices))) in Hfill as [Hshape Hall].
  - split; [exact Hss|]. split; [exact HP|]. split; [exact HE|]. split; [reflexivity|].
    split; [exact Hshape|]. split; [exact Htok|].
    destruct stop_strings as [|s0 ss]; [congruence|]. cbn in Hall.
    apply Forall_cons in Hall as [Hall _]. exact Hall.
  - intros a b a' Ha Hf. eapply fill_gather_vec_shape; eauto.
  - split; [apply length_replicate|]. apply Forall_replicate, length_replicate.
Qed.

Lemma init_shape (tokenizer : PreTrainedTokenizerBase) (arg : stop_strings_arg)
    (self : StopStringCriteria.t) :
  StopStringCriteria.__init__ tokenizer arg = Ok self ->
  let stop_strings := stop_strings_of arg in
  let vocab := get_vocab tokenizer in
  let n := StopStringCriteria.num_stop_strings self in
  let P := StopStringCriteria.max_valid_positions self in
  let E := StopStringCriteria.max_valid_end_lens self in
  let t := StopStringCriteria.embedding_vec self in
  n = length stop_strings /\ (0 < n)%nat /\ (0 < P)%nat /\ (0 < E)%nat /\
  cols t = (n * (P + E) + 1)%nat /\
  array_shape (length vocab) (cols t) (rows t) /\
  StopStringCriteria.maximum_token_len self = max_list (length <$> stop_strings) /\
  elems (StopStringCriteria.target_lens self) = len <$> stop_strings /\
  Forall (fun token => token <> []) (keys vocab) /\
  Forall (row_index (length vocab)) (values vocab).
Proof.
  intros H. unfold StopStringCriteria.__init__ in H.
  change (match arg with OneString s => [s] | StringList l => l end) with (stop_strings_of arg) in H.
  apply bind_Ok in H as ([[t P] E] & Ht & H).
  apply bind_Ok in H as (K & HK & [= <-]). cbn.
  apply py_max_Ok in HK as [_ ->].
  apply create_embedding_vec_shape in Ht as (Hss & HP & HE & Hc & Hshape & Htok & Hids).
  assert (Hlk : length (keys (get_vocab tokenizer)) = length (get_vocab tokenizer))
    by (unfold keys; apply length_fmap).
  rewrite Hlk in Hshape, Hids.
  split; [reflexivity|]. split; [destruct (stop_strings_of arg); [congruence|cbn; lia]|].
  split; [exact HP|]. split; [exact HE|]. split; [exact Hc|]. split; [exact Hshape|].
  split; [reflexivity|]. split; [reflexivity|]. split; [exact Htok|].
  unfold keys, values in *. rewrite zip_fst_snd in Hids.
  apply Forall_fmap. exact Hids.
Qed.

(** ** When the construction raises *)

Lemma token_matches_short_stop (token rft s : pystr) :
  (length s <= 1)%nat -> (token_matches token rft s).1 = [].
Proof.
  intros Hs. apply elem_of_nil_inv. intros x Hx. unfold token_matches in Hx.
  apply (proj1 (foldl_match_step _ _ _ [] [] x)) in Hx as [Hx|(Hr & Hpos & _)].
  - inversion Hx.
  - apply elem_of_range in Hr. unfold len in Hr. lia.
Qed.

Lemma stop_string_dicts_short_stop (token_list rl : list pystr) (tok_indices : list Z) (s : pystr) :
  (length s <= 1)%nat -> (stop_string_dicts token_list rl tok_indices s).1 = [].
Proof.
  intros Hs. unfold stop_string_dicts. generalize (@nil (Z * list Z)) at 2 as d2.
  induction (zip3 token_list rl tok_indices) as [|[[token rft] id] l IH]; intros d2.
  - reflexivity.
  - cbn [foldl]. pose proof (token_matches_short_stop token rft s Hs) as Hm.
    destruct (token_matches token rft s) as [mp pel]. cbn in Hm. subst mp. apply IH.
Qed.

Lemma mapM_cons {A B} (f : A -> result B) (x : A) (l : list A) :
  mapM f (x :: l) = f x ≫= fun y => mapM f l ≫= fun k => Ok (y :: k).
Proof. reflexivity. Qed.

Lemma mapM_cleanup_raises (token_list : list pystr) :
  [] ∈ token_list ->
  mapM (fun token => reverse <$> _cleanup_token token) token_list = Raise IndexError.
Proof.
  induction token_list as [|token l IH]; intros Hin; [inversion Hin|].
  rewrite mapM_cons. destruct token as [|c rest].
  - reflexivity.
  - apply elem_of_cons in Hin as [Hin|Hin]; [discriminate|].
    rewrite (IH Hin), cleanup_token_cases.
    destruct (bool_decide _); reflexivity.
Qed.

Lemma mapM_cleanup_succeeds (token_list : list pystr) :
  [] ∉ token_list ->
  mapM (fun token => reverse <$> _cleanup_token token) token_list
  = Ok (reversed_filtered <$> token_list).
Proof.
  intros Hin. apply mapM_Ok_fmap. apply Forall_forall. intros token Ht.
  rewrite cleanup_token_nonempty; [reflexivity|]. intros ->. apply Hin, Ht.
Qed.

Lemma create_embedding_vec_short_stop_strings (token_list : list pystr) (tok_indices : list Z)
    (stop_strings : list pystr) :
  Forall (fun s => (length s <= 1)%nat) stop_strings ->
  _stop_string_create_embedding_vec token_list tok_indices stop_strings
  = Raise (if bool_decide ([] ∈ token_list) then IndexError else ValueError).
Proof.
  intros Hshort. unfold _stop_string_create_embedding_vec.
  destruct (_stop_string_get_matching_positions token_list tok_indices stop_strings)
    as [[tvp teo]|e] eqn:Egmp.
  - pose proof Egmp as Hstruct. apply get_matching_positions_struct in Hstruct as (rl & -> & ->).
    unfold _stop_string_get_matching_positions in Egmp.
    apply bind_Ok in Egmp as (rl' & Hrl & _).
    apply reversed_filtered_tokens in Hrl as [_ Htok].
    rewrite bool_decide_eq_false_2.
    + cbn [mbind result_bind].
      rewrite (value_lengths_nil (fun s => (stop_string_dicts token_list rl tok_indices s).1));
        [reflexivity|].
      intros s Hs. apply stop_string_dicts_short_stop.
      rewrite Forall_forall in Hshort. apply Hshort, Hs.
    + intros Hin. rewrite Forall_forall in Htok. apply (Htok _ Hin). reflexivity.
  - unfold _stop_string_get_matching_positions in Egmp. cbn [mbind result_bind].
    case_bool_decide as Hempty.
    + rewrite mapM_cleanup_raises in Egmp by exact Hempty. cbn in Egmp. congruence.
    + rewrite mapM_cleanup_succeeds in Egmp by exact Hempty. discriminate.
Qed.

(** X4: when no stop string has more than one character, [__init__] raises.
    A position is recorded only at an offset [0 < i < len(stop_string)], so
    no token has a valid position, and [max()] is taken of an empty
    sequence: [ValueError]; with an empty token in the vocabulary the
    normalization raises [IndexError] before that. *)
Theorem init_raises_on_short_stop_strings (tokenizer : PreTrainedTokenizerBase)
    (arg : stop_strings_arg) :
  Forall (fun s => (length s <= 1)%nat) (stop_strings_of arg) ->
  StopStringCriteria.__init__ tokenizer arg
  = Raise (if bool_decide ([] ∈ keys (get_vocab tokenizer)) then IndexError else ValueError).
Proof.
  intros Hshort. unfold StopStringCriteria.__init__.
  change (match arg with OneString s => [s] | StringList l => l end) with (stop_strings_of arg).
  rewrite create_embedding_vec_short_stop_strings by exact Hshort. reflexivity.
Qed.

Lemma init_raises_on_short_stop_strings_witness :
  StopStringCriteria.__init__ (mkTokenizer small_vocab) (StringList [str "."; str "!"])
  = Raise ValueError.
Proof.
  apply (init_raises_on_short_stop_strings (mkTokenizer small_vocab)
           (StringList [str "."; str "!"])).
  repeat constructor.
Defined.

(** X5: with an empty token in the vocabulary [__init__] raises
    [IndexError], whatever the stop strings are, also for none at all: the
    normalization reads the first character of every token before anything
    else is done. *)
Theorem init_raises_on_empty_token (tokenizer : PreTrainedTokenizerBase)
    (arg : stop_strings_arg) :
  [] ∈ keys (get_vocab tokenizer) ->
  StopStringCriteria.__init__ tokenizer arg = Raise IndexError.
Proof.
  intros Hempty. unfold StopStringCriteria.__init__, _stop_string_create_embedding_vec,
    _stop_string_get_matching_positions.
  rewrite mapM_cleanup_raises by exact Hempty. reflexivity.
Qed.

Lemma init_raises_on_empty_token_witness :
  StopStringCriteria.__init__ (mkTokenizer [(str "st", 0); ([], 1); (str "op", 2)])
    (OneString (str "stop"))
  = Raise IndexError.
Proof.
  apply (init_raises_on_empty_token (mkTokenizer [(str "st", 0); ([], 1); (str "op", 2)])
           (OneString (str "stop"))).
  right; left.
Defined.

(** X6: [__init__] returns only for a vocabulary whose ids all index a row
    of a table with one row per token, [-n <= id < n] for [n] tokens: the
    length of every token is written into the row of its id. *)
Theorem init_accepts_only_row_indices (tokenizer : PreTrainedTokenizerBase)
    (arg : stop_strings_arg) (self : StopStringCriteria.t) :
  StopStringCriteria.__init__ tokenizer arg = Ok self ->
  Forall (fun id => - len (get_vocab tokenizer) <= id < len (get_vocab tokenizer))
         (values (get_vocab tokenizer)).
Proof.
  intros H. apply init_shape in H. cbn zeta in H.
  destruct H as (_ & _ & _ & _ & _ & _ & _ & _ & _ & H). exact H.
Qed.

Lemma init_accepts_only_row_indices_witness :
  Forall (fun id => - len small_vocab <= id < len small_vocab) (values small_vocab).
Proof.
  eapply (init_accepts_only_row_indices (mkTokenizer small_vocab) (OneString (str "stop"))).
  vm_compute. reflexivity.
Defined.

Lemma some_long_stop_string (tokenizer : PreTrainedTokenizerBase) (arg : stop_strings_arg)
    (self : StopStringCriteria.t) :
  StopStringCriteria.__init__ tokenizer arg = Ok self ->
  (2 <= max_list (length <$> stop_strings_of arg))%nat.
Proof.
  intros Hinit.
  destruct (decide (Forall (fun s : pystr => (length s <= 1)%nat) (stop_strings_of arg)))
    as [Hshort|Hlong].
  - unfold StopStringCriteria.__init__ in Hinit.
    change (match arg with OneString s => [s] | StringList l => l end)
      with (stop_strings_of arg) in Hinit.
    rewrite create_embedding_vec_short_stop_strings in Hinit by exact Hshort. discriminate.
  - apply not_Forall_Exists in Hlong; [|intros s; apply _].
    apply Exists_exists in Hlong as (s & Hs & Hlen). cbn in Hlen.
    apply (Nat.le_trans _ (length s)); [lia|].
    apply max_list_elem_of_le, list_elem_of_fmap. eauto.
Qed.

(** X7: what [__init__] leaves in the object. There is at least one stop
    string and the longest has two characters or more;
    [maximum_token_len] is its length and [target_lens] holds the lengths
    of all of them; the widths [max_valid_positions] and
    [max_valid_end_lens] are at least one; the table has one row per token
    of the vocabulary, and every row has the width
    [num_stop_strings * (max_valid_positions + max_valid_end_lens) + 1]. *)
Theorem init_builds_a_table_of_the_vocabulary (tokenizer : PreTrainedTokenizerBase)
    (arg : stop_strings_arg) (self : StopStringCriteria.t) :
  StopStringCriteria.__init__ tokenizer arg = Ok self ->
  let n := StopStringCriteria.num_stop_strings self in
  let P := StopStringCriteria.max_valid_positions self in
  let E := StopStringCriteria.max_valid_end_lens self in
  let t := StopStringCriteria.embedding_vec self in
  n = length (stop_strings_of arg) /\ (1 <= n)%nat /\ (1 <= P)%nat /\ (1 <= E)%nat /\
  StopStringCriteria.maximum_token_len self = max_list (length <$> stop_strings_of arg) /\
  (2 <= StopStringCriteria.maximum_token_len self)%nat /\
  elems (StopStringCriteria.target_lens self) = len <$> stop_strings_of arg /\
  length (rows t) = length (get_vocab tokenizer) /\
  cols t = (n * (P + E) + 1)%nat /\
  well_shaped t.
Proof.
  intros Hinit. pose proof (some_long_stop_string tokenizer arg self Hinit) as Hlong.
  apply init_shape in Hinit. cbn zeta in *.
  destruct Hinit as (Hn & Hn0 & HP & HE & Hc & [Hrows Hw] & HK & Ht & _ & _).
  rewrite HK. repeat split; try assumption; lia.
Qed.

Lemma init_builds_a_table_of_the_vocabulary_witness :
  exists self,
    StopStringCriteria.__init__ (mkTokenizer small_vocab) (StringList [str "stop"; str "top"])
    = Ok self /\
    let n := StopStringCriteria.num_stop_strings self in
    let P := StopStringCriteria.max_valid_positions self in
    let E := StopStringCriteria.max_valid_end_lens self in
    let t := StopStringCriteria.embedding_vec self in
    n = 2%nat /\ (1 <= n)%nat /\ (1 <= P)%nat /\ (1 <= E)%nat /\
    StopStringCriteria.maximum_token_len self = 4%nat /\
    (2 <= StopStringCriteria.maximum_token_len self)%nat /\
    elems (StopStringCriteria.target_lens self) = [4; 3] /\
    length (rows t) = 3%nat /\
    cols t = (n * (P + E) + 1)%nat /\
    well_shaped t.
Proof.
  eexists.
  assert (Hinit : StopStringCriteria.__init__ (mkTokenizer small_vocab)
                    (StringList [str "stop"; str "top"]) = Ok ?[self])
    by (vm_compute; reflexivity).
  split; [exact Hinit|].
  exact (init_builds_a_table_of_the_vocabulary (mkTokenizer small_vocab)
           (StringList [str "stop"; str "top"]) _ Hinit).
Defined.

(** ** The packed table and the slices of [__call__] *)

(** X8: for a vocabulary whose ids are the distinct row indices, the row of
    the table at the id of a token has the width of the table, and the three
    slices that [__call__] takes of it give back what the precomputation
    found: for every stop string the valid positions of the token and its
    end overlaps, each padded with [-1] to the common width, and the length
    of the token. *)
Theorem table_row_unpacks (vocab : list (pystr * Z)) (stop_strings : list pystr)
    (t : Tensor2) (P E : nat) (token : pystr) (id : Z) :
  dense_vocab vocab ->
  _stop_string_create_embedding_vec (keys vocab) (values vocab) stop_strings = Ok (t, P, E) ->
  (token, id) ∈ vocab ->
  let n := length stop_strings in
  exists v,
    rows t !! Z.to_nat id = Some v /\
    length v = cols t /\
    unflatten n (take (P * n) v)
    = (fun s => pad P (valid_positions_of s token)) <$> stop_strings /\
    unflatten n (drop (P * n) (take (length v - 1) v))
    = (fun s => pad E (end_overlaps_of s token)) <$> stop_strings /\
    drop (length v - 1) v = [len token].
Proof.
  intros Hd Ht Hin n. apply (create_embedding_vec_spec vocab stop_strings t P E Hd) in Ht.
  destruct Ht as [Hne HP HE Hcols Hlen Htok HPle HEle Hrows _ _].
  exists (table_row P E stop_strings token). split; [apply (Hrows token id Hin)|].
  assert (Hdec : decodes n P E (table_row P E stop_strings token)
                   ((fun s => pad P (valid_positions_of s token)) <$> stop_strings,
                    (fun s => pad E (end_overlaps_of s token)) <$> stop_strings,
                    len token)).
  { apply table_row_decodes. apply Forall_forall. intros s Hs.
    split; [eapply HPle|eapply HEle]; eauto. }
  assert (Hn : (0 < n)%nat) by (subst n; destruct stop_strings; [congruence|cbn; lia]).
  split; [rewrite Hcols; apply (decodes_length _ _ _ _ _ Hn Hdec)|].
  split; [apply (decodes_positions _ _ _ _ _ Hn Hdec)|].
  split; [apply (decodes_end_lengths _ _ _ _ _ Hn Hdec)|].
  apply (decodes_length_slice _ _ _ _ _ Hn Hdec).
Qed.

Lemma table_row_unpacks_witness :
  exists v,
    [[2; -1; 2]; [-1; 2; 2]; [-1; 2; 5]] !! 1%nat = Some v /\
    length v = 3%nat /\
    unflatten 1 (take (1 * 1) v) = [[-1]] /\
    unflatten 1 (drop (1 * 1) (take (length v - 1) v)) = [[2]] /\
    drop (length v - 1) v = [2].
Proof.
  assert (Ht : _stop_string_create_embedding_vec (keys small_vocab) (values small_vocab)
                 [str "stop"]
               = Ok (tensor2 3 [[2; -1; 2]; [-1; 2; 2]; [-1; 2; 5]], 1%nat, 1%nat))
    by (vm_compute; reflexivity).
  assert (Hin : (str "op", 1) ∈ small_vocab) by (right; left).
  exact (table_row_unpacks small_vocab [str "stop"] _ _ _ (str "op") 1
           dense_small_vocab Ht Hin).
Defined.

Lemma dense_ids_cover (vocab : dict pystr Z) (r : nat) :
  dense_vocab vocab -> (r < length vocab)%nat ->
  exists token, (token, Z.of_nat r) ∈ vocab.
Proof.
  intros [Hnd Hrange] Hr. rewrite Forall_forall in Hrange.
  assert (Hperm : Z.to_nat <$> values vocab ≡ₚ seq 0 (length vocab)).
  { apply submseteq_length_Permutation.
    - apply NoDup_submseteq.
      + apply NoDup_fmap_2_strong; [|exact Hnd].
        intros x y Hx Hy Hxy. apply Hrange in Hx, Hy. lia.
      + intros k Hk. apply list_elem_of_fmap in Hk as (id & -> & Hid).
        apply Hrange in Hid. apply elem_of_seq. unfold len in Hid. lia.
    - rewrite length_seq, length_fmap. unfold values. rewrite length_fmap. lia. }
  assert (Hin : r ∈ Z.to_nat <$> values vocab).
  { rewrite Hperm. apply elem_of_seq. lia. }
  apply list_elem_of_fmap in Hin as (id & -> & Hid).
  pose proof (Hrange _ Hid) as Hr'.
  unfold values in Hid. apply list_elem_of_fmap in Hid as ([token id'] & -> & Hin).
  exists token. cbn in *. rewrite Z2Nat.id by lia. exact Hin.
Qed.

Lemma pad_entries (w : nat) (l : list Z) (Q : Z -> Prop) :
  Q (-1) -> Forall Q l -> Forall Q (pad w l).
Proof.
  intros H1 Hl. unfold pad. apply Forall_app. split; [exact Hl|]. apply Forall_replicate, H1.
Qed.

(** X9: every entry of the table is [-1] or a number from zero up to the
    length of the longest stop string or of the longest token, whichever is
    greater: the 32-bit integers of the source hold the entries whenever
    they hold those two lengths. *)
Theorem table_entries_are_bounded (vocab : dict pystr Z) (arg : stop_strings_arg)
    (self : StopStringCriteria.t) :
  dense_vocab vocab ->
  StopStringCriteria.__init__ (mkTokenizer vocab) arg = Ok self ->
  let longest :=
    Nat.max (StopStringCriteria.maximum_token_len self) (max_list (length <$> keys vocab)) in
  Forall (Forall (fun x => -1 <= x <= Z.of_nat longest))
         (rows (StopStringCriteria.embedding_vec self)).
Proof.
  intros Hd Hinit longest.
  destruct (init_spec vocab arg self Hd Hinit) as (_ & _ & _ & HK & Hspec).
  cbn zeta in HK, Hspec. fold (stop_strings_of arg) in HK, Hspec.
  apply Forall_lookup. intros r row Hrow.
  assert (Hr : (r < length vocab)%nat).
  { rewrite <- (table_length _ _ _ _ _ Hspec). eapply lookup_lt_Some, Hrow. }
  destruct (dense_ids_cover vocab r Hd Hr) as [token Hin].
  pose proof (table_rows _ _ _ _ _ Hspec token _ Hin) as Hrow'.
  rewrite Nat2Z.id, Hrow in Hrow'. injection Hrow' as ->.
  assert (Hstop : forall s, s ∈ stop_strings_of arg -> (length s <= longest)%nat).
  { intros s Hs. subst longest. rewrite HK.
    assert (length s <= max_list (length <$> stop_strings_of arg))%nat; [|lia].
    apply max_list_elem_of_le, list_elem_of_fmap. eauto. }
  assert (Htoken : (length token <= longest)%nat).
  { subst longest.
    assert (length token <= max_list (length <$> keys vocab))%nat; [|lia].
    apply max_list_elem_of_le, list_elem_of_fmap. exists token. split; [reflexivity|].
    unfold keys. apply list_elem_of_fmap. exists (token, Z.of_nat r). auto. }
  unfold table_row. repeat apply Forall_app_2.
  - apply Forall_concat, Forall_fmap, Forall_forall. intros s Hs. cbn.
    apply pad_entries; [lia|]. apply Forall_forall. intros i Hi.
    apply valid_positions_of_spec in Hi as (j & -> & Hj & _).
    specialize (Hstop s Hs). lia.
  - apply Forall_concat, Forall_fmap, Forall_forall. intros s Hs. cbn.
    apply pad_entries; [lia|]. apply Forall_forall. intros e He.
    apply end_overlaps_of_spec in He as (k & Hk & _ & _ & ->).
    specialize (Hstop s Hs). lia.
  - constructor; [|constructor]. unfold len. lia.
Qed.

Lemma table_entries_are_bounded_witness :
  Forall (Forall (fun x => -1 <= x <= Z.of_nat (Nat.max 4 5)))
         [[2; -1; 2]; [-1; 2; 2]; [-1; 2; 5]].
Proof.
  assert (Hinit : StopStringCriteria.__init__ (mkTokenizer small_vocab) (OneString (str "stop"))
                  = Ok ?[self]) by (vm_compute; reflexivity).
  exact (table_entries_are_bounded small_vocab (OneString (str "stop")) _
           dense_small_vocab Hinit).
Defined.

(** ** The conditions of a successful construction *)

Lemma valid_positions_nonempty (s token : pystr) :
  valid_positions_of s token <> [] <-> continues s token.
Proof.
  unfold continues. split.
  - intros Hne. destruct (valid_positions_of s token) as [|i l] eqn:Hv; [congruence|].
    assert (Hi : i ∈ valid_positions_of s token) by (rewrite Hv; left).
    apply valid_positions_continues in Hi as (j & _ & Hj & Hf). eauto.
  - intros (j & Hj & Hf) Hnil.
    assert (Hi : Z.of_nat j ∈ valid_positions_of s token).
    { apply valid_positions_continues. eauto. }
    rewrite Hnil in Hi. inversion Hi.
Qed.

Lemma end_overlaps_nonempty (s token : pystr) :
  end_overlaps_of s token <> [] <-> completes s token.
Proof.
  unfold completes. split.
  - intros Hne. destruct (end_overlaps_of s token) as [|e l] eqn:Hv; [congruence|].
    assert (He : e ∈ end_overlaps_of s token) by (rewrite Hv; left).
    apply end_overlaps_completes in He as (k & Hk & Hs & Hf & _). eauto.
  - intros (k & Hk & Hs & Hf) Hnil.
    assert (He : Z.of_nat (Nat.min k (length s)) ∈ end_overlaps_of s token).
    { apply end_overlaps_completes. exists k. eauto. }
    rewrite Hnil in He. inversion He.
Qed.

(** X10: for a vocabulary whose ids are the distinct row indices, [__init__]
    returns an object exactly when no token is empty, some token can stand
    before the last token of a match of some stop string, and some token
    can be the last token of a match of some stop string. *)
Theorem init_succeeds_iff (vocab : dict pystr Z) (arg : stop_strings_arg) :
  dense_vocab vocab ->
  (exists self, StopStringCriteria.__init__ (mkTokenizer vocab) arg = Ok self)
  <-> ([] ∉ keys vocab) /\
      (exists s token, s ∈ stop_strings_of arg /\ token ∈ keys vocab /\ continues s token) /\
      (exists s token, s ∈ stop_strings_of arg /\ token ∈ keys vocab /\ completes s token).
Proof.
  intros Hd.
  change (StopStringCriteria.__init__ (mkTokenizer vocab) arg)
    with (StopStringCriteria.__init__ (mkTokenizer vocab) (StringList (stop_strings_of arg))).
  generalize (stop_strings_of arg). intros stop_strings. split.
  - intros [self Hinit]. apply (init_spec vocab _ self Hd) in Hinit.
    destruct Hinit as (_ & _ & _ & _ & [_ _ _ _ _ Htok _ _ _ Hpos Hov]).
    split; [|split].
    + intros Hin. rewrite Forall_forall in Htok. apply (Htok _ Hin). reflexivity.
    + destruct Hpos as (s & token & id & Hs & Hin & Hne). exists s, token.
      split; [exact Hs|]. split; [|apply valid_positions_nonempty, Hne].
      unfold keys. apply list_elem_of_fmap. exists (token, id). auto.
    + destruct Hov as (s & token & id & Hs & Hin & Hne). exists s, token.
      split; [exact Hs|]. split; [|apply end_overlaps_nonempty, Hne].
      unfold keys. apply list_elem_of_fmap. exists (token, id). auto.
  - intros (Hempty & (s1 & t1 & Hs1 & Ht1 & Hc1) & (s2 & t2 & Hs2 & Ht2 & Hc2)).
    apply init_succeeds; [exact Hd| | |].
    + apply Forall_forall. intros token Hin ->. apply Hempty, Hin.
    + unfold keys in Ht1. apply list_elem_of_fmap in Ht1 as ([t id] & -> & Hin).
      exists s1, t, id. split; [exact Hs1|]. split; [exact Hin|]. apply valid_positions_nonempty, Hc1.
    + unfold keys in Ht2. apply list_elem_of_fmap in Ht2 as ([t id] & -> & Hin).
      exists s2, t, id. split; [exact Hs2|]. split; [exact Hin|]. apply end_overlaps_nonempty, Hc2.
Qed.

Lemma init_succeeds_iff_witness :
  (exists self,
      StopStringCriteria.__init__ (mkTokenizer small_vocab) (OneString (str "stop")) = Ok self)
  <-> ([] ∉ keys small_vocab) /\
      (exists s token, s ∈ [str "stop"] /\ token ∈ keys small_vocab /\ continues s token) /\
      (exists s token, s ∈ [str "stop"] /\ token ∈ keys small_vocab /\ completes s token).
Proof. exact (init_succeeds_iff small_vocab (OneString (str "stop")) dense_small_vocab). Defined.

(** ** Consequences of the decision of [__call__] *)

Lemma bool_eq_iff (b b' : bool) : (b = true <-> b' = true) -> b = b'.
Proof.
  intros H. destruct b, b'; try reflexivity.
  - symmetry. apply H. reflexivity.
  - apply H. reflexivity.
Qed.

Lemma decisions_agree {A} (P Q : A -> Prop) (l : list A) (bs bs' : list bool) :
  Forall2 (fun x (b : bool) => b = true <-> P x) l bs ->
  Forall2 (fun x (b : bool) => b = true <-> Q x) l bs' ->
  Forall (fun x => P x <-> Q x) l ->
  bs = bs'.
Proof.
  intros HF. revert bs'. induction HF as [|x b l bs Hb HF IH]; intros bs' HF' HPQ.
  - inversion HF'. reflexivity.
  - inversion HF' as [|? b' ? bs'' Hb' HF'']; subst.
    apply Forall_cons in HPQ as [Hx HPQ]. f_equal; [|apply IH; assumption].
    apply bool_eq_iff. rewrite Hb, Hb'. exact Hx.
Qed.

Lemma decisions_all_true {A} (P : A -> Prop) (l : list A) (bs : list bool) :
  Forall2 (fun x (b : bool) => b = true <-> P x) l bs ->
  Forall P l -> bs = replicate (length l) true.
Proof.
  intros HF. induction HF as [|x b l bs Hb HF IH]; intros HP; [reflexivity|].
  apply Forall_cons in HP as [Hx HP]. cbn. f_equal; [apply Hb, Hx|apply IH, HP].
Qed.

Lemma decisions_or {A} (P Q R : A -> Prop) (l : list A) (bs1 bs2 bs : list bool) :
  Forall2 (fun x (b : bool) => b = true <-> P x) l bs1 ->
  Forall2 (fun x (b : bool) => b = true <-> Q x) l bs2 ->
  Forall2 (fun x (b : bool) => b = true <-> R x) l bs ->
  (forall x, R x <-> P x \/ Q x) ->
  bs = zip_with orb bs1 bs2.
Proof.
  intros H1. revert bs2 bs. induction H1 as [|x b1 l bs1 Hb1 H1 IH]; intros bs2 bs H2 H HR.
  - inversion H2. inversion H. reflexivity.
  - inversion H2 as [|? b2 ? bs2' Hb2 H2']; subst.
    inversion H as [|? b ? bs' Hb H']; subst. cbn. f_equal; [|apply IH; assumption].
    apply bool_eq_iff. rewrite Hb, HR, orb_true_iff, Hb1, Hb2. reflexivity.
Qed.

Lemma last_token_nonempty (vocab : dict pystr Z) (stop_strings : list pystr) (t : Tensor2)
    (P E : nat) (id : Z) :
  table_spec vocab stop_strings t P E -> id ∈ values vocab ->
  normalized (token_or_empty vocab id) <> [].
Proof.
  intros Hspec Hid. apply token_or_empty_in in Hid.
  assert (Hne : token_or_empty vocab id <> []).
  { pose proof (table_tokens _ _ _ _ _ Hspec) as Htok. rewrite Forall_forall in Htok.
    apply Htok. unfold keys. apply list_elem_of_fmap. exists (token_or_empty vocab id, id). auto. }
  intros Hn. apply Hne. apply length_zero_iff_nil. rewrite <- length_normalized, Hn. reflexivity.
Qed.

Lemma row_texts_snoc (vocab : dict pystr Z) (ids : list Z) (id : Z) :
  row_texts vocab (ids ++ [id])
  = row_texts vocab ids ++ [normalized (token_or_empty vocab id)].
Proof. rewrite !row_texts_tokens, !fmap_app. reflexivity. Qed.

Lemma empty_stop_string_ends_in_last_token (vocab : dict pystr Z) (stop_strings : list pystr)
    (t : Tensor2) (P E : nat) (row : list Z) :
  table_spec vocab stop_strings t P E -> row <> [] ->
  Forall (fun id => id ∈ values vocab) row ->
  ends_in_last_token [] (row_texts vocab row).
Proof.
  intros Hspec Hne Hids. destruct row as [|x row _] using rev_ind; [congruence|].
  apply Forall_app in Hids as [_ Hx]. rewrite Forall_singleton in Hx.
  pose proof (last_token_nonempty vocab stop_strings t P E x Hspec Hx) as Hlast.
  exists (row_texts vocab row), (normalized (token_or_empty vocab x)), 1%nat.
  split; [apply row_texts_snoc|]. split.
  - destruct (normalized (token_or_empty vocab x)); [congruence|cbn; lia].
  - apply suffix_nil.
Qed.

(** X11: for a vocabulary whose ids are the distinct row indices: when the
    empty string is among the stop strings and the construction succeeds, a
    call reports every row as stopped, on every history of ids of the
    vocabulary with at least one column: the target length is zero, and no
    masked sum is below it. *)
Theorem empty_stop_string_stops_every_row {Scores : Type} (vocab : dict pystr Z)
    (arg : stop_strings_arg) (self : StopStringCriteria.t)
    (input_ids : Tensor2) (scores : Scores) :
  dense_vocab vocab ->
  StopStringCriteria.__init__ (mkTokenizer vocab) arg = Ok self ->
  [] ∈ stop_strings_of arg ->
  history_of vocab input_ids ->
  (StopStringCriteria.__call__ self input_ids scores).1
  = Ok (full_like_rows input_ids true).
Proof.
  intros Hd Hinit Hempty (Hshape & Hcols & Hids).
  destruct (init_spec vocab arg self Hd Hinit) as (_ & _ & _ & _ & Hspec). cbn zeta in Hspec.
  destruct (call_decides vocab arg self Hd Hinit input_ids scores Hshape Hcols Hids)
    as (bs & -> & HF).
  unfold full_like_rows. f_equal. f_equal.
  apply (decisions_all_true _ _ _ HF). apply Forall_forall. intros row Hrow.
  exists []. split; [exact Hempty|].
  eapply empty_stop_string_ends_in_last_token; [exact Hspec| |].
  - unfold well_shaped in Hshape. rewrite Forall_forall in Hshape.
    specialize (Hshape _ Hrow). destruct row; [cbn in Hshape; lia|discriminate].
  - rewrite Forall_forall in Hids. apply Hids, Hrow.
Qed.

Lemma empty_stop_string_stops_every_row_witness :
  exists self,
    StopStringCriteria.__init__ (mkTokenizer small_vocab) (StringList [str "stop"; []])
    = Ok self /\
    (StopStringCriteria.__call__ self (mkTensor2 cpu 2 [[0; 2]; [1; 1]]) tt).1
    = Ok (mkTensor1 cpu [true; true]).
Proof.
  eexists.
  assert (Hinit : StopStringCriteria.__init__ (mkTokenizer small_vocab)
                    (StringList [str "stop"; []]) = Ok ?[self])
    by (vm_compute; reflexivity).
  split; [exact Hinit|].
  apply (empty_stop_string_stops_every_row small_vocab (StringList [str "stop"; []]) _
           (mkTensor2 cpu 2 [[0; 2]; [1; 1]]) tt dense_small_vocab Hinit).
  - right; left.
  - split; [repeat constructor|]. split; [cbn; lia|].
    apply (bool_decide_unpack _). vm_compute. exact I.
Defined.

(** ** Checking after every token *)

Lemma occurrence_ends_in_a_token (s : pystr) (texts : list pystr) :
  s <> [] -> occurs_in s (concat texts) ->
  exists n, (1 <= n <= length texts)%nat /\ ends_in_last_token s (take n texts).
Proof.
  intros Hs. induction texts as [|last older IH] using rev_ind; intros (a & b & Hocc).
  - cbn in Hocc. symmetry in Hocc. apply app_eq_nil in Hocc as [_ Hocc].
    apply app_eq_nil in Hocc as [Hocc _]. congruence.
  - rewrite concat_app in Hocc. cbn in Hocc. rewrite app_nil_r in Hocc.
    destruct (decide (length a + length s <= length (concat older))%nat) as [Hle|Hgt].
    + destruct IH as (n & Hn & Hend).
      * exists a, (drop (length a + length s) (concat older)).
        rewrite app_assoc.
        rewrite <- (take_drop (length a + length s) (concat older)) at 1. f_equal.
        assert (Ht : take (length a + length s) (concat older ++ last)
                     = take (length a + length s) (a ++ s ++ b)) by (rewrite Hocc; reflexivity).
        rewrite take_app_le in Ht by exact Hle. rewrite Ht.
        rewrite app_assoc. rewrite take_app_le by (rewrite length_app; lia).
        apply take_ge. rewrite length_app. lia.
      * exists n. rewrite length_app. cbn. split; [lia|].
        rewrite take_app_le by lia. exact Hend.
    + exists (S (length older)). rewrite length_app. cbn. split; [lia|].
      rewrite take_ge by (rewrite length_app; cbn; lia).
      exists older, last, (length a + length s - length (concat older))%nat.
      split; [reflexivity|].
      assert (Hlen : (length (concat older) + length last
                      = length a + (length s + length b))%nat).
      { rewrite <- !length_app. f_equal. exact Hocc. }
      split; [lia|]. exists a.
      assert (Ht : take (length a + length s) (concat older ++ last)
                   = take (length a + length s) (a ++ s ++ b)) by (rewrite Hocc; reflexivity).
      rewrite take_app_ge in Ht by lia. rewrite Ht.
      rewrite app_assoc. rewrite take_app_le by (rewrite length_app; lia).
      apply take_ge. rewrite length_app. lia.
Qed.

Lemma ends_in_last_token_occurs (s : pystr) (texts : list pystr) (n : nat) :
  ends_in_last_token s (take n texts) -> occurs_in s (concat texts).
Proof.
  intros (older & last & k & Ht & Hk & [p Hp]).
  rewrite <- (take_drop n texts), concat_app, Ht, concat_app. cbn. rewrite app_nil_r.
  exists p, (drop k last ++ concat (drop n texts)).
  rewrite <- (take_drop k last) at 1. rewrite <- !app_assoc.
  rewrite (app_assoc (concat older)), Hp, <- app_assoc. reflexivity.
Qed.

Lemma row_texts_take (vocab : dict pystr Z) (ids : list Z) (n : nat) :
  row_texts vocab (take n ids) = take n (row_texts vocab ids).
Proof. unfold row_texts. apply fmap_take. Qed.

(** X12: for a vocabulary whose ids are the distinct row indices and a
    non-empty history of ids of the vocabulary: checked after every token,
    the criterion fires at some step of the history exactly when the
    normalized text of the history contains a stop string. No occurrence is
    missed, wherever the token boundaries fall, and nothing else makes it
    fire. *)
Theorem stop_string_is_caught_when_it_appears {Scores : Type} (vocab : dict pystr Z)
    (arg : stop_strings_arg) (self : StopStringCriteria.t) (ids : list Z) (scores : Scores) :
  dense_vocab vocab ->
  StopStringCriteria.__init__ (mkTokenizer vocab) arg = Ok self ->
  ids <> [] -> Forall (fun id => id ∈ values vocab) ids ->
  (exists n, (1 <= n <= length ids)%nat /\
             (StopStringCriteria.__call__ self (one_row (take n ids)) scores).1
             = Ok (mkTensor1 cpu [true]))
  <-> exists s, s ∈ stop_strings_of arg /\ occurs_in s (concat (row_texts vocab ids)).
Proof.
  intros Hd Hinit Hne Hids. split.
  - intros (n & Hn & Hcall).
    assert (Hne' : take n ids <> []) by (destruct ids, n; cbn; [congruence|congruence|lia|discriminate]).
    assert (Hids' : Forall (fun id => id ∈ values vocab) (take n ids)) by (apply Forall_take, Hids).
    destruct (one_row_history vocab (take n ids) Hne' Hids') as (Hshape & Hcols & Hrows).
    destruct (call_decides vocab arg self Hd Hinit (one_row (take n ids)) scores Hshape Hcols Hrows)
      as (bs & Hbs & HF).
    rewrite Hbs in Hcall. injection Hcall as ->. cbn in HF.
    inversion HF as [|? ? ? ? Hb _]; subst.
    destruct (proj1 Hb eq_refl) as (s & Hs & Hend). exists s. split; [exact Hs|].
    rewrite row_texts_take in Hend. eapply ends_in_last_token_occurs, Hend.
  - intros (s & Hs & Hocc). destruct (decide (s = [])) as [->|Hsne].
    + exists 1%nat. split; [destruct ids; [congruence|cbn; lia]|].
      destruct (init_spec vocab arg self Hd Hinit) as (_ & _ & _ & _ & Hspec). cbn zeta in Hspec.
      apply (call_one_row vocab arg self (take 1 ids) scores [] Hd Hinit).
      * destruct ids; [congruence|discriminate].
      * apply Forall_take, Hids.
      * exact Hs.
      * eapply empty_stop_string_ends_in_last_token; [exact Hspec| |apply Forall_take, Hids].
        destruct ids; [congruence|discriminate].
    + destruct (occurrence_ends_in_a_token s _ Hsne Hocc) as (n & Hn & Hend).
      unfold row_texts in Hn. rewrite length_fmap in Hn.
      exists n. split; [exact Hn|].
      apply (call_one_row vocab arg self (take n ids) scores s Hd Hinit).
      * destruct ids, n; cbn; [congruence|congruence|lia|discriminate].
      * apply Forall_take, Hids.
      * exact Hs.
      * rewrite row_texts_take. exact Hend.
Qed.

Lemma stop_string_is_caught_when_it_appears_witness :
  exists self,
    StopStringCriteria.__init__ (mkTokenizer small_vocab) (OneString (str "stop")) = Ok self /\
    ((exists n, (1 <= n <= length [0; 2; 0])%nat /\
                (StopStringCriteria.__call__ self (one_row (take n [0; 2; 0])) tt).1
                = Ok (mkTensor1 cpu [true]))
     <-> exists s, s ∈ [str "stop"] /\
                   occurs_in s (concat (row_texts small_vocab [0; 2; 0]))).
Proof.
  eexists.
  assert (Hinit : StopStringCriteria.__init__ (mkTokenizer small_vocab) (OneString (str "stop"))
                  = Ok ?[self]) by (vm_compute; reflexivity).
  split; [exact Hinit|].
  apply (stop_string_is_caught_when_it_appears small_vocab (OneString (str "stop")) _
           [0; 2; 0] tt dense_small_vocab Hinit).
  - discriminate.
  - apply (bool_decide_unpack _). vm_compute. exact I.
Defined.

(** ** The list of stop strings as a set *)

Lemma init_succeeds_with (vocab : dict pystr Z) (l l' : list pystr)
    (self : StopStringCriteria.t) :
  dense_vocab vocab ->
  StopStringCriteria.__init__ (mkTokenizer vocab) (StringList l) = Ok self ->
  (forall s, s ∈ l -> s ∈ l') ->
  exists self', StopStringCriteria.__init__ (mkTokenizer vocab) (StringList l') = Ok self'.
Proof.
  intros Hd Hinit Hsub.
  destruct (init_spec vocab _ self Hd Hinit) as (_ & _ & _ & _ & Hspec). cbn zeta in Hspec.
  apply init_succeeds; [exact Hd|exact (table_tokens _ _ _ _ _ Hspec)| |].
  - destruct (table_some_position _ _ _ _ _ Hspec) as (s & token & id & Hs & Hin & Hv).
    exists s, token, id. auto.
  - destruct (table_some_overlap _ _ _ _ _ Hspec) as (s & token & id & Hs & Hin & Hv).
    exists s, token, id. auto.
Qed.

(** X13: for a vocabulary whose ids are the distinct row indices the stop
    strings count as a set. If the construction succeeds for a list of stop
    strings, it succeeds for every list with the same elements, in any
    order and with any repetition, and the two objects decide alike every
    history of ids of the vocabulary with at least one column, although
    their tables are laid out differently. *)
Theorem stop_strings_count_as_a_set {Scores : Type} (vocab : dict pystr Z)
    (l l' : list pystr) (self : StopStringCriteria.t) :
  dense_vocab vocab ->
  StopStringCriteria.__init__ (mkTokenizer vocab) (StringList l) = Ok self ->
  (forall s, s ∈ l <-> s ∈ l') ->
  exists self',
    StopStringCriteria.__init__ (mkTokenizer vocab) (StringList l') = Ok self' /\
    forall (input_ids : Tensor2) (scores : Scores),
      history_of vocab input_ids ->
      (StopStringCriteria.__call__ self input_ids scores).1
      = (StopStringCriteria.__call__ self' input_ids scores).1.
Proof.
  intros Hd Hinit Heq.
  destruct (init_succeeds_with vocab l l' self Hd Hinit) as [self' Hinit'].
  { intros s. apply Heq. }
  exists self'. split; [exact Hinit'|]. intros input_ids scores (Hshape & Hcols & Hids).
  destruct (call_decides vocab _ self Hd Hinit input_ids scores Hshape Hcols Hids)
    as (bs & -> & HF).
  destruct (call_decides vocab _ self' Hd Hinit' input_ids scores Hshape Hcols Hids)
    as (bs' & -> & HF').
  f_equal. f_equal. apply (decisions_agree _ _ _ _ _ HF HF').
  apply Forall_forall. intros row _.
  split; intros (s & Hs & Hend); exists s; (split; [apply Heq, Hs|exact Hend]).
Qed.

Lemma or_same_shape (a b : Tensor1 bool) :
  device1 a = device1 b -> length (elems a) = length (elems b) ->
  StoppingCriteriaList.or_ a b = Ok (mkTensor1 (device1 a) (zip_with orb (elems a) (elems b))).
Proof.
  intros Hd Hl. unfold StoppingCriteriaList.or_.
  rewrite decide_True by exact Hd. rewrite decide_True by exact Hl. reflexivity.
Qed.

Lemma zip_with_orb_false (n : nat) (bs : list bool) :
  length bs = n -> zip_with orb (replicate n false) bs = bs.
Proof.
  revert n. induction bs as [|b bs IH]; intros n Hn; destruct n; cbn in *; try lia; [reflexivity|].
  f_equal. apply IH. lia.
Qed.

(** X14: for a vocabulary whose ids are the distinct row indices, one
    criterion for the stop strings of two lists decides as the
    [StoppingCriteriaList] of the two criteria, one per list: when both can
    be built, so can the criterion for the concatenated list, and on every
    history of ids of the vocabulary with at least one column it returns
    what the list of the two returns. *)
Theorem joined_stop_strings_are_a_criteria_list {Scores : Type} (vocab : dict pystr Z)
    (l1 l2 : list pystr) (self1 self2 : StopStringCriteria.t) :
  dense_vocab vocab ->
  StopStringCriteria.__init__ (mkTokenizer vocab) (StringList l1) = Ok self1 ->
  StopStringCriteria.__init__ (mkTokenizer vocab) (StringList l2) = Ok self2 ->
  exists self,
    StopStringCriteria.__init__ (mkTokenizer vocab) (StringList (l1 ++ l2)) = Ok self /\
    forall (input_ids : Tensor2) (scores : Scores),
      history_of vocab input_ids ->
      (StopStringCriteria.__call__ self input_ids scores).1
      = (StoppingCriteriaList.__call__
           [StoppingCriteriaList.Member StopStringCriteria.t self1;
            StoppingCriteriaList.Member StopStringCriteria.t self2]
           input_ids scores).1.
Proof.
  intros Hd Hinit1 Hinit2.
  destruct (init_succeeds_with vocab l1 (l1 ++ l2) self1 Hd Hinit1) as [self Hinit].
  { intros s Hs. apply elem_of_app. auto. }
  exists self. split; [exact Hinit|]. intros input_ids scores (Hshape & Hcols & Hids).
  destruct (call_decides vocab _ self Hd Hinit input_ids scores Hshape Hcols Hids)
    as (bs & -> & HF).
  destruct (call_decides vocab _ self1 Hd Hinit1 input_ids scores Hshape Hcols Hids)
    as (bs1 & H1 & HF1).
  destruct (call_decides vocab _ self2 Hd Hinit2 input_ids scores Hshape Hcols Hids)
    as (bs2 & H2 & HF2).
  unfold StoppingCriteriaList.__call__, StoppingCriteriaList.loop,
    StoppingCriteriaList.call_member.
  cbn [StoppingCriteriaList.member_call StoppingCriteriaList.member_self
       StoppingCriteriaList.member_class].
  unfold call, StopStringCriteria_call.
  destruct (StopStringCriteria.__call__ self1 input_ids scores) as [r1 self1'].
  destruct (StopStringCriteria.__call__ self2 input_ids scores) as [r2 self2'].
  cbn [fst] in H1, H2. subst r1 r2. cbn [mbind result_bind].
  pose proof (Forall2_length _ _ _ HF1) as Hl1. pose proof (Forall2_length _ _ _ HF2) as Hl2.
  rewrite or_same_shape; [|reflexivity|cbn; rewrite length_replicate; exact Hl1].
  cbn [device1 elems full_like_rows].
  rewrite zip_with_orb_false by (symmetry; exact Hl1).
  rewrite or_same_shape; [|reflexivity|cbn; congruence].
  cbn [fst device1 elems]. f_equal. f_equal.
  apply (decisions_or _ _ _ _ _ _ _ HF1 HF2 HF).
  intros row. split.
  - intros (s & Hs & Hend). apply elem_of_app in Hs as [Hs|Hs]; [left|right]; eauto.
  - intros [(s & Hs & Hend)|(s & Hs & Hend)]; exists s; (split; [apply elem_of_app; auto|exact Hend]).
Qed.

Lemma stop_strings_count_as_a_set_witness :
  exists self self',
    StopStringCriteria.__init__ (mkTokenizer small_vocab) (StringList [str "stop"; str "top"])
    = Ok self /\
    StopStringCriteria.__init__ (mkTokenizer small_vocab)
      (StringList [str "top"; str "stop"; str "top"]) = Ok self' /\
    (StopStringCriteria.__call__ self (one_row [0; 1]) tt).1
    = (StopStringCriteria.__call__ self' (one_row [0; 1]) tt).1.
Proof.
  eexists.
  assert (Hinit : StopStringCriteria.__init__ (mkTokenizer small_vocab)
                    (StringList [str "stop"; str "top"]) = Ok ?[self])
    by (vm_compute; reflexivity).
  destruct (stop_strings_count_as_a_set (Scores := unit) small_vocab
              [str "stop"; str "top"] [str "top"; str "stop"; str "top"] _
              dense_small_vocab Hinit) as (self' & Hinit' & Hcall).
  - intros s. rewrite !elem_of_cons, !elem_of_nil. tauto.
  - exists self'. split; [exact Hinit|]. split; [exact Hinit'|].
    apply Hcall. apply one_row_history; [discriminate|].
    apply (bool_decide_unpack _). vm_compute. exact I.
Defined.

Lemma joined_stop_strings_are_a_criteria_list_witness :
  exists self1 self2 self,
    StopStringCriteria.__init__ (mkTokenizer small_vocab) (StringList [str "stop"]) = Ok self1 /\
    StopStringCriteria.__init__ (mkTokenizer small_vocab) (StringList [str "top"]) = Ok self2 /\
    StopStringCriteria.__init__ (mkTokenizer small_vocab) (StringList [str "stop"; str "top"])
    = Ok self /\
    (StopStringCriteria.__call__ self (one_row [0; 1]) tt).1
    = (StoppingCriteriaList.__call__
         [StoppingCriteriaList.Member StopStringCriteria.t self1;
          StoppingCriteriaList.Member StopStringCriteria.t self2]
         (one_row [0; 1]) tt).1.
Proof.
  eexists. eexists.
  assert (Hinit1 : StopStringCriteria.__init__ (mkTokenizer small_vocab) (StringList [str "stop"])
                   = Ok ?[self1]) by (vm_compute; reflexivity).
  assert (Hinit2 : StopStringCriteria.__init__ (mkTokenizer small_vocab) (StringList [str "top"])
                   = Ok ?[self2]) by (vm_compute; reflexivity).
  destruct (joined_stop_strings_are_a_criteria_list (Scores := unit) small_vocab
              [str "stop"] [str "top"] _ _ dense_small_vocab Hinit1 Hinit2)
    as (self & Hinit & Hcall).
  exists self. split; [exact Hinit1|]. split; [exact Hinit2|]. split; [exact Hinit|].
  apply Hcall. apply one_row_history; [discriminate|].
  apply (bool_decide_unpack _). vm_compute. exact I.
Defined.

(** ** When a call returns *)




Lemma embedding_on_any_device (d1 d2 : device) (ids : list Z) (w e : list (list Z)) :
  embedding d1 ids w = Ok e -> embedding d2 ids w = Ok e.
Proof.
  unfold embedding. rewrite !mapM_Ok. intros HF.
  eapply Forall2_impl; [exact HF|]. intros id row. cbn.
  case_decide; [auto|discriminate].
Qed.



(** X16: the rows of a batch are decided one by one. When a call returns,
    its entry for a row is what the call returns for that row alone; the
    other rows of the batch, and the device of the input, have no part in
    it. *)
Theorem call_decides_rows_independently {Scores : Type} (self : StopStringCriteria.t)
    (input_ids : Tensor2) (scores : Scores) (r : Tensor1 bool) (i : nat) (row : list Z) :
  well_shaped input_ids ->
  (StopStringCriteria.__call__ self input_ids scores).1 = Ok r ->
  rows input_ids !! i = Some row ->
  exists b : bool,
    elems r !! i = Some b /\
    (StopStringCriteria.__call__ self (one_row row) scores).1 = Ok (mkTensor1 cpu [b]).
Proof.
  intros Hshape Hcall Hrow.
  assert (Hlen : length row = cols input_ids).
  { unfold well_shaped in Hshape. rewrite Forall_forall in Hshape.
    apply Hshape. eapply list_elem_of_lookup_2, Hrow. }
  unfold StopStringCriteria.__call__ in *. cbn [fst] in *.
  cbn [StopStringCriteria.maximum_token_len StopStringCriteria.embedding_vec
       StopStringCriteria.max_valid_positions StopStringCriteria.num_stop_strings] in *.
  apply bind_Ok in Hcall as (embedded & Hemb & Hcall).
  case_decide as Hz; [discriminate|]. injection Hcall as <-. cbn [elems].
  apply mapM_Ok in Hemb.
  assert (Hflip : rows (flip1 (last_cols (StopStringCriteria.maximum_token_len self) input_ids)) !! i
                  = Some (reverse (match StopStringCriteria.maximum_token_len self with
                                   | O => row
                                   | S _ => drop (length row - StopStringCriteria.maximum_token_len self) row
                                   end))).
  { unfold flip1, last_cols. destruct (StopStringCriteria.maximum_token_len self); cbn [rows].
    - rewrite list_lookup_fmap, Hrow. reflexivity.
    - rewrite !list_lookup_fmap, Hrow. reflexivity. }
  destruct (Forall2_lookup_l _ _ _ _ _ Hemb Hflip) as (e & He & Hrowemb).
  exists (StopStringCriteria.row_matches
            (StopStringCriteria.mk (StopStringCriteria.vocab self) (StopStringCriteria.token_list self)
               (StopStringCriteria.tok_indices self) (StopStringCriteria.stop_strings self)
               (to2 (device2 input_ids) (StopStringCriteria.embedding_vec self))
               (StopStringCriteria.max_valid_positions self) (StopStringCriteria.max_valid_end_lens self)
               (StopStringCriteria.maximum_token_len self) (StopStringCriteria.num_stop_strings self)
               (to1 (device2 input_ids) (StopStringCriteria.target_lens self))) e).
  split; [rewrite list_lookup_fmap, He; reflexivity|].
  assert (Hrows1 : rows (flip1 (last_cols (StopStringCriteria.maximum_token_len self) (one_row row)))
                   = [reverse (match StopStringCriteria.maximum_token_len self with
                               | O => row
                               | S _ => drop (length row - StopStringCriteria.maximum_token_len self) row
                               end)]).
  { unfold flip1, last_cols, one_row. destruct (StopStringCriteria.maximum_token_len self); reflexivity. }
  assert (Hcols1 : cols (flip1 (last_cols (StopStringCriteria.maximum_token_len self) (one_row row)))
                   = cols (flip1 (last_cols (StopStringCriteria.maximum_token_len self) input_ids))).
  { unfold flip1, last_cols, one_row. destruct (StopStringCriteria.maximum_token_len self);
      cbn [cols rows device2]; rewrite ?Hlen; reflexivity. }
  assert (Hdev1 : device2 (last_cols (StopStringCriteria.maximum_token_len self) (one_row row)) = cpu).
  { unfold last_cols, one_row. destruct (StopStringCriteria.maximum_token_len self); reflexivity. }
  assert (Hdev2 : device2 (flip1 (last_cols (StopStringCriteria.maximum_token_len self)
                                    (one_row row))) = cpu) by exact Hdev1.
  rewrite Hrows1, Hcols1, Hdev2, Hdev1. cbn [rows to2 cols] in *.
  rewrite mapM_cons. rewrite (embedding_on_any_device _ cpu _ _ _ Hrowemb).
  cbn [mbind result_bind mapM]. unfold mret, result_ret.
  cbn [mbind result_bind]. rewrite decide_False by exact Hz. reflexivity.
Qed.

Lemma call_decides_rows_independently_witness :
  exists self b,
    StopStringCriteria.__init__ (mkTokenizer small_vocab) (OneString (str "stop")) = Ok self /\
    [true; false] !! 1%nat = Some b /\
    (StopStringCriteria.__call__ self (one_row [1; 1]) tt).1 = Ok (mkTensor1 cpu [b]).
Proof.
  eexists.
  assert (Hinit : StopStringCriteria.__init__ (mkTokenizer small_vocab) (OneString (str "stop"))
                  = Ok ?[self]) by (vm_compute; reflexivity).
  match type of Hinit with
  | _ = Ok ?self =>
      destruct (call_decides_rows_independently (Scores := unit) self
                  (mkTensor2 (cuda 0) 2 [[0; 2]; [1; 1]]) tt
                  (mkTensor1 (cuda 0) [true; false]) 1 [1; 1]) as (b & Hb & Hcall)
  end.
  - repeat constructor.
  - vm_compute. reflexivity.
  - reflexivity.
  - exists b. split; [exact Hinit|]. split; [exact Hb|exact Hcall].
Defined.

(** ** Lists of criteria and their maximum length *)

Section max_length.
Context {Scores : Type}.
Implicit Types (self : list (StoppingCriteriaList.element Scores)).

Lemma max_length_app self rest :
  StoppingCriteriaList.max_length (self ++ rest)
  = match StoppingCriteriaList.max_length self with
    | Some m => Some m
    | None => StoppingCriteriaList.max_length rest
    end.
Proof.
  induction self as [|[c|c|c] self IH]; cbn; try reflexivity. exact IH.
Qed.

(** X17: the list that [validate_stopping_criteria] returns always has a
    maximum length: its own when it had one, in which case the list comes
    back as it was, the given one otherwise, through a [MaxLengthCriteria]
    appended behind the elements of the list. A warning is issued exactly
    when the list had a maximum length of its own that differs from the
    given one. Validating the result against its maximum length changes
    nothing and warns of nothing. *)
Theorem validate_stopping_criteria_gives_max_length self (max_length : Z) :
  let validated := validate_stopping_criteria self max_length in
  let own := StoppingCriteriaList.max_length self in
  StoppingCriteriaList.max_length validated.1 = Some (default max_length own) /\
  validated.1
  = self ++ match own with
            | Some _ => []
            | None => [StoppingCriteriaList.OfMaxLengthCriteria
                         (MaxLengthCriteria.__init__ max_length None)]
            end /\
  (validated.2 = [] <-> default max_length own = max_length) /\
  validate_stopping_criteria validated.1 (default max_length own) = (validated.1, []).
Proof.
  cbn zeta. unfold validate_stopping_criteria.
  destruct (StoppingCriteriaList.max_length self) as [m|] eqn:Hown; cbn [default].
  - case_decide as Hne; cbn [fst snd]; rewrite Hown; cbn [default].
    + split; [reflexivity|]. split; [symmetry; apply app_nil_r|].
      split; [split; [discriminate|intros H; destruct (Hne H)]|].
      rewrite decide_False by (intros H; apply H; reflexivity). reflexivity.
    + split; [reflexivity|]. split; [symmetry; apply app_nil_r|].
      split; [split; [intros _; exact Hne|reflexivity]|].
      rewrite decide_False by (intros H; apply H; reflexivity). reflexivity.
  - cbn [fst snd]. rewrite max_length_app, Hown. cbn.
    split; [reflexivity|]. split; [reflexivity|]. split; [tauto|].
    rewrite decide_False by (intros H; apply H; reflexivity). reflexivity.
Qed.

Lemma max_length_member self (m : Z) :
  StoppingCriteriaList.max_length self = Some m ->
  exists criteria, criteria ∈ self /\
    forall (input_ids : Tensor2) (scores : Scores),
      (StoppingCriteriaList.call_member (StoppingCriteriaList.as_member criteria)
         input_ids scores).1
      = Ok (full_like_rows input_ids (bool_decide (m <= Z.of_nat (cols input_ids)))).
Proof.
  induction self as [|[c|c|c] self IH]; cbn; intros H.
  - discriminate.
  - injection H as <-. eexists. split; [left|]. reflexivity.
  - injection H as <-. eexists. split; [left|]. reflexivity.
  - destruct (IH H) as (criteria & Hin & Hcall). exists criteria. split; [right; exact Hin|exact Hcall].
Qed.

Lemma call_with_all_true_member (members : StoppingCriteriaList.t Scores)
    (input_ids : Tensor2) (scores : Scores) (results : list (Tensor1 bool))
    (criteria : StoppingCriteriaList.member Scores) :
  Forall2 (returns input_ids scores) members results ->
  criteria ∈ members ->
  (StoppingCriteriaList.call_member criteria input_ids scores).1
  = Ok (full_like_rows input_ids true) ->
  (StoppingCriteriaList.__call__ members input_ids scores).1
  = Ok (full_like_rows input_ids true).
Proof.
  intros HF Hin Hcall. unfold StoppingCriteriaList.__call__.
  rewrite (loop_accumulates members input_ids scores results);
    [|exact HF|reflexivity|apply length_replicate].
  unfold full_like_rows. f_equal. f_equal.
  apply list_elem_of_lookup in Hin as [i Hi].
  destruct (Forall2_lookup_l _ _ _ _ _ HF Hi) as (r & Hr & (Hret & _ & _)).
  rewrite Hcall in Hret. injection Hret as <-.
  apply list_eq. intros j. rewrite list_lookup_fmap.
  destruct (decide (j < length (rows input_ids))%nat) as [Hj|Hj].
  - rewrite lookup_seq_lt by exact Hj. rewrite lookup_replicate_2 by exact Hj. cbn.
    f_equal. apply orb_true_iff. right. apply existsb_exists.
    exists (full_like_rows input_ids true). split.
    + apply list_elem_of_In. eapply list_elem_of_lookup_2, Hr.
    + cbn. apply list_lookup_total_correct, lookup_replicate_2, Hj.
  - rewrite lookup_seq_ge by lia. cbn. symmetry. apply lookup_replicate_None. lia.
Qed.

(** X18: the property [max_length] of a list is a length at which the list
    stops: on an input with at least that many columns the call reports
    every row as stopped, whatever the other members return, as long as
    each of them returns a vector for the batch. *)
Theorem criteria_list_stops_at_max_length self (input_ids : Tensor2) (scores : Scores)
    (results : list (Tensor1 bool)) (m : Z) :
  StoppingCriteriaList.max_length self = Some m ->
  m <= Z.of_nat (cols input_ids) ->
  Forall2 (returns input_ids scores) (StoppingCriteriaList.as_member <$> self) results ->
  (StoppingCriteriaList.__call__ (StoppingCriteriaList.as_member <$> self) input_ids scores).1
  = Ok (full_like_rows input_ids true).
Proof.
  intros Hm Hle HF. destruct (max_length_member self m Hm) as (criteria & Hin & Hcall).
  apply (call_with_all_true_member _ _ _ results (StoppingCriteriaList.as_member criteria) HF).
  - apply list_elem_of_fmap. exists criteria. auto.
  - rewrite Hcall. rewrite bool_decide_eq_true_2 by exact Hle. reflexivity.
Qed.

(** X19: validation adds the length bound and nothing else. When the
    members of a list return vectors for the batch, the validated list
    returns, for every row, what the list returns or-ed with the test that
    the input has as many columns as the list's maximum length, its own or,
    without one, the given [max_length]: below that length the decisions
    are those of the list, from that length on every row is stopped. *)
Theorem validated_list_adds_the_length_bound self (max_length : Z) (input_ids : Tensor2)
    (scores : Scores) (results : list (Tensor1 bool)) :
  Forall2 (returns input_ids scores) (StoppingCriteriaList.as_member <$> self) results ->
  let bound := default max_length (StoppingCriteriaList.max_length self) in
  let long_enough := bool_decide (bound <= Z.of_nat (cols input_ids)) in
  exists r,
    (StoppingCriteriaList.__call__ (StoppingCriteriaList.as_member <$> self)
       input_ids scores).1 = Ok r /\
    (StoppingCriteriaList.__call__
       (StoppingCriteriaList.as_member <$> (validate_stopping_criteria self max_length).1)
       input_ids scores).1
    = Ok (mkTensor1 (device1 r) ((fun b : bool => b || long_enough) <$> elems r)).
Proof.
  intros HF bound long_enough. eexists. split.
  { unfold StoppingCriteriaList.__call__.
    apply (loop_accumulates _ input_ids scores results);
      [exact HF|reflexivity|apply length_replicate]. }
  cbn [device1 elems]. unfold validate_stopping_criteria.
  subst bound long_enough.
  destruct (StoppingCriteriaList.max_length self) as [m|] eqn:Hown; cbn [default].
  - assert (Hsame : (if decide (m <> max_length)
                     then (self, [UserWarning
                             "You set different `max_length` for stopping criteria and `max_length` parameter"])
                     else (self, [])).1 = self) by (case_decide; reflexivity).
    rewrite Hsame. case_bool_decide as Hle.
    + destruct (max_length_member self m Hown) as (criteria & Hin & Hcall).
      pose proof (call_with_all_true_member _ input_ids scores results
                    (StoppingCriteriaList.as_member criteria) HF) as Hall.
      unfold StoppingCriteriaList.__call__ in Hall |- *.
      rewrite Hall.
      * unfold full_like_rows. f_equal. f_equal. rewrite <- list_fmap_compose.
        apply list_eq. intros j. rewrite list_lookup_fmap. cbn.
        destruct (decide (j < length (rows input_ids))%nat) as [Hj|Hj].
        -- rewrite lookup_seq_lt by exact Hj. rewrite lookup_replicate_2 by exact Hj. cbn.
           rewrite orb_true_r. reflexivity.
        -- rewrite lookup_seq_ge by lia. cbn. apply lookup_replicate_None. lia.
      * apply list_elem_of_fmap. exists criteria. auto.
      * rewrite Hcall. rewrite bool_decide_eq_true_2 by exact Hle. reflexivity.
    + unfold StoppingCriteriaList.__call__.
      rewrite (loop_accumulates _ input_ids scores results);
        [|exact HF|reflexivity|apply length_replicate].
      f_equal. f_equal. rewrite <- list_fmap_compose. apply list_fmap_ext.
      intros i j _. cbn. rewrite orb_false_r. reflexivity.
  - cbn [fst]. rewrite fmap_app. cbn [fmap list_fmap StoppingCriteriaList.as_member].
    unfold StoppingCriteriaList.__call__.
    rewrite (loop_accumulates _ input_ids scores
               (results ++ [full_like_rows input_ids
                              (bool_decide (max_length <= Z.of_nat (cols input_ids)))]));
      [| |reflexivity|apply length_replicate].
    + f_equal. f_equal. rewrite <- list_fmap_compose.
      apply list_eq. intros j. rewrite !list_lookup_fmap.
      destruct (decide (j < length (rows input_ids))%nat) as [Hj|Hj].
      * rewrite lookup_seq_lt by exact Hj. cbn. f_equal.
        rewrite existsb_app, orb_assoc. f_equal. cbn. rewrite orb_false_r.
        apply list_lookup_total_correct, lookup_replicate_2, Hj.
      * rewrite lookup_seq_ge by lia. reflexivity.
    + apply Forall2_app; [exact HF|]. constructor; [|constructor].
      split; [reflexivity|]. split; [reflexivity|apply length_replicate].
Qed.

End max_length.

(** ** Members that raise, members that agree *)

Section members.
Context {Scores : Type}.
Implicit Types (pre post : StoppingCriteriaList.t Scores).

Lemma loop_app_raise pre (criteria : StoppingCriteriaList.member Scores) post
    (input_ids : Tensor2) (scores : Scores) (results : list (Tensor1 bool))
    (acc : Tensor1 bool) (e : exn) :
  Forall2 (returns input_ids scores) pre results ->
  device1 acc = device2 input_ids ->
  length (elems acc) = length (rows input_ids) ->
  (StoppingCriteriaList.call_member criteria input_ids scores).1 = Raise e ->
  (StoppingCriteriaList.loop (pre ++ criteria :: post) input_ids scores acc).1 = Raise e /\
  drop (S (length pre))
       (StoppingCriteriaList.loop (pre ++ criteria :: post) input_ids scores acc).2 = post.
Proof.
  intros HF. revert acc. induction HF as [|c r pre results (Hc & Hdev & Hlen) HF IH];
    intros acc Hd Hl Hraise.
  - cbn [app StoppingCriteriaList.loop length].
    destruct (StoppingCriteriaList.call_member criteria input_ids scores) as [res c'].
    cbn [fst] in Hraise. subst res. cbn. split; reflexivity.
  - cbn [app StoppingCriteriaList.loop length].
    destruct (StoppingCriteriaList.call_member c input_ids scores) as [res c'].
    cbn [fst] in Hc. subst res. cbn [mbind result_bind].
    rewrite or_same_shape by congruence.
    specialize (IH (mkTensor1 (device1 acc) (zip_with orb (elems acc) (elems r)))).
    destruct (StoppingCriteriaList.loop (pre ++ criteria :: post) input_ids scores
                (mkTensor1 (device1 acc) (zip_with orb (elems acc) (elems r)))) as [res rest'].
    cbn [fst snd] in *. apply IH; [exact Hd| |exact Hraise].
    cbn. rewrite length_zip_with. lia.
Qed.

(** X20: when a member of the list raises, the call of the list raises the
    same exception, provided the members before it returned vectors for the
    batch; the members behind it are not called and stay as they were. *)
Theorem criteria_list_raises_with_its_member pre
    (criteria : StoppingCriteriaList.member Scores) post
    (input_ids : Tensor2) (scores : Scores) (results : list (Tensor1 bool)) (e : exn) :
  Forall2 (returns input_ids scores) pre results ->
  (StoppingCriteriaList.call_member criteria input_ids scores).1 = Raise e ->
  (StoppingCriteriaList.__call__ (pre ++ criteria :: post) input_ids scores).1 = Raise e /\
  drop (S (length pre))
       (StoppingCriteriaList.__call__ (pre ++ criteria :: post) input_ids scores).2 = post.
Proof.
  intros HF Hraise. unfold StoppingCriteriaList.__call__.
  apply (loop_app_raise pre criteria post input_ids scores results); auto.
  apply length_replicate.
Qed.

Lemma loop_agree pre (c1 c2 : StoppingCriteriaList.member Scores) post
    (input_ids : Tensor2) (scores : Scores) (acc : Tensor1 bool) :
  (StoppingCriteriaList.call_member c1 input_ids scores).1
  = (StoppingCriteriaList.call_member c2 input_ids scores).1 ->
  (StoppingCriteriaList.loop (pre ++ c1 :: post) input_ids scores acc).1
  = (StoppingCriteriaList.loop (pre ++ c2 :: post) input_ids scores acc).1.
Proof.
  intros Hsame. revert acc. induction pre as [|c pre IH]; intros acc.
  - cbn [app StoppingCriteriaList.loop].
    destruct (StoppingCriteriaList.call_member c1 input_ids scores) as [r1 c1'].
    destruct (StoppingCriteriaList.call_member c2 input_ids scores) as [r2 c2'].
    cbn [fst] in Hsame. subst r2.
    destruct (r1 ≫= StoppingCriteriaList.or_ acc) as [acc'|e]; [|reflexivity].
    destruct (StoppingCriteriaList.loop post input_ids scores acc') as [res rest']. reflexivity.
  - cbn [app StoppingCriteriaList.loop].
    destruct (StoppingCriteriaList.call_member c input_ids scores) as [r c'].
    destruct (r ≫= StoppingCriteriaList.or_ acc) as [acc'|e]; [|reflexivity].
    specialize (IH acc').
    destruct (StoppingCriteriaList.loop (pre ++ c1 :: post) input_ids scores acc') as [res1 rest1].
    destruct (StoppingCriteriaList.loop (pre ++ c2 :: post) input_ids scores acc') as [res2 rest2].
    exact IH.
Qed.

Lemma max_length_agree (pre post : list (StoppingCriteriaList.element Scores))
    (c1 c2 : StoppingCriteriaList.element Scores) :
  StoppingCriteriaList.max_length [c1] = StoppingCriteriaList.max_length [c2] ->
  StoppingCriteriaList.max_length (pre ++ c1 :: post)
  = StoppingCriteriaList.max_length (pre ++ c2 :: post).
Proof.
  intros Hsame. induction pre as [|[c|c|c] pre IH]; cbn in *; try reflexivity; [|exact IH].
  destruct c1, c2; cbn in *; congruence.
Qed.

(** X21: a [MaxNewTokensCriteria] built from [start_length] and
    [max_new_tokens] can be replaced by the [MaxLengthCriteria] for
    [start_length + max_new_tokens], as its deprecation notice says: in any
    list, at any place, the call of the list returns the same and the
    property [max_length] is the same. *)
Theorem max_new_tokens_criteria_is_max_length_criteria
    (pre post : list (StoppingCriteriaList.element Scores))
    (start_length max_new_tokens : Z) (max_position_embeddings : option Z)
    (input_ids : Tensor2) (scores : Scores) :
  let deprecated :=
    StoppingCriteriaList.OfMaxNewTokensCriteria
      (MaxNewTokensCriteria.__init__ start_length max_new_tokens) in
  let replacement :=
    StoppingCriteriaList.OfMaxLengthCriteria
      (MaxLengthCriteria.__init__ (start_length + max_new_tokens) max_position_embeddings) in
  (StoppingCriteriaList.__call__
     (StoppingCriteriaList.as_member <$> (pre ++ deprecated :: post)) input_ids scores).1
  = (StoppingCriteriaList.__call__
       (StoppingCriteriaList.as_member <$> (pre ++ replacement :: post)) input_ids scores).1 /\
  StoppingCriteriaList.max_length (pre ++ deprecated :: post)
  = StoppingCriteriaList.max_length (pre ++ replacement :: post).
Proof.
  intros deprecated replacement. split.
  - unfold StoppingCriteriaList.__call__. rewrite !fmap_app, !fmap_cons.
    apply loop_agree. reflexivity.
  - apply max_length_agree. reflexivity.
Qed.

End members.

Lemma criteria_list_stops_at_max_length_witness :
  let self : list (StoppingCriteriaList.element unit) :=
    [StoppingCriteriaList.OfMaxNewTokensCriteria (MaxNewTokensCriteria.__init__ 1 1);
     StoppingCriteriaList.OfMaxLengthCriteria (MaxLengthCriteria.__init__ 5 None)] in
  let input_ids := mkTensor2 cpu 2 [[0; 1]; [1; 0]] in
  (StoppingCriteriaList.__call__ (StoppingCriteriaList.as_member <$> self) input_ids tt).1
  = Ok (mkTensor1 cpu [true; true]).
Proof.
  intros self input_ids.
  apply (criteria_list_stops_at_max_length self input_ids tt
           [mkTensor1 cpu [true; true]; mkTensor1 cpu [false; false]] 2).
  - reflexivity.
  - cbn. lia.
  - repeat constructor.
Defined.

Lemma validated_list_adds_the_length_bound_witness :
  exists criteria r,
    StopStringCriteria.__init__ (mkTokenizer small_vocab) (OneString (str "stop"))
    = Ok criteria /\
    let self : list (StoppingCriteriaList.element unit) :=
      [StoppingCriteriaList.OfAnotherClass
         (StoppingCriteriaList.Member StopStringCriteria.t criteria)] in
    let input_ids := mkTensor2 cpu 3 [[0; 0; 0]; [1; 0; 2]] in
    (StoppingCriteriaList.__call__ (StoppingCriteriaList.as_member <$> self) input_ids tt).1
    = Ok r /\
    (StoppingCriteriaList.__call__
       (StoppingCriteriaList.as_member <$> (validate_stopping_criteria self 3).1)
       input_ids tt).1
    = Ok (mkTensor1 (device1 r) ((fun b : bool => b || true) <$> elems r)).
Proof.
  eexists.
  assert (Hinit : StopStringCriteria.__init__ (mkTokenizer small_vocab) (OneString (str "stop"))
                  = Ok ?[self]) by (vm_compute; reflexivity).
  match type of Hinit with
  | _ = Ok ?criteria =>
      destruct (validated_list_adds_the_length_bound
                  [StoppingCriteriaList.OfAnotherClass
                     (StoppingCriteriaList.Member StopStringCriteria.t criteria)] 3
                  (mkTensor2 cpu 3 [[0; 0; 0]; [1; 0; 2]]) tt [mkTensor1 cpu [false; true]])
        as (r & Hr & Hv)
  end.
  - constructor; [|constructor]. split; [vm_compute; reflexivity|]. split; reflexivity.
  - exists r. split; [exact Hinit|]. split; [exact Hr|exact Hv].
Defined.

Lemma criteria_list_raises_with_its_member_witness :
  let pre : StoppingCriteriaList.t unit :=
    [StoppingCriteriaList.Member MaxLengthCriteria.t (MaxLengthCriteria.__init__ 3 None)] in
  let post : StoppingCriteriaList.t unit :=
    [StoppingCriteriaList.Member MaxNewTokensCriteria.t (MaxNewTokensCriteria.__init__ 1 1)] in
  let criteria := StoppingCriteriaList.Member AbstractCriteria abstract_criteria in
  let input_ids := mkTensor2 cpu 2 [[0; 1]; [1; 0]] in
  (StoppingCriteriaList.__call__ (pre ++ criteria :: post) input_ids tt).1
  = Raise NotImplementedError /\
  drop 2 (StoppingCriteriaList.__call__ (pre ++ criteria :: post) input_ids tt).2 = post.
Proof.
  intros pre post criteria input_ids.
  apply (criteria_list_raises_with_its_member pre criteria post input_ids tt
           [mkTensor1 cpu [false; false]]).
  - repeat constructor.
  - reflexivity.
Defined.
